(** * CLRParser: a shallow embedding of the CLR(1) table generator

    The development follows [src/lib/clr-parser.ts] and its sibling copy
    [src/unnamed/part_001] (the copy that also holds [parseString]).

    JavaScript strings are sequences of UTF-16 code units; they are modelled
    as lists of [N].  A [Set<string>] is iterated in insertion order by the
    source, so it is modelled as a duplicate-free list.  Plain objects used
    as dictionaries are [gmap]s keyed by property name, together with the
    property names every object inherits from [Object.prototype]. *)

From Stdlib Require Import List NArith Arith Bool Lia String Ascii.
From Stdlib Require Import DecimalString DecimalNat.
From stdpp Require Import gmap.
Import ListNotations.

Local Open Scope N_scope.
Local Open Scope nat_scope.
Local Open Scope list_scope.

(** ** JavaScript strings *)

Module Js.

Definition jsstring := list N.

(** An ASCII literal as a sequence of code units. *)
Definition js (s : string) : jsstring :=
  List.map N_of_ascii (list_ascii_of_string s).

Definition nl : jsstring := [10%N].          (* "\n" *)
Definition eps : jsstring := [949%N].        (* "ε", U+03B5 *)
Definition bullet : jsstring := [8226%N].    (* "•", U+2022 *)
Definition dollar : jsstring := [36%N].      (* "$" *)

Fixpoint streq (a b : jsstring) : bool :=
  match a, b with
  | [], [] => true
  | x :: a', y :: b' => N.eqb x y && streq a' b'
  | _, _ => false
  end.

(** [Array.prototype.includes] on an array of strings. *)
Definition includes (x : jsstring) (l : list jsstring) : bool :=
  existsb (streq x) l.

(** [Set.prototype.add]: insertion order is kept, duplicates are dropped. *)
Definition setAdd (x : jsstring) (s : list jsstring) : list jsstring :=
  if includes x s then s else s ++ [x].

(** [other.forEach(x => s.add(x))]. *)
Definition setAddAll (other s : list jsstring) : list jsstring :=
  fold_left (fun acc x => setAdd x acc) other s.

(** [Set.prototype.delete]. *)
Definition setDelete (x : jsstring) (s : list jsstring) : list jsstring :=
  List.filter (fun y => negb (streq y x)) s.

(** The class [\s] of a JavaScript regular expression, which is also the
    set of code units stripped by [String.prototype.trim]. *)
Definition isWhiteSpace (c : N) : bool :=
  ((9 <=? c) && (c <=? 13) || (c =? 32) || (c =? 160) || (c =? 5760)
   || (8192 <=? c) && (c <=? 8202) || (c =? 8232) || (c =? 8233)
   || (c =? 8239) || (c =? 8287) || (c =? 12288) || (c =? 65279))%N.

(** The code units that [.] does not match. *)
Definition isLineTerminator (c : N) : bool :=
  ((c =? 10) || (c =? 13) || (c =? 8232) || (c =? 8233))%N.

Definition isUpper (c : N) : bool := ((65 <=? c) && (c <=? 90))%N.
Definition isLower (c : N) : bool := ((97 <=? c) && (c <=? 122))%N.
Definition isDigit (c : N) : bool := ((48 <=? c) && (c <=? 57))%N.
Definition isAlnum (c : N) : bool := isUpper c || isLower c || isDigit c.

Fixpoint dropWhile (p : N -> bool) (s : jsstring) : jsstring :=
  match s with
  | [] => []
  | c :: s' => if p c then dropWhile p s' else s
  end.

Fixpoint takeWhile (p : N -> bool) (s : jsstring) : jsstring :=
  match s with
  | [] => []
  | c :: s' => if p c then c :: takeWhile p s' else []
  end.

(** [String.prototype.trim]. *)
Definition trim (s : jsstring) : jsstring :=
  rev (dropWhile isWhiteSpace (rev (dropWhile isWhiteSpace s))).

(** [s.split(sep)] for a one-code-unit separator: never the empty array. *)
Fixpoint splitOn (sep : N) (s : jsstring) : list jsstring :=
  match s with
  | [] => [[]]
  | c :: s' =>
      if N.eqb c sep then [] :: splitOn sep s'
      else match splitOn sep s' with
           | w :: ws => (c :: w) :: ws
           | [] => [[c]]
           end
  end.

(** [s.split(/\s+/)]: [inSep] tells that the previous code unit belonged to
    the separator being consumed. *)
Fixpoint splitWsAux (inSep : bool) (s : jsstring) : list jsstring :=
  match s with
  | [] => [[]]
  | c :: s' =>
      if isWhiteSpace c then
        if inSep then splitWsAux true s' else [] :: splitWsAux true s'
      else match splitWsAux false s' with
           | w :: ws => (c :: w) :: ws
           | [] => [[c]]
           end
  end.

Definition splitWs (s : jsstring) : list jsstring := splitWsAux false s.

(** [parts.join(sep)]. *)
Fixpoint join (sep : jsstring) (parts : list jsstring) : jsstring :=
  match parts with
  | [] => []
  | [p] => p
  | p :: rest => p ++ sep ++ join sep rest
  end.

(** [/^[a-z0-9]+$/.test(s)]. *)
Definition isTerminalName (s : jsstring) : bool :=
  match s with
  | [] => false
  | _ => forallb (fun c => isLower c || isDigit c) s
  end.

(** The test of [s] against the nonterminal pattern: an upper-case letter
    followed by letters and digits, anchored at both ends. *)
Definition isNonTerminalName (s : jsstring) : bool :=
  match s with
  | [] => false
  | c :: s' => isUpper c && forallb isAlnum s'
  end.

(** [String(n)] for a non-negative integer. *)
Definition natToString (n : nat) : jsstring :=
  js (NilEmpty.string_of_uint (Nat.to_uint n)).

(** The first [Some] among [f k], [f (k-1)], ..., [f lo]: a greedy
    quantifier tries the longest repetition first and backtracks. *)
Fixpoint greedy {A} (f : nat -> option A) (lo k : nat) : option A :=
  match f k with
  | Some r => Some r
  | None =>
      match k with
      | 0 => None
      | S k' => if k <=? lo then None else greedy f lo k'
      end
  end.

(** The tail [\s*(.+)\s*$] of the production pattern, on what follows the
    arrow; the result is the second capture group. *)
Definition matchRhs (r : jsstring) : option jsstring :=
  greedy (fun k =>
    let r1 := skipn k r in
    let longest := List.length (takeWhile (fun c => negb (isLineTerminator c)) r1) in
    if longest =? 0 then None
    else greedy (fun m =>
           if forallb isWhiteSpace (skipn m r1) then Some (firstn m r1) else None)
         1 longest)
    0 (List.length (takeWhile isWhiteSpace r)).

(** [line.match(re)] for the production pattern [re], which reads: start,
    [\s*], group 1 = an upper-case letter then letters and digits, [\s*],
    the arrow, [\s*], group 2 = [.+], [\s*], end.  The result is the two
    capture groups.  Up to the arrow every quantifier is followed by a code unit
    outside its class, so the longest repetition is the only one that can
    succeed. *)
Definition matchProduction (line : jsstring) : option (jsstring * jsstring) :=
  match dropWhile isWhiteSpace line with
  | c :: s1 =>
      if isUpper c then
        let name := c :: takeWhile isAlnum s1 in
        match dropWhile isWhiteSpace (dropWhile isAlnum s1) with
        | x :: y :: r =>
            if N.eqb x 45 && N.eqb y 62 then   (* "->" *)
              match matchRhs r with
              | Some rhsStr => Some (name, rhsStr)
              | None => None
              end
            else None
        | _ => None
        end
      else None
  | [] => None
  end.

End Js.
Export Js.

(** ** Grammar types *)

Module Production.
Record t := mk {
  lhs : jsstring;
  rhs : list jsstring;
  id : nat  (* Production ID for reduce actions *)
}.
End Production.
Abbreviation Production := Production.t.

Module Grammar.
Record t := mk {
  productions : list Production;
  terminals : list jsstring;
  nonTerminals : list jsstring;
  startSymbol : jsstring
}.
End Grammar.
Abbreviation Grammar := Grammar.t.

Module Item.
Record t := mk {
  production : Production;
  dotPosition : nat;
  lookahead : list jsstring
}.
End Item.
Abbreviation Item := Item.t.

Module State.
Record t := mk {
  id : nat;
  items : list Item;
  kernel : list Item  (* For display purposes *)
}.
End State.
Abbreviation State := State.t.

(** The errors [parseGrammar] throws; [errorMessage] is the text given to
    [new Error].  [UndefinedAccess] stands for the [TypeError] of reading a
    property of [undefined]. *)
Inductive GrammarError :=
| EmptyGrammar
| InvalidProductionFormat (line : jsstring)
| InvalidSymbol (symbol : jsstring)
| UndefinedAccess.

Definition errorMessage (e : GrammarError) : jsstring :=
  match e with
  | EmptyGrammar => js "Grammar cannot be empty"
  | InvalidProductionFormat line => js "Invalid production format: " ++ line
  | InvalidSymbol symbol => js "Invalid symbol in production: " ++ symbol
  | UndefinedAccess => js "Cannot read properties of undefined"
  end.

(** The scan of one right-hand side: terminals and nonterminals are
    collected, [ε] and the empty string are skipped, anything else throws. *)
Fixpoint classifySymbols (rhs terminals nonTerminals : list jsstring)
  : GrammarError + (list jsstring * list jsstring) :=
  match rhs with
  | [] => inr (terminals, nonTerminals)
  | symbol :: rest =>
      if streq symbol eps then classifySymbols rest terminals nonTerminals
      else if isTerminalName symbol then
        classifySymbols rest (setAdd symbol terminals) nonTerminals
      else if isNonTerminalName symbol then
        classifySymbols rest terminals (setAdd symbol nonTerminals)
      else if negb (streq symbol []) then inl (InvalidSymbol symbol)
      else classifySymbols rest terminals nonTerminals
  end.

(** [rhsStr.trim() === "ε" || rhsStr.trim() === "" ? ["ε"] : rhsStr.trim().split(/\s+/)] *)
Definition splitRhs (rhsStr : jsstring) : list jsstring :=
  if streq (trim rhsStr) eps || streq (trim rhsStr) [] then [eps]
  else splitWs (trim rhsStr).

(** The two copies of [parseGrammar] differ in one expression only, the
    right-hand side stored in the production; [storeRhs] is that
    expression. *)
Section ParseGrammar.
Variable storeRhs : list jsstring -> list jsstring.

(** The [for] loop over the lines; [i] is the loop index. *)
Fixpoint parseLines (lines : list jsstring) (i : nat)
    (productions : list Production) (terminals nonTerminals : list jsstring)
  : GrammarError + (list Production * list jsstring * list jsstring) :=
  match lines with
  | [] => inr (productions, terminals, nonTerminals)
  | line :: rest =>
      match matchProduction line with
      | None => inl (InvalidProductionFormat line)
      | Some (lhs, rhsStr) =>
          let nonTerminals1 := setAdd lhs nonTerminals in
          let rhs := splitRhs rhsStr in
          match classifySymbols rhs terminals nonTerminals1 with
          | inl e => inl e
          | inr (terminals2, nonTerminals2) =>
              parseLines rest (S i)
                (productions ++ [Production.mk lhs (storeRhs rhs) (i + 1)])
                terminals2 nonTerminals2
          end
      end
  end.

Definition parseGrammarWith (input : jsstring) : GrammarError + Grammar :=
  let lines := splitOn 10%N (trim input) in
  if List.length lines =? 0 then inl EmptyGrammar
  else
    match parseLines lines 0 [] [] [] with
    | inl e => inl e
    | inr (productions, terminals, nonTerminals) =>
        let terminals1 := setAdd dollar terminals in
        match productions with
        | [] => inl UndefinedAccess
        | first :: _ =>
            let startSymbol := Production.lhs first in
            let augmentedStartSymbol := startSymbol ++ js "'" in
            let productions1 :=
              Production.mk augmentedStartSymbol [startSymbol] 0 :: productions in
            inr (Grammar.mk productions1 terminals1
                   (setAdd augmentedStartSymbol nonTerminals)
                   augmentedStartSymbol)
        end
    end.
End ParseGrammar.

(** [src/lib/clr-parser.ts]: the stored right-hand side is
    [rhs === ["ε"] ? [] : rhs].  The array literal is a fresh object, strict
    equality on objects compares identity, so the test is false for every
    [rhs]. *)
Module Lib.
Definition sameObjectAsFreshEps (rhs : list jsstring) : bool := false.
Definition storeRhs (rhs : list jsstring) : list jsstring :=
  if sameObjectAsFreshEps rhs then [] else rhs.
Definition parseGrammar : jsstring -> GrammarError + Grammar :=
  parseGrammarWith storeRhs.
End Lib.

(** [src/unnamed/part_001]: the stored right-hand side is
    [rhs.length === 1 && rhs[0] === "ε" ? [] : rhs]. *)
Module Part1.
Definition storeRhs (rhs : list jsstring) : list jsstring :=
  if (List.length rhs =? 1) && streq (nth 0 rhs []) eps then [] else rhs.
Definition parseGrammar : jsstring -> GrammarError + Grammar :=
  parseGrammarWith storeRhs.
End Part1.

(** ** Results of the functions that loop or may throw

    [Ret a] is a returned value, [Throw] a raised [TypeError], [OutOfFuel]
    says that the loop or the recursion did not finish within the fuel. *)

Inductive Run (A : Type) :=
| Ret (a : A)
| Throw
| OutOfFuel.
Arguments Ret {A} a.
Arguments Throw {A}.
Arguments OutOfFuel {A}.

Definition bindRun {A B} (m : Run A) (k : A -> Run B) : Run B :=
  match m with
  | Ret a => k a
  | Throw => Throw
  | OutOfFuel => OutOfFuel
  end.

Notation "x <~ m ;; k" := (bindRun m (fun x => k))
  (at level 100, m at next level, right associativity).

(** A [for ... of] loop whose body may fail, threading the loop state. *)
Fixpoint forEach {A S} (body : S -> A -> Run S) (l : list A) (s : S) : Run S :=
  match l with
  | [] => Ret s
  | x :: l' => s' <~ body s x ;; forEach body l' s'
  end.

(** ** Item equality *)

(** Helper function to check if two arrays are equal *)
Definition arraysEqual (arr1 arr2 : list jsstring) : bool :=
  if negb (List.length arr1 =? List.length arr2) then false
  else forallb (fun item => includes item arr1) arr2.

(** Helper function to check if two items are equal *)
Definition itemsEqual (item1 item2 : Item) : bool :=
  streq (Production.lhs (Item.production item1)) (Production.lhs (Item.production item2))
  && streq (join (js " ") (Production.rhs (Item.production item1)))
           (join (js " ") (Production.rhs (Item.production item2)))
  && (Item.dotPosition item1 =? Item.dotPosition item2)
  && arraysEqual (Item.lookahead item1) (Item.lookahead item2).

(** ** FIRST sets *)

(** [production.rhs.length === 0 || production.rhs[0] === "ε"] *)
Definition isEpsilonRhs (rhs : list jsstring) : bool :=
  match rhs with
  | [] => true
  | s :: _ => streq s eps
  end.

(** The loop of [computeFirst] over the productions; [rec] is the
    recursive call, [rest] is [symbols.slice(1)]. *)
Fixpoint firstOfProductions (rec : list jsstring -> Run (list jsstring))
    (firstSymbol : jsstring) (rest : list jsstring)
    (prods : list Production) (first : list jsstring) : Run (list jsstring) :=
  match prods with
  | [] => Ret first
  | production :: prods' =>
      if streq (Production.lhs production) firstSymbol then
        if isEpsilonRhs (Production.rhs production) then
          let first1 := setAdd eps first in
          if 0 <? List.length rest then
            restFirst <~ rec rest ;;
            firstOfProductions rec firstSymbol rest prods' (setAddAll restFirst first1)
          else firstOfProductions rec firstSymbol rest prods' first1
        else
          rhsFirst <~ rec (Production.rhs production) ;;
          let first1 :=
            setAddAll (List.filter (fun symbol => negb (streq symbol eps)) rhsFirst) first in
          if includes eps rhsFirst && (0 <? List.length rest) then
            restFirst <~ rec rest ;;
            firstOfProductions rec firstSymbol rest prods' (setAddAll restFirst first1)
          else firstOfProductions rec firstSymbol rest prods' first1
      else firstOfProductions rec firstSymbol rest prods' first
  end.

(** Helper function to compute FIRST set for a symbol or sequence; [fuel]
    bounds the depth of the recursion. *)
Fixpoint computeFirst (fuel : nat) (grammar : Grammar) (symbols : list jsstring)
  : Run (list jsstring) :=
  match fuel with
  | 0 => OutOfFuel
  | S fuel' =>
      match symbols with
      | [] => Ret [eps]
      | firstSymbol :: rest =>
          if includes firstSymbol (Grammar.terminals grammar) then Ret [firstSymbol]
          else firstOfProductions (computeFirst fuel' grammar) firstSymbol rest
                 (Grammar.productions grammar) []
      end
  end.

(** ** Closure and GOTO *)

(** The state of the closure loops: the array [result] and the flag
    [changed]. *)
Definition ClosureState : Type := list Item * bool.

(** [if (!result.some((item) => itemsEqual(item, newItem))) { push; changed = true }] *)
Definition addItem (st : ClosureState) (newItem : Item) : ClosureState :=
  if existsb (fun item => itemsEqual item newItem) (fst st) then st
  else (fst st ++ [newItem], true).

(** Add items for all productions with the non-terminal on the LHS. *)
Definition addProductions (grammar : Grammar) (symbolAfterDot : jsstring)
    (firstSet : list jsstring) (st : ClosureState) : ClosureState :=
  fold_left (fun st production =>
      if streq (Production.lhs production) symbolAfterDot then
        fold_left (fun st lookahead => addItem st (Item.mk production 0 [lookahead]))
                  firstSet st
      else st)
    (Grammar.productions grammar) st.

(** The sequence whose FIRST set the closure needs for [item], when the dot
    of [item] is before a non-terminal: that non-terminal and
    [[...beta, ...item.lookahead]]. *)
Definition expansion (grammar : Grammar) (item : Item) : option (jsstring * list jsstring) :=
  let rhs := Production.rhs (Item.production item) in
  if Item.dotPosition item <? List.length rhs then
    let symbolAfterDot := nth (Item.dotPosition item) rhs [] in
    if includes symbolAfterDot (Grammar.nonTerminals grammar) then
      Some (symbolAfterDot, skipn (Item.dotPosition item + 1) rhs ++ Item.lookahead item)
    else None
  else None.

(** The [for (let i = 0; i < result.length; i++)] loop, from index [i];
    [result] grows while the loop runs. *)
Fixpoint closureFor (fuel : nat) (grammar : Grammar) (i : nat) (st : ClosureState)
  : Run ClosureState :=
  match fuel with
  | 0 => OutOfFuel
  | S fuel' =>
      match fst st !! i with
      | None => Ret st
      | Some item =>
          match expansion grammar item with
          | Some (symbolAfterDot, lookaheadSymbols) =>
              firstSet <~ computeFirst fuel' grammar lookaheadSymbols ;;
              closureFor fuel' grammar (S i)
                (addProductions grammar symbolAfterDot (setDelete eps firstSet) st)
          | None => closureFor fuel' grammar (S i) st
          end
      end
  end.

(** The [while (changed)] loop. *)
Fixpoint closureWhile (fuel : nat) (grammar : Grammar) (result : list Item)
  : Run (list Item) :=
  match fuel with
  | 0 => OutOfFuel
  | S fuel' =>
      st <~ closureFor fuel' grammar 0 (result, false) ;;
      if snd st then closureWhile fuel' grammar (fst st) else Ret (fst st)
  end.

(** Compute closure of a set of LR(1) items *)
Definition closure (fuel : nat) (grammar : Grammar) (items : list Item) : Run (list Item) :=
  closureWhile fuel grammar items.

(** The items of [items] with [symbol] after the dot, the dot advanced. *)
Definition advance (items : list Item) (symbol : jsstring) : list Item :=
  flat_map (fun item =>
      let rhs := Production.rhs (Item.production item) in
      if (Item.dotPosition item <? List.length rhs)
         && streq (nth (Item.dotPosition item) rhs []) symbol
      then [Item.mk (Item.production item) (Item.dotPosition item + 1) (Item.lookahead item)]
      else [])
    items.

(** Compute GOTO for a set of LR(1) items and a grammar symbol *)
Definition goto (fuel : nat) (grammar : Grammar) (items : list Item) (symbol : jsstring)
  : Run (list Item) :=
  closure fuel grammar (advance items symbol).

(** ** The canonical collection *)

(** The order of [Array.prototype.sort] without a comparator: code units,
    left to right; a proper prefix comes first. *)
Fixpoint strle (a b : jsstring) : bool :=
  match a, b with
  | [], _ => true
  | _ :: _, [] => false
  | x :: a', y :: b' => N.ltb x y || (N.eqb x y && strle a' b')
  end.

Fixpoint insertSorted (x : jsstring) (l : list jsstring) : list jsstring :=
  match l with
  | [] => [x]
  | y :: l' => if strle x y then x :: l else y :: insertSorted x l'
  end.

Definition sortStrings (l : list jsstring) : list jsstring :=
  fold_right insertSorted [] l.

(** [rhsCopy.splice(item.dotPosition, 0, "•")] on a copy of the right-hand
    side. *)
Definition withDot (item : Item) : list jsstring :=
  let rhs := Production.rhs (Item.production item) in
  firstn (Item.dotPosition item) rhs ++ [bullet] ++ skipn (Item.dotPosition item) rhs.

(** Function to get a signature for a set of items *)
Definition getStateSignature (items : list Item) : jsstring :=
  join (js "|")
    (sortStrings
       (List.map (fun item =>
            Production.lhs (Item.production item) ++ js "->"
            ++ join (js " ") (withDot item) ++ js ","
            ++ join (js "/") (Item.lookahead item))
          items)).

(** Get all symbols after the dot *)
Definition symbolsAfterDot (items : list Item) : list jsstring :=
  fold_left (fun symbols item =>
      let rhs := Production.rhs (Item.production item) in
      if Item.dotPosition item <? List.length rhs
      then setAdd (nth (Item.dotPosition item) rhs []) symbols
      else symbols)
    items [].

(** Find items that came from advancing the dot *)
Definition kernelOf (state : State) (symbol : jsstring) (gotoItems : list Item) : list Item :=
  List.filter (fun item =>
      existsb (fun stateItem =>
          let rhs := Production.rhs (Item.production stateItem) in
          (Item.dotPosition stateItem <? List.length rhs)
          && streq (nth (Item.dotPosition stateItem) rhs []) symbol
          && streq (Production.lhs (Item.production stateItem))
                   (Production.lhs (Item.production item))
          && streq (join (js " ") rhs)
                   (join (js " ") (Production.rhs (Item.production item)))
          && (Item.dotPosition item =? Item.dotPosition stateItem + 1))
        (State.items state))
    gotoItems.

(** The array [states] and the map [stateMap] from signature to state id. *)
Definition Collection : Type := list State * gmap jsstring nat.

(** For each symbol, compute GOTO and add new state if needed *)
Definition exploreSymbol (fuel : nat) (grammar : Grammar) (state : State)
    (acc : Collection) (symbol : jsstring) : Run Collection :=
  gotoItems <~ goto fuel grammar (State.items state) symbol ;;
  if 0 <? List.length gotoItems then
    let signature := getStateSignature gotoItems in
    match snd acc !! signature with
    | Some _ => Ret acc
    | None =>
        let newStateId := List.length (fst acc) in
        Ret (fst acc ++ [State.mk newStateId gotoItems (kernelOf state symbol gotoItems)],
             <[signature := newStateId]> (snd acc))
    end
  else Ret acc.

(** Process states until no new states are added: the loop
    [while (i < states.length)]. *)
Fixpoint exploreStates (fuel : nat) (grammar : Grammar) (i : nat) (acc : Collection)
  : Run (list State) :=
  match fuel with
  | 0 => OutOfFuel
  | S fuel' =>
      match fst acc !! i with
      | None => Ret (fst acc)
      | Some state =>
          acc' <~ forEach (exploreSymbol fuel' grammar state)
                    (symbolsAfterDot (State.items state)) acc ;;
          exploreStates fuel' grammar (S i) acc'
      end
  end.

(** Generate CLR(1) items.  With no production at all the initial item has
    an undefined production, whose [rhs] the closure reads. *)
Definition generateClrItems (fuel : nat) (grammar : Grammar) : Run (list State) :=
  match Grammar.productions grammar with
  | [] => Throw
  | augmented :: _ =>
      let initialItem := Item.mk augmented 0 [dollar] in
      initialClosure <~ closure fuel grammar [initialItem] ;;
      exploreStates fuel grammar 0
        ([State.mk 0 initialClosure [initialItem]],
         {[ getStateSignature initialClosure := 0 ]})
  end.

(** ** The automaton *)

Module Node.
Record t := mk { id : nat; label : jsstring }.
End Node.

Module Edge.
Record t := mk { source : nat; target : nat; label : jsstring }.
End Edge.
Abbreviation Edge := Edge.t.

Module Dfa.
Record t := mk { nodes : list Node.t; edges : list Edge }.
End Dfa.
Abbreviation Dfa := Dfa.t.

Definition nodeOf (state : State) : Node.t :=
  Node.mk (State.id state)
    (join nl
       (List.map (fun item =>
            Production.lhs (Item.production item) ++ js " -> "
            ++ join (js " ") (withDot item) ++ js ", "
            ++ join (js "/") (Item.lookahead item))
          (State.items state))).

(** The test that picks the target state of an edge. *)
Definition sameItems (gotoItems : list Item) (targetState : State) : bool :=
  (List.length gotoItems =? List.length (State.items targetState))
  && forallb (fun item =>
        existsb (fun targetItem => itemsEqual item targetItem) (State.items targetState))
      gotoItems.

(** Find the state ID for these items: the first state that passes the
    test gives the edge, and the search stops there. *)
Definition edgeFor (fuel : nat) (grammar : Grammar) (states : list State) (state : State)
    (edges : list Edge) (symbol : jsstring) : Run (list Edge) :=
  gotoItems <~ goto fuel grammar (State.items state) symbol ;;
  if 0 <? List.length gotoItems then
    match List.find (sameItems gotoItems) states with
    | Some targetState =>
        Ret (edges ++ [Edge.mk (State.id state) (State.id targetState) symbol])
    | None => Ret edges
    end
  else Ret edges.

(** Generate DFA from CLR items *)
Definition generateDfa (fuel : nat) (states : list State) (grammar : Grammar) : Run Dfa :=
  edges <~ forEach (fun edges state =>
               forEach (edgeFor fuel grammar states state)
                 (symbolsAfterDot (State.items state)) edges)
             states [] ;;
  Ret (Dfa.mk (List.map nodeOf states) edges).

(** ** The parsing table *)

(** A cell of the action table.  The source stores the strings ["s" + n],
    ["r" + n] and ["acc"]. *)
Inductive Action :=
| Shift (target : nat)
| Reduce (productionId : nat)
| Accept.

Definition actionString (a : Action) : jsstring :=
  match a with
  | Shift target => js "s" ++ natToString target
  | Reduce productionId => js "r" ++ natToString productionId
  | Accept => js "acc"
  end.

(** [action.startsWith("s")] *)
Definition isShift (a : Action) : bool :=
  match a with
  | Shift _ => true
  | _ => false
  end.

(** The property names that an object created by [{}] inherits from
    [Object.prototype] (ECMAScript, with the additions for web browsers).
    Their values are functions or objects: truthy, and not strings. *)
Definition objectPrototypeKeys : list jsstring :=
  List.map js
    ["constructor"; "hasOwnProperty"; "isPrototypeOf"; "propertyIsEnumerable";
     "toLocaleString"; "toString"; "valueOf"; "__proto__"; "__defineGetter__";
     "__defineSetter__"; "__lookupGetter__"; "__lookupSetter__"]%string.

(** What [row[key]] evaluates to on a row created by [{}]. *)
Inductive Property (V : Type) :=
| Own (v : V)
| Inherited
| Undefined.
Arguments Own {V} v.
Arguments Inherited {V}.
Arguments Undefined {V}.

Definition getProperty {V} (row : gmap jsstring V) (key : jsstring) : Property V :=
  match row !! key with
  | Some v => Own v
  | None => if includes key objectPrototypeKeys then Inherited else Undefined
  end.

Module ParsingTable.
Record t := mk {
  actions : gmap jsstring (gmap jsstring Action);
  gotos : gmap jsstring (gmap jsstring nat);
  terminals : list jsstring;
  nonTerminals : list jsstring;
  states : list nat
}.
End ParsingTable.
Abbreviation ParsingTable := ParsingTable.t.

(** The two records under construction. *)
Definition Tables : Type :=
  gmap jsstring (gmap jsstring Action) * gmap jsstring (gmap jsstring nat).

(** Initialize tables *)
Definition initTables (states : list State) : Tables :=
  fold_left (fun t state =>
      (<[natToString (State.id state) := ∅]> (fst t),
       <[natToString (State.id state) := ∅]> (snd t)))
    states (∅, ∅).

(** [table[row][key] = v]; it throws when [table[row]] is undefined. *)
Definition setCell {V} (table : gmap jsstring (gmap jsstring V))
    (row key : jsstring) (v : V) : Run (gmap jsstring (gmap jsstring V)) :=
  match table !! row with
  | Some r => Ret (<[row := <[key := v]> r]> table)
  | None => Throw
  end.

(** Add shift actions based on DFA edges *)
Definition addEdge (grammar : Grammar) (t : Tables) (edge : Edge) : Run Tables :=
  if includes (Edge.label edge) (Grammar.terminals grammar) then
    actions <~ setCell (fst t) (natToString (Edge.source edge)) (Edge.label edge)
                 (Shift (Edge.target edge)) ;;
    Ret (actions, snd t)
  else if includes (Edge.label edge) (Grammar.nonTerminals grammar) then
    gotos <~ setCell (snd t) (natToString (Edge.source edge)) (Edge.label edge)
               (Edge.target edge) ;;
    Ret (fst t, gotos)
  else Ret t.

(** The reduce action for one lookahead.  Don't override shift actions
    (shift-reduce conflict resolution).  On an inherited property the test
    calls [startsWith] on a value that has no such method. *)
Definition addReduce (row : jsstring) (productionId : nat)
    (actions : gmap jsstring (gmap jsstring Action)) (lookahead : jsstring)
  : Run (gmap jsstring (gmap jsstring Action)) :=
  match actions !! row with
  | None => Throw
  | Some r =>
      match getProperty r lookahead with
      | Undefined => setCell actions row lookahead (Reduce productionId)
      | Own a =>
          if negb (isShift a) then setCell actions row lookahead (Reduce productionId)
          else Ret actions
      | Inherited => Throw
      end
  end.

(** Add reduce and accept actions based on one item of a state. *)
Definition addItemActions (grammar : Grammar) (stateId : nat)
    (actions : gmap jsstring (gmap jsstring Action)) (item : Item)
  : Run (gmap jsstring (gmap jsstring Action)) :=
  if Item.dotPosition item =? List.length (Production.rhs (Item.production item)) then
    if streq (Production.lhs (Item.production item)) (Grammar.startSymbol grammar)
       && includes dollar (Item.lookahead item)
    then setCell actions (natToString stateId) dollar Accept
    else forEach (addReduce (natToString stateId) (Production.id (Item.production item)))
           (Item.lookahead item) actions
  else Ret actions.

Definition addStateActions (grammar : Grammar)
    (actions : gmap jsstring (gmap jsstring Action)) (state : State)
  : Run (gmap jsstring (gmap jsstring Action)) :=
  forEach (addItemActions grammar (State.id state)) (State.items state) actions.

(** The first loop of [generateParsingTable], over the edges. *)
Definition shiftPhase (states : list State) (dfa : Dfa) (grammar : Grammar) : Run Tables :=
  forEach (addEdge grammar) (Dfa.edges dfa) (initTables states).

(** Generate CLR parsing table *)
Definition generateParsingTable (states : list State) (dfa : Dfa) (grammar : Grammar)
  : Run ParsingTable :=
  t <~ shiftPhase states dfa grammar ;;
  actions <~ forEach (addStateActions grammar) states (fst t) ;;
  Ret (ParsingTable.mk actions (snd t)
         (Grammar.terminals grammar)
         (List.filter (fun nt => negb (streq nt (Grammar.startSymbol grammar)))
            (Grammar.nonTerminals grammar))
         (List.map State.id states)).

(** The whole pipeline of the page: grammar text to parsing table. *)
Definition buildTable (fuel : nat) (grammar : Grammar) : Run ParsingTable :=
  states <~ generateClrItems fuel grammar ;;
  dfa <~ generateDfa fuel states grammar ;;
  generateParsingTable states dfa grammar.

(** ** The recognizer ([src/unnamed/part_001]) *)

(** The values held by the stack and the token cursor: a symbol, a state
    number, or [undefined] (an index past the end of an array). *)
Inductive Value :=
| VStr (s : jsstring)
| VNum (n : nat)
| VUndef.

(** The text of a value inside a template literal; it is also the property
    name the value stands for when it indexes an object. *)
Definition valueString (v : Value) : jsstring :=
  match v with
  | VStr s => s
  | VNum n => natToString n
  | VUndef => js "undefined"
  end.

Module ParseResult.
Record t := mk { isValid : bool; steps : list jsstring }.
End ParseResult.
Abbreviation ParseResult := ParseResult.t.

(** The variables of the loop.  The head of [stack] is the last element of
    the array. *)
Module Config.
Record t := mk { stack : list Value; pointer : nat; steps : list jsstring }.
End Config.
Abbreviation Config := Config.t.

(** One turn of the loop either goes on or returns. *)
Inductive Turn :=
| Next (c : Config)
| Return (r : ParseResult).

(** [stack.splice(-popCount)]: the start index [-0] is [0], so a count of
    zero removes every element. *)
Definition spliceLast (popCount : nat) (stack : list Value) : list Value :=
  if popCount =? 0 then [] else skipn popCount stack.

(** [parsingTable.actions[currentState]?.[currentToken]] *)
Definition lookupAction (parsingTable : ParsingTable) (currentState currentToken : Value)
  : Property Action :=
  match ParsingTable.actions parsingTable !! valueString currentState with
  | None => Undefined
  | Some row => getProperty row (valueString currentToken)
  end.

(** [parsingTable.gotos[newState]?.[production.lhs]].  A left-hand side is a
    nonterminal name; no property of [Object.prototype] starts with an
    upper-case letter, so only own properties are looked up. *)
Definition lookupGoto (parsingTable : ParsingTable) (newState : Value) (lhs : jsstring)
  : option nat :=
  match ParsingTable.gotos parsingTable !! valueString newState with
  | None => None
  | Some row => row !! lhs
  end.

(** The body of [while (true)]. *)
Definition turn (grammar : Grammar) (parsingTable : ParsingTable)
    (tokens : list jsstring) (c : Config) : Run Turn :=
  let currentState := hd VUndef (Config.stack c) in
  let currentToken :=
    match tokens !! Config.pointer c with
    | Some t => VStr t
    | None => VUndef
    end in
  match lookupAction parsingTable currentState currentToken with
  | Undefined =>
      Ret (Return (ParseResult.mk false
        (Config.steps c ++
           [js "Error: No action found for state " ++ valueString currentState
            ++ js " and token " ++ valueString currentToken])))
  | Inherited => Throw
  | Own Accept =>
      Ret (Return (ParseResult.mk true (Config.steps c ++ [js "String accepted!"])))
  | Own (Shift nextState) =>
      Ret (Next (Config.mk
        (VNum nextState :: currentToken :: Config.stack c)
        (Config.pointer c + 1)
        (Config.steps c ++
           [js "Shift: " ++ valueString currentToken ++ js " and go to state "
            ++ natToString nextState])))
  | Own (Reduce productionId) =>
      match Grammar.productions grammar !! productionId with
      | None => Throw
      | Some production =>
          let popCount := List.length (Production.rhs production) * 2 in
          if List.length (Config.stack c) <? popCount then
            Ret (Return (ParseResult.mk false
              (Config.steps c ++ [js "Error: Stack underflow during reduction"])))
          else
            let stack1 := spliceLast popCount (Config.stack c) in
            let newState := hd VUndef stack1 in
            match lookupGoto parsingTable newState (Production.lhs production) with
            | None =>
                Ret (Return (ParseResult.mk false
                  (Config.steps c ++
                     [js "Error: No goto state found for " ++ Production.lhs production
                      ++ js " in state " ++ valueString newState])))
            | Some gotoState =>
                Ret (Next (Config.mk
                  (VNum gotoState :: VStr (Production.lhs production) :: stack1)
                  (Config.pointer c)
                  (Config.steps c ++
                     [js "Reduce: " ++ Production.lhs production ++ js " -> "
                      ++ join (js " ") (Production.rhs production)
                      ++ js " and go to state " ++ natToString gotoState])))
            end
      end
  end.

Fixpoint parseLoop (fuel : nat) (grammar : Grammar) (parsingTable : ParsingTable)
    (tokens : list jsstring) (c : Config) : Run ParseResult :=
  match fuel with
  | 0 => OutOfFuel
  | S fuel' =>
      t <~ turn grammar parsingTable tokens c ;;
      match t with
      | Next c' => parseLoop fuel' grammar parsingTable tokens c'
      | Return r => Ret r
      end
  end.

Definition parseString (fuel : nat) (grammar : Grammar) (parsingTable : ParsingTable)
    (input : jsstring) : Run ParseResult :=
  parseLoop fuel grammar parsingTable (splitWs input ++ [dollar])
    (Config.mk [VNum 0] 0 []).

(** ** The grammar form ([src/unnamed/part_002], [GrammarInput]) *)

(** A row of the form: the two text fields. *)
Module Rule.
Record t := mk { lhs : jsstring; rhs : jsstring }.
End Rule.
Abbreviation Rule := Rule.t.

(** Parse existing grammar if any.  The empty string is falsy; a line that
    does not match the production pattern is skipped. *)
Definition parseExistingGrammar (grammar : jsstring) : list Rule :=
  match grammar with
  | [] => []
  | _ =>
      flat_map (fun line =>
          match matchProduction line with
          | Some (lhs, rhs) => [Rule.mk lhs (trim rhs)]
          | None => []
          end)
        (splitOn 10%N (trim grammar))
  end.

(** The text that [updateGrammar] gives to [setGrammar]. *)
Definition updateGrammar (currentRules : list Rule) : jsstring :=
  join nl
    (List.map (fun rule => Rule.lhs rule ++ js " -> " ++ Rule.rhs rule)
       (List.filter (fun rule => negb (streq (trim (Rule.lhs rule)) [])) currentRules)).

(** * Notions used in the statements *)

(** ** Well-formed grammars *)

(** What the scan of a right-hand side lets through. *)
Definition goodSymbol (s : jsstring) : Prop :=
  s = eps \/ isTerminalName s = true \/ isNonTerminalName s = true \/ s = [].

Definition goodRhs (rhs : list jsstring) : Prop :=
  rhs <> [[]] /\ Forall goodSymbol rhs.

Definition goodProduction (p : Production) : Prop :=
  isNonTerminalName (Production.lhs p) = true /\ goodRhs (Production.rhs p)
  /\ 1 <= Production.id p.

(** What both copies of the stored right-hand side satisfy. *)
Definition keepsOrEmpties (storeRhs : list jsstring -> list jsstring) : Prop :=
  forall rhs, storeRhs rhs = rhs \/ storeRhs rhs = [].

(** The grammars both copies of [parseGrammar] return. *)
Definition parsed (input : jsstring) (g : Grammar) : Prop :=
  Lib.parseGrammar input = inr g \/ Part1.parseGrammar input = inr g.

(** How a production of the copy of [src/lib/clr-parser.ts] and the
    production of [src/unnamed/part_001] for the same line are related. *)
Definition sameButEpsilon (p1 p2 : Production) : Prop :=
  Production.lhs p1 = Production.lhs p2
  /\ Production.id p1 = Production.id p2
  /\ (Production.rhs p1 = Production.rhs p2
      \/ (Production.rhs p1 = [eps] /\ Production.rhs p2 = [])).

(** The stack of the recognizer is empty or has a state number on top. *)
Definition stateOnTop (stack : list Value) : Prop :=
  match stack with
  | [] => True
  | VNum _ :: _ => True
  | _ => False
  end.

(** ** FIRST sets and the measure of the closure *)

(** A FIRST set holds terminals of the grammar and the epsilon marker. *)
Definition firstLike (grammar : Grammar) (l : list jsstring) : Prop :=
  forall x, In x l -> x = eps \/ In x (Grammar.terminals grammar).

(** The items the closure can add: a production of the grammar, the dot at
    the start, one terminal as lookahead. *)
Definition candidates (g : Grammar) : list Item :=
  flat_map (fun p => List.map (fun l => Item.mk p 0 [l]) (Grammar.terminals g))
    (Grammar.productions g).

(** [result.some((item) => itemsEqual(item, newItem))] *)
Definition covered (result : list Item) (newItem : Item) : bool :=
  existsb (fun item => itemsEqual item newItem) result.

(** How many candidates the closure would still add. *)
Definition missing (g : Grammar) (result : list Item) : nat :=
  List.length (List.filter (fun u => negb (covered result u)) (candidates g)).

(** What one step of the closure loops does to the state: new items are
    candidates, each new item lowers [missing], and the flag is raised only
    with a new item. *)
Definition grows (g : Grammar) (st st' : ClosureState) : Prop :=
  (forall it, In it (fst st') -> In it (fst st) \/ In it (candidates g))
  /\ List.length (fst st') + missing g (fst st') <= List.length (fst st) + missing g (fst st)
  /\ missing g (fst st') <= missing g (fst st)
  /\ (snd st' = true -> snd st = true \/ missing g (fst st') < missing g (fst st)).

(** The items of the closure state are starting items or candidates. *)
Definition known (g : Grammar) (items : list Item) (st : ClosureState) : Prop :=
  forall it, In it (fst st) -> In it (items ++ candidates g).

(** The FIRST computations a closure needs return within [firstFuel]: a
    test that can be run. *)
Definition firstReturnsb (g : Grammar) (firstFuel : nat) (l : list Item) : bool :=
  forallb (fun it =>
      match expansion g it with
      | Some (_, lookaheadSymbols) =>
          match computeFirst firstFuel g lookaheadSymbols with
          | Ret _ => true
          | _ => false
          end
      | None => true
      end) l.

(** ** Items, states and edges of the pipeline *)

(** An item of the pipeline: a production of the grammar, and exactly one
    lookahead, a terminal of the grammar. *)
Definition okItem (g : Grammar) (it : Item) : Prop :=
  In (Item.production it) (Grammar.productions g)
  /\ exists l, Item.lookahead it = [l] /\ In l (Grammar.terminals g).

Definition okItems (g : Grammar) (l : list Item) : Prop :=
  forall it, In it l -> okItem g it.

Definition okState (g : Grammar) (state : State) : Prop :=
  okItems g (State.items state) /\ okItems g (State.kernel state).

(** The states so far: their items are well formed and the state at index
    [i] has id [i]. *)
Definition okCollection (g : Grammar) (acc : Collection) : Prop :=
  (forall state, In state (fst acc) -> okState g state)
  /\ (forall i state, fst acc !! i = Some state -> State.id state = i).

(** Every edge leaves a state of the collection, on a symbol that follows
    a dot in that state. *)
Definition okEdges (states : list State) (edges : list Edge) : Prop :=
  forall edge, In edge edges ->
    exists state, In state states /\ Edge.source edge = State.id state
      /\ In (Edge.label edge) (symbolsAfterDot (State.items state)).

(** ** Cells of the table *)

(** [table[row]?.[key]], own properties only. *)
Definition cell {V} (table : gmap jsstring (gmap jsstring V)) (row key : jsstring)
  : option V :=
  match table !! row with
  | Some r => r !! key
  | None => None
  end.

(** The cells the first phase fills are labelled by edges. *)
Definition fromEdges (edges : list Edge) (t : Tables) : Prop :=
  forall row key a, cell (fst t) row key = Some a ->
    exists edge, In edge edges /\ Edge.label edge = key
      /\ a = Shift (Edge.target edge).

(** The test of the source for an accept: a complete item whose production
    has the start symbol on its left and whose lookaheads include [$]. *)
Definition acceptItem (g : Grammar) (item : Item) : bool :=
  (Item.dotPosition item =? List.length (Production.rhs (Item.production item)))
  && (streq (Production.lhs (Item.production item)) (Grammar.startSymbol g)
      && includes dollar (Item.lookahead item)).

(** A complete item that is not an accept and reduces on [$]. *)
Definition reduceOnDollar (g : Grammar) (item : Item) : bool :=
  (Item.dotPosition item =? List.length (Production.rhs (Item.production item)))
  && negb (streq (Production.lhs (Item.production item)) (Grammar.startSymbol g)
           && includes dollar (Item.lookahead item))
  && includes dollar (Item.lookahead item).

(** Where an accept can come from. *)
Definition acceptsFrom (g : Grammar) (states : list State)
    (actions : gmap jsstring (gmap jsstring Action)) : Prop :=
  forall row key, cell actions row key = Some Accept ->
    key = dollar
    /\ exists state item, In state states /\ row = natToString (State.id state)
         /\ In item (State.items state) /\ acceptItem g item = true.

(** A complete item of the augmented production with lookahead [$]. *)
Definition augmentedComplete (item : Item) : Prop :=
  Production.id (Item.production item) = 0
  /\ Item.dotPosition item = List.length (Production.rhs (Item.production item))
  /\ Item.lookahead item = [dollar].

(** ** Example grammars *)

(** The grammar a text is parsed to, for the examples. *)
Definition grammarOf (r : GrammarError + Grammar) : Grammar :=
  match r with
  | inr g => g
  | inl _ => Grammar.mk [] [] [] []
  end.

(** The states of a grammar, when [generateClrItems] returns them. *)
Definition statesOf (fuel : nat) (g : Grammar) : list State :=
  match generateClrItems fuel g with
  | Ret states => states
  | _ => []
  end.

(** The value of a run that returned, or a default. *)
Definition retOr {A} (d : A) (r : Run A) : A :=
  match r with
  | Ret a => a
  | _ => d
  end.

(** The item of production number [p] of [g] with the dot at the start;
    [startItem g 0 dollar] is the initial item of [generateClrItems]. *)
Definition startItem (g : Grammar) (p : nat) (lookahead : jsstring) : Item :=
  Item.mk (nth p (Grammar.productions g) (Production.mk [] [] 0)) 0 [lookahead].

(** The grammar of the text [S -> A A / A -> a A / A -> b]. *)
Definition sampleGrammar : Grammar :=
  grammarOf (Part1.parseGrammar (js "S -> A A" ++ nl ++ js "A -> a A" ++ nl ++ js "A -> b")).

(** Its states, automaton and table. *)
Definition sampleStates : list State := statesOf 50 sampleGrammar.
Definition sampleDfa : Dfa :=
  retOr (Dfa.mk [] []) (generateDfa 50 sampleStates sampleGrammar).
Definition sampleTable : ParsingTable :=
  retOr (ParsingTable.mk ∅ ∅ [] [] [])
    (generateParsingTable sampleStates sampleDfa sampleGrammar).

(** The grammar of the text [S -> S S / S -> a]. *)
Definition leftRecursive : Grammar :=
  Eval vm_compute in grammarOf (Lib.parseGrammar (js "S -> S S" ++ nl ++ js "S -> a")).

(** The text [S -> S / S -> a], its grammar, states, automaton and table. *)
Definition cyclicText : jsstring := js "S -> S" ++ nl ++ js "S -> a".
Definition cyclicGrammar : Grammar := grammarOf (Lib.parseGrammar cyclicText).
Definition cyclicStates : list State := statesOf 50 cyclicGrammar.
Definition cyclicDfa : Dfa :=
  retOr (Dfa.mk [] []) (generateDfa 50 cyclicStates cyclicGrammar).
Definition cyclicTable : ParsingTable :=
  retOr (ParsingTable.mk ∅ ∅ [] [] [])
    (generateParsingTable cyclicStates cyclicDfa cyclicGrammar).

(** The text [S -> i S e S / S -> i S / S -> a] (the dangling else), its
    grammar, states, automaton and tables. *)
Definition danglingText : jsstring :=
  js "S -> i S e S" ++ nl ++ js "S -> i S" ++ nl ++ js "S -> a".
Definition danglingGrammar : Grammar := grammarOf (Part1.parseGrammar danglingText).
Definition danglingStates : list State := statesOf 100 danglingGrammar.
Definition danglingDfa : Dfa :=
  retOr (Dfa.mk [] []) (generateDfa 100 danglingStates danglingGrammar).
Definition danglingShifts : Tables :=
  retOr (∅, ∅) (shiftPhase danglingStates danglingDfa danglingGrammar).
Definition danglingTable : ParsingTable :=
  retOr (ParsingTable.mk ∅ ∅ [] [] [])
    (generateParsingTable danglingStates danglingDfa danglingGrammar).

(** * Notions used in the further properties *)

(** ** parseGrammar *)

(** What the loop over the lines keeps: [i] productions so far, numbered
    from 1; terminal names and nonterminal names without duplicates; every
    left-hand side and every symbol of a right-hand side accounted for. *)
Definition linesInvariant (i : nat) (ps : list Production) (ts nts : list jsstring) : Prop :=
  List.length ps = i
  /\ (forall k p, ps !! k = Some p -> Production.id p = k + 1)
  /\ (forall t, In t ts -> isTerminalName t = true) /\ NoDup ts
  /\ (forall n, In n nts -> isNonTerminalName n = true) /\ NoDup nts
  /\ (forall p, In p ps ->
        In (Production.lhs p) nts
        /\ forall s, In s (Production.rhs p) ->
             s <> [] /\ (s = eps \/ In s ts \/ In s nts)).

(** ** Closure *)

(** Each item of [extra], added in turn after [result], was not yet there
    for [itemsEqual]. *)
Fixpoint addedFresh (result extra : list Item) : Prop :=
  match extra with
  | [] => True
  | x :: extra' => covered result x = false /\ addedFresh (result ++ [x]) extra'
  end.

(** What the loops of the closure do to their state: items are appended,
    each one new and a candidate; the flag is never lowered, and it stays
    down only if nothing was appended. *)
Definition extendsBy (g : Grammar) (st st' : ClosureState) : Prop :=
  (exists extra, fst st' = fst st ++ extra /\ addedFresh (fst st) extra
                 /\ forall it, In it extra -> In it (candidates g))
  /\ (snd st = true -> snd st' = true)
  /\ (snd st' = false -> st' = st).

(** [item] needs nothing more in [result]: if its dot is before a
    non-terminal, the items of every production of that non-terminal, with
    every lookahead of the FIRST set, are there. *)
Definition expanded (g : Grammar) (result : list Item) (item : Item) : Prop :=
  forall symbolAfterDot lookaheadSymbols,
    expansion g item = Some (symbolAfterDot, lookaheadSymbols) ->
    exists fuel firstSet,
      computeFirst fuel g lookaheadSymbols = Ret firstSet
      /\ forall production lookahead,
           In production (Grammar.productions g) ->
           Production.lhs production = symbolAfterDot ->
           In lookahead (setDelete eps firstSet) ->
           covered result (Item.mk production 0 [lookahead]) = true.

(** [symbol] follows the dot of [item]. *)
Definition dotBefore (symbol : jsstring) (item : Item) : Prop :=
  Item.dotPosition item < List.length (Production.rhs (Item.production item))
  /\ nth (Item.dotPosition item) (Production.rhs (Item.production item)) [] = symbol.

(** ** The canonical collection *)

(** What the exploration keeps: the state at index [i] has id [i], holds an
    item, and its signature is registered under [i]. *)
Definition registered (acc : Collection) : Prop :=
  forall i state, fst acc !! i = Some state ->
    State.id state = i
    /\ State.items state <> []
    /\ snd acc !! getStateSignature (State.items state) = Some i.

(** ** The automaton *)

(** Where an edge comes from: two states of the array, a symbol after a dot
    of the first, and the GOTO set on that symbol, which is not empty and
    passes the test of the second. *)
Definition edgeJustified (fuel : nat) (g : Grammar) (states : list State) (edge : Edge)
  : Prop :=
  exists source target gotoItems,
    In source states /\ In target states
    /\ Edge.source edge = State.id source /\ Edge.target edge = State.id target
    /\ In (Edge.label edge) (symbolsAfterDot (State.items source))
    /\ goto fuel g (State.items source) (Edge.label edge) = Ret gotoItems
    /\ gotoItems <> []
    /\ sameItems gotoItems target = true.

(** The source and the label of an edge. *)
Definition edgeKey (edge : Edge) : nat * jsstring :=
  (Edge.source edge, Edge.label edge).

(** ** The parsing table *)

(** Where a cell of the action table comes from: a shift from an edge on a
    terminal, a reduce from a complete item that is not an accept, with the
    key among its lookaheads, an accept from a complete item of the start
    symbol with [$] among its lookaheads. *)
Definition actionJustified (g : Grammar) (states : list State) (dfa : Dfa)
    (row key : jsstring) (a : Action) : Prop :=
  match a with
  | Shift target =>
      exists edge, In edge (Dfa.edges dfa)
        /\ row = natToString (Edge.source edge) /\ key = Edge.label edge
        /\ target = Edge.target edge
        /\ includes (Edge.label edge) (Grammar.terminals g) = true
  | Reduce productionId =>
      exists state item, In state states /\ row = natToString (State.id state)
        /\ In item (State.items state)
        /\ Item.dotPosition item = List.length (Production.rhs (Item.production item))
        /\ acceptItem g item = false
        /\ productionId = Production.id (Item.production item)
        /\ In key (Item.lookahead item)
  | Accept =>
      key = dollar
      /\ exists state item, In state states /\ row = natToString (State.id state)
           /\ In item (State.items state) /\ acceptItem g item = true
  end.

(** Where a cell of the goto table comes from: an edge on a symbol that is
    a nonterminal and not a terminal. *)
Definition gotoJustified (g : Grammar) (dfa : Dfa) (row key : jsstring) (target : nat)
  : Prop :=
  exists edge, In edge (Dfa.edges dfa)
    /\ row = natToString (Edge.source edge) /\ key = Edge.label edge
    /\ target = Edge.target edge
    /\ includes (Edge.label edge) (Grammar.terminals g) = false
    /\ includes (Edge.label edge) (Grammar.nonTerminals g) = true.

(** Every cell of the two tables is justified. *)
Definition tablesJustified (g : Grammar) (states : list State) (dfa : Dfa) (t : Tables)
  : Prop :=
  (forall row key a, cell (fst t) row key = Some a -> actionJustified g states dfa row key a)
  /\ (forall row key k, cell (snd t) row key = Some k -> gotoJustified g dfa row key k).

(** Both tables have a row for every state. *)
Definition rowsFor (states : list State) (t : Tables) : Prop :=
  forall state, In state states ->
    is_Some (fst t !! natToString (State.id state))
    /\ is_Some (snd t !! natToString (State.id state)).


(** ** Reduces on inherited property names *)

(** The reduce phase leaves the rows of [t0] in place and does not touch a
    cell whose key names a property of [Object.prototype]. *)
Definition keepsInherited (t0 acts : gmap jsstring (gmap jsstring Action)) : Prop :=
  (forall row, is_Some (t0 !! row) -> is_Some (acts !! row))
  /\ forall row key, includes key objectPrototypeKeys = true ->
       cell acts row key = cell t0 row key.

(** A lookahead on which the test before a reduce calls [startsWith] on an
    inherited value: the name of a property of [Object.prototype] for which
    the row has no cell after the shift phase. *)
Definition badLookahead (t0 : gmap jsstring (gmap jsstring Action))
    (row lookahead : jsstring) : Prop :=
  includes lookahead objectPrototypeKeys = true /\ cell t0 row lookahead = None.

Definition badItem (g : Grammar) (t0 : gmap jsstring (gmap jsstring Action))
    (row : jsstring) (item : Item) : Prop :=
  Item.dotPosition item = List.length (Production.rhs (Item.production item))
  /\ acceptItem g item = false
  /\ exists lookahead, In lookahead (Item.lookahead item) /\ badLookahead t0 row lookahead.

Definition badState (g : Grammar) (t0 : gmap jsstring (gmap jsstring Action))
    (state : State) : Prop :=
  exists item, In item (State.items state)
    /\ badItem g t0 (natToString (State.id state)) item.

(** Every edge of [done] on a terminal has left a shift in its cell. *)
Definition shiftsFor (g : Grammar) (done : list Edge) (t : Tables) : Prop :=
  forall edge, In edge done ->
    includes (Edge.label edge) (Grammar.terminals g) = true ->
    exists k, cell (fst t) (natToString (Edge.source edge)) (Edge.label edge)
              = Some (Shift k).

(** The same condition on the states and the automaton: a complete item
    that is not an accept, with a lookahead that names a property of
    [Object.prototype] and on which its state has no edge. *)
Definition reduceOnInherited (g : Grammar) (states : list State) (dfa : Dfa) : Prop :=
  exists state item lookahead,
    In state states /\ In item (State.items state)
    /\ Item.dotPosition item = List.length (Production.rhs (Item.production item))
    /\ acceptItem g item = false
    /\ In lookahead (Item.lookahead item)
    /\ includes lookahead objectPrototypeKeys = true
    /\ ~ (exists edge, In edge (Dfa.edges dfa)
            /\ Edge.source edge = State.id state /\ Edge.label edge = lookahead
            /\ includes lookahead (Grammar.terminals g) = true).



(** ** The language of a grammar *)

(** [derives g form word]: the sentential form [form] derives the word
    [word]; a terminal stands for itself and the left-hand side of a
    production for what the right-hand side derives. *)
Inductive derives (g : Grammar) : list jsstring -> list jsstring -> Prop :=
| derives_nil : derives g [] []
| derives_terminal terminal form word :
    In terminal (Grammar.terminals g) ->
    derives g form word -> derives g (terminal :: form) (terminal :: word)
| derives_production production form word1 word2 :
    In production (Grammar.productions g) ->
    derives g (Production.rhs production) word1 ->
    derives g form word2 ->
    derives g (Production.lhs production :: form) (word1 ++ word2).

(** What [itemsEqual] compares. *)
Definition itemKey (item : Item) : jsstring * jsstring * nat * list jsstring :=
  (Production.lhs (Item.production item),
   join (js " ") (Production.rhs (Item.production item)),
   Item.dotPosition item, Item.lookahead item).

(** The items of a state: well formed and pairwise different for
    [itemsEqual]. *)
Definition distinctItems (g : Grammar) (items : list Item) : Prop :=
  okItems g items /\ NoDup (List.map itemKey items).

(** [symbol] occurs in a right-hand side of the grammar. *)
Definition rhsSymbol (g : Grammar) (symbol : jsstring) : Prop :=
  exists production, In production (Grammar.productions g)
    /\ In symbol (Production.rhs production).

(** The items of [result] are those of [items] or have the dot at the start
    and a left-hand side that occurs in a right-hand side. *)
Definition addedForRhs (g : Grammar) (items result : list Item) : Prop :=
  forall item, In item result ->
    In (Item.production item) (Grammar.productions g)
    /\ (In item items
        \/ (Item.dotPosition item = 0
            /\ rhsSymbol g (Production.lhs (Item.production item)))).

(** [item] fits a state reached from state 0 along [path]: what is before
    its dot ends the path, and is the whole path when the item is of the
    start symbol. *)
Definition viable (g : Grammar) (path : list jsstring) (item : Item) : Prop :=
  let rhs := Production.rhs (Item.production item) in
  Item.dotPosition item <= List.length rhs
  /\ (exists before, path = before ++ firstn (Item.dotPosition item) rhs)
  /\ (Production.lhs (Item.production item) = Grammar.startSymbol g ->
      path = firstn (Item.dotPosition item) rhs).

(** The grammar without its productions whose right-hand side is the empty
    array. *)
Definition nonEmptyPart (g : Grammar) : Grammar :=
  Grammar.mk
    (List.filter (fun production => negb (List.length (Production.rhs production) =? 0))
       (Grammar.productions g))
    (Grammar.terminals g) (Grammar.nonTerminals g) (Grammar.startSymbol g).

(** The stack of [parseString] follows a path of the automaton from state
    0: [path] is the symbols on it, from the bottom, and [word] what they
    derive, in order, with productions whose right-hand side is not
    empty. *)
Inductive onPath (g : Grammar) (dfa : Dfa)
  : list Value -> list jsstring -> list jsstring -> Prop :=
| onPath_start : onPath g dfa [VNum 0] [] []
| onPath_push stack path word edge derived :
    onPath g dfa stack path word ->
    hd VUndef stack = VNum (Edge.source edge) ->
    In edge (Dfa.edges dfa) ->
    derives (nonEmptyPart g) [Edge.label edge] derived ->
    onPath g dfa (VNum (Edge.target edge) :: VStr (Edge.label edge) :: stack)
      (path ++ [Edge.label edge]) (word ++ derived).

(** What the loop of [parseString] keeps on the tables of the pipeline:
    the stack follows a path whose symbols derive the tokens read so far,
    none of which is the end marker. *)
Definition onTrack (g : Grammar) (dfa : Dfa) (text : jsstring) (c : Config) : Prop :=
  Config.pointer c <= List.length (splitWs text)
  /\ exists path,
       onPath g dfa (Config.stack c) path (firstn (Config.pointer c) (splitWs text))
       /\ ~ In dollar (firstn (Config.pointer c) (splitWs text)).


(** ** The trace of the recognizer *)

(** [s.startsWith(prefix)] *)
Fixpoint startsWith (prefix s : jsstring) : bool :=
  match prefix, s with
  | [], _ => true
  | x :: prefix', y :: s' => N.eqb x y && startsWith prefix' s'
  | _ :: _, [] => false
  end.

(** A step of the trace that reports a shift or a reduce. *)
Definition isProgressStep (step : jsstring) : bool :=
  startsWith (js "Shift: ") step || startsWith (js "Reduce: ") step.

(** The last step of a trace, for each verdict. *)
Definition isVerdictStep (isValid : bool) (step : jsstring) : Prop :=
  if isValid then step = js "String accepted!"
  else startsWith (js "Error: ") step = true.


(** The cell of an edge in the two tables: a shift to the target of an
    edge on a terminal, the target of an edge on a nonterminal. *)
Definition edgeWritten (g : Grammar) (t : Tables) (edge : Edge) : Prop :=
  (includes (Edge.label edge) (Grammar.terminals g) = true ->
   cell (fst t) (natToString (Edge.source edge)) (Edge.label edge)
   = Some (Shift (Edge.target edge)))
  /\ (includes (Edge.label edge) (Grammar.terminals g) = false ->
      includes (Edge.label edge) (Grammar.nonTerminals g) = true ->
      cell (snd t) (natToString (Edge.source edge)) (Edge.label edge)
      = Some (Edge.target edge)).


(** ** The grammar form *)

(** A row of the form and a production say the same: the same left-hand
    side, and the right-hand side of the production is the split of the
    row's, or the empty array where the split is the epsilon marker
    alone. *)
Definition sameRule (rule : Rule) (production : Production) : Prop :=
  Production.lhs production = Rule.lhs rule
  /\ (Production.rhs production = splitRhs (Rule.rhs rule)
      \/ (Production.rhs production = [] /\ splitRhs (Rule.rhs rule) = [eps])).

(** What a copy of the stored right-hand side does. *)
Definition keepsOrEmptiesEps (storeRhs : list jsstring -> list jsstring) : Prop :=
  forall rhs, storeRhs rhs = rhs \/ (storeRhs rhs = [] /\ rhs = [eps]).

(** A row that the form reads back as it is: a nonterminal name on the
    left; on the right a non-empty text on one line, with no white space
    at either end. *)
Definition formRule (rule : Rule) : Prop :=
  isNonTerminalName (Rule.lhs rule) = true
  /\ Rule.rhs rule <> []
  /\ isWhiteSpace (hd 32%N (Rule.rhs rule)) = false
  /\ isWhiteSpace (List.last (Rule.rhs rule) 32%N) = false
  /\ forallb (fun c => negb (isLineTerminator c)) (Rule.rhs rule) = true.


(** ** The content of the action table *)





(** ** The texts that parseGrammar lets through *)

(** A line that passes: it matches the production pattern, and every
    symbol of its right-hand side passes the scan. *)
Definition goodLine (line : jsstring) : Prop :=
  exists lhs rhsStr,
    matchProduction line = Some (lhs, rhsStr) /\ Forall goodSymbol (splitRhs rhsStr).


(** ** The canonical collection is closed under GOTO *)

(** The signatures of the map are those of the states they number. *)
Definition mapped (acc : Collection) : Prop :=
  forall signature k, snd acc !! signature = Some k ->
    exists target, fst acc !! k = Some target
      /\ getStateSignature (State.items target) = signature.

(** The GOTO set of [state] on [symbol] returns, is not empty, and has
    the signature of a state of [states]. *)
Definition gotoRegistered (g : Grammar) (states : list State) (state : State)
    (symbol : jsstring) : Prop :=
  exists fuel gotoItems,
    goto fuel g (State.items state) symbol = Ret gotoItems
    /\ gotoItems <> []
    /\ exists target, In target states
         /\ getStateSignature (State.items target) = getStateSignature gotoItems.


(** ** Signatures and item equality *)

(** The text of one item in a signature. *)
Definition itemString (item : Item) : jsstring :=
  Production.lhs (Item.production item) ++ js "->"
  ++ join (js " ") (withDot item) ++ js ","
  ++ join (js "/") (Item.lookahead item).

(** The dot of every item is within its right-hand side. *)
Definition dotsInRange (items : list Item) : Prop :=
  forall item, In item items ->
    Item.dotPosition item <= List.length (Production.rhs (Item.production item)).


(** ** Every state is reached *)

(** The state at index [j] of [states] is the GOTO of a state at a smaller
    index, on a symbol after a dot of that state, with the advanced items
    as its kernel. *)
Definition originated (g : Grammar) (states : list State) (j : nat) (state : State) : Prop :=
  exists i source symbol fuel,
    i < j /\ states !! i = Some source
    /\ In symbol (symbolsAfterDot (State.items source))
    /\ goto fuel g (State.items source) symbol = Ret (State.items state)
    /\ State.kernel state = kernelOf source symbol (State.items state).

(** * Properties *)

(** ** Strings *)

Lemma streq_eq (a b : jsstring) : streq a b = true <-> a = b.
Proof.
  revert b. induction a as [|x a IH]; intros [|y b]; simpl; split;
    try congruence; try reflexivity.
  - intros H. apply andb_prop in H as [Hx Hs].
    apply N.eqb_eq in Hx. apply IH in Hs. congruence.
  - intros H. injection H as -> ->. rewrite N.eqb_refl. simpl. now apply IH.
Qed.

Lemma streq_refl (a : jsstring) : streq a a = true.
Proof. now apply streq_eq. Qed.

Lemma streq_neq (a b : jsstring) : streq a b = false <-> a <> b.
Proof.
  split.
  - intros H E. apply streq_eq in E. congruence.
  - intros H. destruct (streq a b) eqn:E; [|reflexivity].
    apply streq_eq in E. contradiction.
Qed.

Lemma includes_In (x : jsstring) (l : list jsstring) : includes x l = true <-> In x l.
Proof.
  unfold includes. rewrite existsb_exists. split.
  - intros [y [Hy E]]. apply streq_eq in E. now subst.
  - intros H. exists x. split; [assumption | apply streq_refl].
Qed.

Lemma splitOn_nonempty (sep : N) (s : jsstring) : splitOn sep s <> [].
Proof.
  destruct s as [|c s]; simpl; [discriminate|].
  destruct (N.eqb c sep); [discriminate|].
  destruct (splitOn sep s); discriminate.
Qed.

Lemma splitWsAux_nonempty (b : bool) (s : jsstring) : splitWsAux b s <> [].
Proof.
  revert b. induction s as [|c s IH]; intros b; simpl; [discriminate|].
  destruct (isWhiteSpace c).
  - destruct b; [apply IH | discriminate].
  - destruct (splitWsAux false s); discriminate.
Qed.

Lemma isAlnum_not_space (c : N) : isAlnum c = true -> c <> 32%N /\ c <> 39%N /\ c <> 36%N.
Proof.
  unfold isAlnum, isUpper, isLower, isDigit. intros H.
  repeat split; intros ->; vm_compute in H; discriminate.
Qed.

Lemma forallb_alnum_notin (s : jsstring) (c : N) :
  forallb isAlnum s = true -> isAlnum c = false -> ~ In c s.
Proof.
  intros H Hc Hin. rewrite forallb_forall in H. apply H in Hin. congruence.
Qed.

Lemma terminalName_alnum (s : jsstring) : isTerminalName s = true -> forallb isAlnum s = true.
Proof.
  destruct s as [|c s]; [discriminate|]. unfold isTerminalName.
  rewrite !forallb_forall. intros H x Hx. apply H in Hx. unfold isAlnum.
  apply orb_prop in Hx as [-> | ->]; [now rewrite orb_true_r | apply orb_true_r].
Qed.

Lemma nonTerminalName_alnum (s : jsstring) :
  isNonTerminalName s = true -> forallb isAlnum s = true.
Proof.
  destruct s as [|c s]; [discriminate|]. simpl. intros H.
  apply andb_prop in H as [Hc Hs]. unfold isAlnum at 1. now rewrite Hc, Hs.
Qed.

(** ** parseGrammar *)

Section ParseGrammarFacts.
Variable storeRhs : list jsstring -> list jsstring.

Lemma classifySymbols_error rhs ts nts e :
  classifySymbols rhs ts nts = inl e -> exists symbol, e = InvalidSymbol symbol.
Proof.
  revert ts nts. induction rhs as [|symbol rest IH]; intros ts nts; simpl.
  - discriminate.
  - destruct (streq symbol eps); [apply IH|].
    destruct (isTerminalName symbol); [apply IH|].
    destruct (isNonTerminalName symbol); [apply IH|].
    destruct (negb (streq symbol [])); [|apply IH].
    intros H. injection H as <-. now exists symbol.
Qed.

Lemma parseLines_error lines i ps ts nts e :
  parseLines storeRhs lines i ps ts nts = inl e -> e <> EmptyGrammar.
Proof.
  revert i ps ts nts. induction lines as [|line rest IH]; intros i ps ts nts; simpl.
  - discriminate.
  - destruct (matchProduction line) as [[lhs rhsStr]|].
    + destruct (classifySymbols _ _ _) as [e'|[ts2 nts2]] eqn:Hc.
      * intros H. injection H as <-.
        apply classifySymbols_error in Hc as [symbol ->]. discriminate.
      * apply IH.
    + intros H. injection H as <-. discriminate.
Qed.

(** No input makes either copy throw "Grammar cannot be empty": the array
    returned by [split] always has an element. *)
Lemma parseGrammar_never_EmptyGrammar (input : jsstring) :
  parseGrammarWith storeRhs input <> inl EmptyGrammar.
Proof.
  unfold parseGrammarWith.
  destruct (splitOn 10%N (trim input)) as [|l ls] eqn:Hs.
  - now apply splitOn_nonempty in Hs.
  - simpl List.length. simpl Nat.eqb.
    destruct (parseLines storeRhs (l :: ls) 0 [] [] []) as [e|[[ps ts] nts]] eqn:Hp.
    + apply parseLines_error in Hp. congruence.
    + destruct ps; discriminate.
Qed.

End ParseGrammarFacts.

(** C7: no text makes either copy of [parseGrammar] throw "Grammar cannot be
    empty"; on the empty text, and on a text of white space only, both
    copies throw "Invalid production format: " (the failure of a malformed
    line). *)
Theorem parseGrammar_empty_text_is_a_format_error :
  (forall input, Lib.parseGrammar input <> inl EmptyGrammar
                 /\ Part1.parseGrammar input <> inl EmptyGrammar)
  /\ Lib.parseGrammar [] = inl (InvalidProductionFormat [])
  /\ Part1.parseGrammar [] = inl (InvalidProductionFormat [])
  /\ Lib.parseGrammar (js "  " ++ nl ++ js " ") = inl (InvalidProductionFormat [])
  /\ Part1.parseGrammar (js "  " ++ nl ++ js " ") = inl (InvalidProductionFormat [])
  /\ errorMessage (InvalidProductionFormat []) <> errorMessage EmptyGrammar.
Proof.
  split.
  - intros input. split; apply parseGrammar_never_EmptyGrammar.
  - repeat split; vm_compute; try reflexivity; discriminate.
Qed.

(** *** A line that ends with the arrow *)

Lemma dropWhile_app (p : N -> bool) (a b : jsstring) :
  forallb p a = true -> dropWhile p (a ++ b) = dropWhile p b.
Proof.
  induction a as [|c a IH]; simpl; [reflexivity|].
  intros H. apply andb_prop in H as [-> H]. now apply IH.
Qed.

Lemma takeWhile_app (p : N -> bool) (a b : jsstring) :
  forallb p a = true -> takeWhile p (a ++ b) = a ++ takeWhile p b.
Proof.
  induction a as [|c a IH]; simpl; [reflexivity|].
  intros H. apply andb_prop in H as [-> H]. now rewrite IH.
Qed.

Lemma splitOn_no_separator (sep : N) (s : jsstring) : ~ In sep s -> splitOn sep s = [s].
Proof.
  induction s as [|c s IH]; simpl; [reflexivity|].
  intros H. destruct (N.eqb c sep) eqn:E.
  - apply N.eqb_eq in E. tauto.
  - rewrite IH by tauto. reflexivity.
Qed.

Lemma isUpper_not_space (c : N) : isUpper c = true -> isWhiteSpace c = false.
Proof.
  unfold isUpper, isWhiteSpace. intros H. apply andb_prop in H as [H1 H2].
  apply N.leb_le in H1, H2.
  repeat (apply orb_false_intro); try (apply N.eqb_neq; lia);
    apply andb_false_iff; (left; apply N.leb_gt; lia) || (right; apply N.leb_gt; lia).
Qed.

Lemma dropWhile_stop (p : N -> bool) (c : N) (s : jsstring) :
  p c = false -> dropWhile p (c :: s) = c :: s.
Proof. intros H. simpl. now rewrite H. Qed.

Lemma bare_arrow_trim (name : jsstring) :
  isNonTerminalName name = true -> trim (name ++ js " ->") = name ++ js " ->".
Proof.
  destruct name as [|c name]; [discriminate|]. simpl isNonTerminalName. intros H.
  apply andb_prop in H as [Hc _]. unfold trim.
  change ((c :: name) ++ js " ->") with (c :: name ++ js " ->").
  rewrite (dropWhile_stop isWhiteSpace c _ (isUpper_not_space c Hc)).
  assert (E : c :: name ++ js " ->" = (c :: name ++ [32%N; 45%N]) ++ [62%N]).
  { simpl. now rewrite <- app_assoc. }
  rewrite E, rev_unit.
  rewrite (dropWhile_stop isWhiteSpace 62%N _ eq_refl).
  now rewrite <- rev_unit, rev_involutive.
Qed.

Lemma bare_arrow_no_match (name : jsstring) :
  isNonTerminalName name = true -> matchProduction (name ++ js " ->") = None.
Proof.
  destruct name as [|c name]; [discriminate|]. simpl isNonTerminalName. intros H.
  apply andb_prop in H as [Hc Hn]. unfold matchProduction.
  change ((c :: name) ++ js " ->") with (c :: name ++ js " ->").
  simpl dropWhile. rewrite (isUpper_not_space c Hc), Hc.
  rewrite (dropWhile_app isAlnum name (js " ->") Hn). reflexivity.
Qed.

Section BareArrow.
Variable storeRhs : list jsstring -> list jsstring.

Lemma bare_arrow_rejected (name : jsstring) :
  isNonTerminalName name = true ->
  parseGrammarWith storeRhs (name ++ js " ->")
  = inl (InvalidProductionFormat (name ++ js " ->")).
Proof.
  intros H. unfold parseGrammarWith. rewrite (bare_arrow_trim name H).
  rewrite splitOn_no_separator.
  - simpl. now rewrite (bare_arrow_no_match name H).
  - intros Hin. apply in_app_or in Hin as [Hin | Hin].
    + apply nonTerminalName_alnum in H.
      now apply (forallb_alnum_notin name 10%N H).
    + vm_compute in Hin. intuition discriminate.
Qed.

End BareArrow.

(** C8: a line made of a nonterminal name and the arrow, with nothing
    after it, is rejected by both copies with "Invalid production
    format". *)
Theorem parseGrammar_bare_arrow_is_rejected (name : jsstring) :
  isNonTerminalName name = true ->
  Lib.parseGrammar (name ++ js " ->") = inl (InvalidProductionFormat (name ++ js " ->"))
  /\ Part1.parseGrammar (name ++ js " ->")
     = inl (InvalidProductionFormat (name ++ js " ->")).
Proof. intros H. split; now apply bare_arrow_rejected. Qed.

Lemma parseGrammar_bare_arrow_is_rejected_witness :
  Lib.parseGrammar (js "S ->") = inl (InvalidProductionFormat (js "S ->"))
  /\ Part1.parseGrammar (js "S ->") = inl (InvalidProductionFormat (js "S ->")).
Proof. apply (parseGrammar_bare_arrow_is_rejected (js "S")). reflexivity. Defined.

(** The arrow with no space before it, and the line the form of the page
    writes for an empty right-hand side (the text is trimmed). *)
Lemma parseGrammar_bare_arrow_variants :
  Part1.parseGrammar (js "S->") = inl (InvalidProductionFormat (js "S->"))
  /\ Part1.parseGrammar (js "S -> ") = inl (InvalidProductionFormat (js "S ->")).
Proof. split; vm_compute; reflexivity. Qed.

(** The empty right-hand side is accepted when white space follows the
    arrow, which happens on every line but the last of a text (the text is
    trimmed as a whole): group 2 needs one code unit. *)
Lemma parseGrammar_arrow_then_space_is_accepted :
  exists g, Part1.parseGrammar (js "S -> " ++ nl ++ js "S -> a") = inr g
    /\ List.map Production.rhs (Grammar.productions g) = [[js "S"]; []; [js "a"]].
Proof. eexists. split; vm_compute; reflexivity. Qed.

(** C3: on the line [S -> ε] the copy of [src/lib/clr-parser.ts] stores the
    right-hand side [["ε"]], of length 1; the copy of [src/unnamed/part_001]
    stores the empty sequence. *)
Theorem Lib_parseGrammar_keeps_the_epsilon_marker :
  exists g, Lib.parseGrammar (js "S -> " ++ eps) = inr g
    /\ List.map Production.rhs (Grammar.productions g) = [[js "S"]; [eps]].
Proof. eexists. split; vm_compute; reflexivity. Qed.

Lemma Part1_parseGrammar_stores_the_empty_rhs :
  exists g, Part1.parseGrammar (js "S -> " ++ eps) = inr g
    /\ List.map Production.rhs (Grammar.productions g) = [[js "S"]; []].
Proof. eexists. split; vm_compute; reflexivity. Qed.

(** No production returned by the copy of [src/lib/clr-parser.ts] has an
    empty right-hand side. *)
Lemma Lib_storeRhs_id (rhs : list jsstring) : Lib.storeRhs rhs = rhs.
Proof. reflexivity. Qed.

Lemma splitRhs_nonempty (rhsStr : jsstring) : splitRhs rhsStr <> [].
Proof.
  unfold splitRhs. destruct (_ || _); [discriminate | apply splitWsAux_nonempty].
Qed.

Lemma Lib_parseLines_rhs_nonempty lines i ps ts nts ps' ts' nts' :
  parseLines Lib.storeRhs lines i ps ts nts = inr (ps', ts', nts') ->
  (forall p, In p ps -> Production.rhs p <> []) ->
  forall p, In p ps' -> Production.rhs p <> [].
Proof.
  revert i ps ts nts. induction lines as [|line rest IH]; intros i ps ts nts; simpl.
  - intros H. now injection H as <- _ _.
  - destruct (matchProduction line) as [[lhs rhsStr]|]; [|discriminate].
    destruct (classifySymbols _ _ _) as [e|[ts2 nts2]]; [discriminate|].
    intros H Hps. eapply IH; [exact H|].
    intros p Hp. apply in_app_or in Hp as [Hp | [<- | []]]; [now apply Hps|].
    simpl. apply splitRhs_nonempty.
Qed.

Lemma Lib_parseGrammar_rhs_never_empty (input : jsstring) (g : Grammar) (p : Production) :
  Lib.parseGrammar input = inr g -> In p (Grammar.productions g) ->
  Production.rhs p <> [].
Proof.
  unfold Lib.parseGrammar, parseGrammarWith.
  destruct (List.length (splitOn 10%N (trim input)) =? 0); [discriminate|].
  destruct (parseLines Lib.storeRhs _ 0 [] [] []) as [e|[[ps ts] nts]] eqn:Hp;
    [discriminate|].
  destruct ps as [|first ps]; [discriminate|].
  intros H. injection H as <-. simpl. intros [<- | Hin]; [discriminate|].
  eapply Lib_parseLines_rhs_nonempty; [exact Hp | intros q [] | exact Hin].
Qed.

(** C4: the two copies of [parseGrammar] return different grammars on the
    text [S -> ε]. *)
Theorem parseGrammar_copies_differ :
  Lib.parseGrammar (js "S -> " ++ eps) <> Part1.parseGrammar (js "S -> " ++ eps).
Proof. vm_compute. discriminate. Qed.

(** That expression is the only difference: the two copies fail together,
    with the same error, or return grammars with the same symbols and
    productions that differ only where the first has [["ε"]] and the second
    the empty right-hand side. *)
Lemma storeRhs_copies (rhs : list jsstring) :
  Part1.storeRhs rhs = Lib.storeRhs rhs \/ (Lib.storeRhs rhs = [eps] /\ Part1.storeRhs rhs = []).
Proof.
  unfold Part1.storeRhs, Lib.storeRhs. simpl.
  destruct rhs as [|x [|y rhs]]; simpl; try (now left).
  destruct (streq x eps) eqn:E; [|now left].
  apply streq_eq in E. subst x. now right.
Qed.

Lemma parseLines_copies (lines : list jsstring) :
  forall i ps1 ps2 ts nts,
    Forall2 sameButEpsilon ps1 ps2 ->
    match parseLines Lib.storeRhs lines i ps1 ts nts,
          parseLines Part1.storeRhs lines i ps2 ts nts with
    | inl e1, inl e2 => e1 = e2
    | inr (qs1, ts1, nts1), inr (qs2, ts2, nts2) =>
        Forall2 sameButEpsilon qs1 qs2 /\ ts1 = ts2 /\ nts1 = nts2
    | _, _ => False
    end.
Proof.
  induction lines as [|line rest IH]; intros i ps1 ps2 ts nts H; simpl.
  - now repeat split.
  - destruct (matchProduction line) as [[lhs rhsStr]|]; [|reflexivity].
    destruct (classifySymbols _ _ _) as [e|[ts2 nts2]]; [reflexivity|].
    apply IH. apply Forall2_app; [assumption|]. constructor; [|constructor].
    split; [reflexivity|]. split; [reflexivity|]. simpl.
    destruct (storeRhs_copies (splitRhs rhsStr)) as [E | [E1 E2]];
      [left; now rewrite E | now right].
Qed.

Lemma parseGrammar_copies_related (input : jsstring) :
  match Lib.parseGrammar input, Part1.parseGrammar input with
  | inl e1, inl e2 => e1 = e2
  | inr g1, inr g2 =>
      Forall2 sameButEpsilon (Grammar.productions g1) (Grammar.productions g2)
      /\ Grammar.terminals g1 = Grammar.terminals g2
      /\ Grammar.nonTerminals g1 = Grammar.nonTerminals g2
      /\ Grammar.startSymbol g1 = Grammar.startSymbol g2
  | _, _ => False
  end.
Proof.
  unfold Lib.parseGrammar, Part1.parseGrammar, parseGrammarWith.
  destruct (List.length (splitOn 10%N (trim input)) =? 0); [reflexivity|].
  pose proof (parseLines_copies (splitOn 10%N (trim input)) 0 [] [] [] []
                (List.Forall2_nil _)) as H.
  destruct (parseLines Lib.storeRhs _ 0 [] [] []) as [e1|[[qs1 ts1] nts1]],
           (parseLines Part1.storeRhs _ 0 [] [] []) as [e2|[[qs2 ts2] nts2]];
    try assumption; try contradiction.
  destruct H as (Hq & <- & <-).
  destruct Hq as [|p1 p2 qs1 qs2 Hp Hq]; [reflexivity|].
  pose proof Hp as (El & _). rewrite El. simpl.
  split; [|now repeat split].
  constructor; [|now constructor].
  split; [reflexivity|]. split; [reflexivity|]. now left.
Qed.

(** ** Well-formed productions *)

Lemma goodSymbol_notin (s : jsstring) (c : N) :
  goodSymbol s -> isAlnum c = false -> c <> 949%N -> ~ In c s.
Proof.
  intros [-> | [H | [H | ->]]] Hc Hne.
  - simpl. intros [E | []]. congruence.
  - apply forallb_alnum_notin; [now apply terminalName_alnum | assumption].
  - apply forallb_alnum_notin; [now apply nonTerminalName_alnum | assumption].
  - intros [].
Qed.

Lemma goodSymbol_not_dollar (s : jsstring) : goodSymbol s -> s <> dollar.
Proof.
  intros H E. apply (goodSymbol_notin s 36%N H); [reflexivity | discriminate |].
  rewrite E. now left.
Qed.

Lemma takeWhile_forallb (p : N -> bool) (s : jsstring) : forallb p (takeWhile p s) = true.
Proof.
  induction s as [|c s IH]; simpl; [reflexivity|].
  destruct (p c) eqn:E; simpl; [now rewrite E | reflexivity].
Qed.

Lemma matchProduction_lhs (line lhs rhsStr : jsstring) :
  matchProduction line = Some (lhs, rhsStr) -> isNonTerminalName lhs = true.
Proof.
  unfold matchProduction.
  destruct (dropWhile isWhiteSpace line) as [|c s1]; [discriminate|].
  destruct (isUpper c) eqn:Hc; [|discriminate].
  destruct (dropWhile isWhiteSpace (dropWhile isAlnum s1)) as [|x [|y r]]; try discriminate.
  destruct (N.eqb x 45 && N.eqb y 62); [|discriminate].
  destruct (matchRhs r); [|discriminate].
  intros H. injection H as <- _. simpl. rewrite Hc. apply takeWhile_forallb.
Qed.

Lemma classifySymbols_good rhs ts nts r :
  classifySymbols rhs ts nts = inr r -> Forall goodSymbol rhs.
Proof.
  revert ts nts. induction rhs as [|symbol rest IH]; intros ts nts; simpl.
  - constructor.
  - destruct (streq symbol eps) eqn:E1.
    { intros H. constructor; [left; now apply streq_eq | eauto]. }
    destruct (isTerminalName symbol) eqn:E2.
    { intros H. constructor; [right; now left | eauto]. }
    destruct (isNonTerminalName symbol) eqn:E3.
    { intros H. constructor; [right; right; now left | eauto]. }
    destruct (streq symbol []) eqn:E4; simpl; [|discriminate].
    intros H. constructor; [right; right; right; now apply streq_eq | eauto].
Qed.

Lemma splitRhs_not_blank (rhsStr : jsstring) : splitRhs rhsStr <> [[]].
Proof.
  unfold splitRhs.
  destruct (streq (trim rhsStr) eps || streq (trim rhsStr) []) eqn:E; [discriminate|].
  apply orb_false_elim in E as [_ E]. apply streq_neq in E.
  destruct (trim rhsStr) as [|c t]; [congruence|].
  unfold splitWs. simpl.
  destruct (isWhiteSpace c).
  - pose proof (splitWsAux_nonempty true t) as H.
    destruct (splitWsAux true t); [congruence | discriminate].
  - destruct (splitWsAux false t) as [|w ws]; discriminate.
Qed.

Lemma Lib_keepsOrEmpties : keepsOrEmpties Lib.storeRhs.
Proof. intros rhs. now left. Qed.

Lemma Part1_keepsOrEmpties : keepsOrEmpties Part1.storeRhs.
Proof.
  intros rhs. unfold Part1.storeRhs.
  destruct ((List.length rhs =? 1) && streq (nth 0 rhs []) eps); [now right | now left].
Qed.

Section ParseGrammarInvariant.
Variable storeRhs : list jsstring -> list jsstring.
Hypothesis Hstore : keepsOrEmpties storeRhs.

Lemma storeRhs_good (rhsStr : jsstring) :
  Forall goodSymbol (splitRhs rhsStr) -> goodRhs (storeRhs (splitRhs rhsStr)).
Proof.
  intros H. destruct (Hstore (splitRhs rhsStr)) as [-> | ->].
  - split; [apply splitRhs_not_blank | assumption].
  - split; [discriminate | constructor].
Qed.

Lemma parseLines_good lines i ps ts nts ps' ts' nts' :
  parseLines storeRhs lines i ps ts nts = inr (ps', ts', nts') ->
  Forall goodProduction ps -> Forall goodProduction ps'.
Proof.
  revert i ps ts nts. induction lines as [|line rest IH]; intros i ps ts nts; simpl.
  - intros H. now injection H as <- _ _.
  - destruct (matchProduction line) as [[lhs rhsStr]|] eqn:Hm; [|discriminate].
    destruct (classifySymbols _ _ _) as [e|[ts2 nts2]] eqn:Hc; [discriminate|].
    intros H Hps. apply IH in H; [assumption|].
    apply Forall_app. split; [assumption|]. constructor; [|constructor].
    split; [|split]; simpl.
    + eapply matchProduction_lhs, Hm.
    + apply storeRhs_good. eapply classifySymbols_good, Hc.
    + lia.
Qed.

(** The shape of a returned grammar: the augmented production, then
    well-formed productions; the end marker is a terminal. *)
Lemma parseGrammarWith_shape (input : jsstring) (g : Grammar) :
  parseGrammarWith storeRhs input = inr g ->
  exists first ps,
    Grammar.productions g
      = Production.mk (Production.lhs first ++ js "'") [Production.lhs first] 0 :: first :: ps
    /\ Forall goodProduction (first :: ps)
    /\ Grammar.startSymbol g = Production.lhs first ++ js "'"
    /\ In dollar (Grammar.terminals g).
Proof.
  unfold parseGrammarWith.
  destruct (List.length (splitOn 10%N (trim input)) =? 0); [discriminate|].
  destruct (parseLines storeRhs _ 0 [] [] []) as [e|[[ps ts] nts]] eqn:Hp; [discriminate|].
  destruct ps as [|first ps]; [discriminate|].
  intros H. injection H as <-. simpl.
  exists first, ps. repeat split.
  - eapply parseLines_good; [exact Hp | constructor].
  - unfold setAdd. destruct (includes dollar ts) eqn:E.
    + now apply includes_In.
    + apply in_or_app. right. now left.
Qed.

End ParseGrammarInvariant.

Lemma parsed_shape (input : jsstring) (g : Grammar) :
  parsed input g ->
  exists first ps,
    Grammar.productions g
      = Production.mk (Production.lhs first ++ js "'") [Production.lhs first] 0 :: first :: ps
    /\ Forall goodProduction (first :: ps)
    /\ Grammar.startSymbol g = Production.lhs first ++ js "'"
    /\ In dollar (Grammar.terminals g).
Proof.
  intros [H | H].
  - eapply parseGrammarWith_shape; [apply Lib_keepsOrEmpties | exact H].
  - eapply parseGrammarWith_shape; [apply Part1_keepsOrEmpties | exact H].
Qed.

Lemma nonTerminalName_good (s : jsstring) : isNonTerminalName s = true -> goodSymbol s.
Proof. intros H. right. right. now left. Qed.

(** Every right-hand side of a returned grammar passed the scan, the one of
    the augmented production included. *)
Lemma parsed_rhs_good (input : jsstring) (g : Grammar) (p : Production) :
  parsed input g -> In p (Grammar.productions g) -> goodRhs (Production.rhs p).
Proof.
  intros Hg Hp. apply parsed_shape in Hg as (first & ps & Eps & Hgood & _ & _).
  rewrite Eps in Hp. destruct Hp as [<- | Hp].
  - simpl. inversion Hgood as [|? ? [Hl _] _]; subst. split.
    + intros E. injection E as E. rewrite E in Hl. discriminate.
    + constructor; [now apply nonTerminalName_good | constructor].
  - rewrite List.Forall_forall in Hgood. now apply Hgood in Hp as (_ & H & _).
Qed.

(** Only the augmented production has the start symbol on its left: the
    start symbol ends with a quote, which no nonterminal name contains. *)
Lemma parsed_start_production (input : jsstring) (g : Grammar) (p : Production) :
  parsed input g -> In p (Grammar.productions g) ->
  (Production.lhs p = Grammar.startSymbol g <-> Production.id p = 0).
Proof.
  intros Hg Hp. apply parsed_shape in Hg as (first & ps & Eps & Hgood & Es & _).
  rewrite Eps in Hp. rewrite Es. destruct Hp as [<- | Hp]; simpl.
  - split; reflexivity.
  - rewrite List.Forall_forall in Hgood. apply Hgood in Hp as (Hl & _ & Hid). split.
    + intros E. exfalso. apply nonTerminalName_alnum in Hl.
      apply (forallb_alnum_notin _ 39%N Hl); [reflexivity|].
      rewrite E. apply in_or_app. right. now left.
    + lia.
Qed.

(** ** Item equality *)

Lemma split_at_first_space (a b x y : jsstring) :
  a ++ 32%N :: x = b ++ 32%N :: y -> ~ In 32%N a -> ~ In 32%N b -> a = b /\ x = y.
Proof.
  revert b. induction a as [|c a IH]; intros [|d b]; simpl; intros E Ha Hb.
  - injection E as ->. now split.
  - injection E as <- _. exfalso. apply Hb. now left.
  - injection E as -> _. exfalso. apply Ha. now left.
  - injection E as -> E. apply IH in E as [-> ->]; [now split | tauto | tauto].
Qed.

Lemma join_nil (sep : jsstring) : join sep [] = [].
Proof. reflexivity. Qed.

Lemma join_one (sep p : jsstring) : join sep [p] = p.
Proof. reflexivity. Qed.

Lemma join_two (p q : jsstring) (rest : list jsstring) :
  join [32%N] (p :: q :: rest) = p ++ 32%N :: join [32%N] (q :: rest).
Proof. reflexivity. Qed.

(** Joining with a space is injective on space-free strings, but for the
    empty array and the array of one empty string, which both give the
    empty string. *)
Lemma join_space_inj (l1 l2 : list jsstring) :
  Forall (fun s => ~ In 32%N s) l1 -> Forall (fun s => ~ In 32%N s) l2 ->
  join [32%N] l1 = join [32%N] l2 ->
  l1 = l2 \/ (l1 = [] /\ l2 = [[]]) \/ (l1 = [[]] /\ l2 = []).
Proof.
  revert l2. induction l1 as [|a l1 IH]; intros l2 H1 H2 E.
  - rewrite join_nil in E. destruct l2 as [|b [|c r]].
    + now left.
    + rewrite join_one in E. subst b. right. now left.
    + rewrite join_two in E. symmetry in E.
      apply app_eq_nil in E as [_ E]. discriminate.
  - inversion H1 as [|? ? Ha H1']; subst.
    destruct l2 as [|b l2].
    + rewrite join_nil in E. destruct l1 as [|c r].
      * rewrite join_one in E. subst a. right. now right.
      * rewrite join_two in E. apply app_eq_nil in E as [_ E]. discriminate.
    + inversion H2 as [|? ? Hb H2']; subst.
      destruct l1 as [|c r], l2 as [|d r'].
      * rewrite !join_one in E. subst. now left.
      * rewrite join_one, join_two in E. exfalso. apply Ha. rewrite E.
        apply in_or_app. right. now left.
      * rewrite join_one, join_two in E. exfalso. apply Hb. rewrite <- E.
        apply in_or_app. right. now left.
      * rewrite !join_two in E.
        apply split_at_first_space in E as [-> E]; [|assumption|assumption].
        apply IH in E as [-> | [[E _] | [_ E]]]; try assumption; try discriminate.
        now left.
Qed.

Lemma goodRhs_join_inj (r1 r2 : list jsstring) :
  goodRhs r1 -> goodRhs r2 -> join (js " ") r1 = join (js " ") r2 -> r1 = r2.
Proof.
  intros [N1 G1] [N2 G2] E. change (js " ") with [32%N] in E.
  apply join_space_inj in E as [E | [[_ E] | [E _]]]; try congruence.
  - eapply List.Forall_impl; [|exact G1]. intros s Hs. now apply goodSymbol_notin.
  - eapply List.Forall_impl; [|exact G2]. intros s Hs. now apply goodSymbol_notin.
Qed.

Lemma arraysEqual_single (x y : jsstring) : arraysEqual [x] [y] = true <-> x = y.
Proof.
  unfold arraysEqual, includes. simpl. rewrite !orb_false_r, andb_true_r.
  rewrite streq_eq. split; congruence.
Qed.

Lemma length_one {A} (l : list A) : List.length l = 1 -> exists x, l = [x].
Proof. destruct l as [|x [|y l]]; try discriminate. intros _. now exists x. Qed.

(** C9, amended: on the items of a grammar returned by [parseGrammar], with
    one lookahead each, [itemsEqual] holds exactly when the two productions
    have the same left-hand side and the same right-hand side, and the dot
    positions and the lookaheads agree.  Production ids are not compared. *)
Theorem itemsEqual_compares_lhs_and_rhs
    (input : jsstring) (g : Grammar) (item1 item2 : Item) :
  parsed input g ->
  In (Item.production item1) (Grammar.productions g) ->
  In (Item.production item2) (Grammar.productions g) ->
  List.length (Item.lookahead item1) = 1 ->
  List.length (Item.lookahead item2) = 1 ->
  itemsEqual item1 item2 = true
  <-> Production.lhs (Item.production item1) = Production.lhs (Item.production item2)
      /\ Production.rhs (Item.production item1) = Production.rhs (Item.production item2)
      /\ Item.dotPosition item1 = Item.dotPosition item2
      /\ Item.lookahead item1 = Item.lookahead item2.
Proof.
  intros Hg Hp1 Hp2 Hl1 Hl2.
  apply length_one in Hl1 as [x Hx]. apply length_one in Hl2 as [y Hy].
  pose proof (parsed_rhs_good _ _ _ Hg Hp1) as G1.
  pose proof (parsed_rhs_good _ _ _ Hg Hp2) as G2.
  unfold itemsEqual. rewrite Hx, Hy, !andb_true_iff, !streq_eq, Nat.eqb_eq,
    arraysEqual_single.
  split.
  - intros [[[E1 E2] E3] E4]. repeat split; try assumption; try congruence.
    now apply goodRhs_join_inj.
  - intros (E1 & E2 & E3 & E4). repeat split; congruence.
Qed.

Lemma itemsEqual_compares_lhs_and_rhs_witness :
  let g := grammarOf (Part1.parseGrammar (js "S -> a b")) in
  let item p := Item.mk (nth p (Grammar.productions g) (Production.mk [] [] 0)) 0 [dollar] in
  itemsEqual (item 1) (item 1) = true
  <-> Production.lhs (Item.production (item 1)) = Production.lhs (Item.production (item 1))
      /\ Production.rhs (Item.production (item 1)) = Production.rhs (Item.production (item 1))
      /\ Item.dotPosition (item 1) = Item.dotPosition (item 1)
      /\ Item.lookahead (item 1) = Item.lookahead (item 1).
Proof.
  intros g item.
  apply (itemsEqual_compares_lhs_and_rhs (js "S -> a b") g (item 1) (item 1)).
  - right. vm_compute. reflexivity.
  - vm_compute. right. left. reflexivity.
  - vm_compute. right. left. reflexivity.
  - reflexivity.
  - reflexivity.
Defined.

(** C9, as stated, fails: in the grammar of the text [S -> a / S -> a] the
    items of productions 1 and 2 are equal for [itemsEqual], with the same
    dot and lookahead, and different production ids. *)
Lemma itemsEqual_ignores_production_id :
  let g := grammarOf (Lib.parseGrammar (js "S -> a" ++ nl ++ js "S -> a")) in
  let item p := Item.mk (nth p (Grammar.productions g) (Production.mk [] [] 0)) 0 [dollar] in
  parsed (js "S -> a" ++ nl ++ js "S -> a") g
  /\ In (Item.production (item 1)) (Grammar.productions g)
  /\ In (Item.production (item 2)) (Grammar.productions g)
  /\ itemsEqual (item 1) (item 2) = true
  /\ ~ (Production.id (Item.production (item 1)) = Production.id (Item.production (item 2))
        /\ Item.dotPosition (item 1) = Item.dotPosition (item 2)
        /\ Item.lookahead (item 1) = Item.lookahead (item 2)).
Proof.
  intros g item. split; [left; vm_compute; reflexivity|].
  split; [vm_compute; tauto|]. split; [vm_compute; tauto|].
  split; [vm_compute; reflexivity|].
  vm_compute. intros [E _]. discriminate.
Qed.

(** ** Closure: a grammar on which it does not return *)

Lemma leftRecursive_parsed : parsed (js "S -> S S" ++ nl ++ js "S -> a") leftRecursive.
Proof. left. vm_compute. reflexivity. Qed.

(** FIRST of a sequence that starts with [S] calls itself on [S S], at
    every depth. *)
Lemma computeFirst_leftRecursive (fuel : nat) (rest : list jsstring) :
  computeFirst fuel leftRecursive (js "S" :: rest) = OutOfFuel.
Proof.
  revert rest. induction fuel as [|fuel IH]; intros rest; [reflexivity|].
  change (computeFirst (S fuel) leftRecursive (js "S" :: rest))
    with (firstOfProductions (computeFirst fuel leftRecursive) (js "S") rest
            (Grammar.productions leftRecursive) []).
  change (Grammar.productions leftRecursive)
    with [Production.mk (js "S'") [js "S"] 0;
          Production.mk (js "S") [js "S"; js "S"] 1;
          Production.mk (js "S") [js "a"] 2].
  cbn [firstOfProductions Production.lhs Production.rhs].
  change (streq (js "S'") (js "S")) with false.
  change (streq (js "S") (js "S")) with true.
  change (isEpsilonRhs [js "S"; js "S"]) with false.
  cbv iota. rewrite IH. reflexivity.
Qed.

(** C6, as stated, fails: on the grammar of [S -> S S / S -> a] the closure
    of the initial item returns with no fuel, and so does
    [generateClrItems]. *)
Lemma closure_leftRecursive_never_returns :
  parsed (js "S -> S S" ++ nl ++ js "S -> a") leftRecursive
  /\ (forall fuel, closure fuel leftRecursive [startItem leftRecursive 0 dollar] = OutOfFuel)
  /\ (forall fuel, generateClrItems fuel leftRecursive = OutOfFuel).
Proof.
  split; [apply leftRecursive_parsed|].
  assert (H : forall fuel,
             closure fuel leftRecursive [startItem leftRecursive 0 dollar] = OutOfFuel).
  { intros [|[|[|[|fuel]]]]; try reflexivity.
    unfold closure.
    change (closureWhile (S (S (S (S fuel)))) leftRecursive [startItem leftRecursive 0 dollar])
      with (st <~ (firstSet <~ computeFirst (S (S fuel)) leftRecursive
                                 (skipn 1 [js "S"] ++ [dollar]) ;;
                   closureFor (S (S fuel)) leftRecursive 1
                     (addProductions leftRecursive (js "S") (setDelete eps firstSet)
                        ([startItem leftRecursive 0 dollar], false))) ;;
            if snd st then closureWhile (S (S (S fuel))) leftRecursive (fst st)
            else Ret (fst st)).
    change (computeFirst (S (S fuel)) leftRecursive (skipn 1 [js "S"] ++ [dollar]))
      with (Ret (A:=list jsstring) [dollar]).
    cbn [bindRun].
    change (closureFor (S (S fuel)) leftRecursive 1
              (addProductions leftRecursive (js "S") (setDelete eps [dollar])
                 ([startItem leftRecursive 0 dollar], false)))
      with (firstSet <~ computeFirst (S fuel) leftRecursive (js "S" :: [dollar]) ;;
            closureFor (S fuel) leftRecursive 2
              (addProductions leftRecursive (js "S") (setDelete eps firstSet)
                 (addProductions leftRecursive (js "S") (setDelete eps [dollar])
                    ([startItem leftRecursive 0 dollar], false)))).
    rewrite computeFirst_leftRecursive. reflexivity. }
  split; [exact H|].
  intros fuel. unfold generateClrItems.
  change (Grammar.productions leftRecursive)
    with [Production.mk (js "S'") [js "S"] 0;
          Production.mk (js "S") [js "S"; js "S"] 1;
          Production.mk (js "S") [js "a"] 2].
  cbv iota.
  change (Item.mk (Production.mk (js "S'") [js "S"] 0) 0 [dollar])
    with (startItem leftRecursive 0 dollar).
  rewrite H. reflexivity.
Qed.

(** ** FIRST sets: fuel and contents *)

Lemma bindRun_Ret {A B} (m : Run A) (k : A -> Run B) (b : B) :
  bindRun m k = Ret b -> exists a, m = Ret a /\ k a = Ret b.
Proof. destruct m as [a| |]; simpl; try discriminate. intros H. now exists a. Qed.

Lemma In_setAdd (x y : jsstring) (s : list jsstring) :
  In y (setAdd x s) <-> y = x \/ In y s.
Proof.
  unfold setAdd. destruct (includes x s) eqn:E.
  - apply includes_In in E. intuition congruence.
  - rewrite in_app_iff. simpl. intuition congruence.
Qed.

Lemma In_setAddAll (other s : list jsstring) (y : jsstring) :
  In y (setAddAll other s) <-> In y other \/ In y s.
Proof.
  unfold setAddAll. revert s. induction other as [|x other IH]; intros s; simpl.
  - tauto.
  - rewrite IH, In_setAdd. intuition congruence.
Qed.

Lemma In_setDelete (x y : jsstring) (s : list jsstring) :
  In y (setDelete x s) <-> In y s /\ y <> x.
Proof.
  unfold setDelete. rewrite filter_In, negb_true_iff, streq_neq. tauto.
Qed.

Section FirstFacts.
Variable grammar : Grammar.

(** More fuel does not change a result. *)
Lemma firstOfProductions_mono (rec rec' : list jsstring -> Run (list jsstring))
    (firstSymbol : jsstring) (rest : list jsstring) :
  (forall s r, rec s = Ret r -> rec' s = Ret r) ->
  forall prods first r,
    firstOfProductions rec firstSymbol rest prods first = Ret r ->
    firstOfProductions rec' firstSymbol rest prods first = Ret r.
Proof.
  intros Hrec. induction prods as [|production prods IH]; intros first r; simpl.
  - trivial.
  - destruct (streq (Production.lhs production) firstSymbol); [|apply IH].
    destruct (isEpsilonRhs (Production.rhs production)).
    + destruct (0 <? List.length rest); [|apply IH].
      intros H. apply bindRun_Ret in H as (restFirst & H1 & H2).
      rewrite (Hrec _ _ H1). simpl. now apply IH.
    + intros H. apply bindRun_Ret in H as (rhsFirst & H1 & H2).
      rewrite (Hrec _ _ H1). simpl.
      destruct (includes eps rhsFirst && (0 <? List.length rest)); [|now apply IH].
      apply bindRun_Ret in H2 as (restFirst & H3 & H4).
      rewrite (Hrec _ _ H3). simpl. now apply IH.
Qed.

Lemma computeFirst_mono (fuel fuel' : nat) (symbols r : list jsstring) :
  fuel <= fuel' ->
  computeFirst fuel grammar symbols = Ret r -> computeFirst fuel' grammar symbols = Ret r.
Proof.
  revert fuel' symbols r. induction fuel as [|fuel IH]; intros fuel' symbols r Hle; simpl.
  - discriminate.
  - destruct fuel' as [|fuel']; [lia|]. simpl.
    destruct symbols as [|firstSymbol rest]; [trivial|].
    destruct (includes firstSymbol (Grammar.terminals grammar)); [trivial|].
    apply firstOfProductions_mono. intros s r'. apply IH. lia.
Qed.

Lemma firstOfProductions_firstLike (rec : list jsstring -> Run (list jsstring))
    (firstSymbol : jsstring) (rest : list jsstring) :
  (forall s r, rec s = Ret r -> firstLike grammar r) ->
  forall prods first r,
    firstLike grammar first ->
    firstOfProductions rec firstSymbol rest prods first = Ret r -> firstLike grammar r.
Proof.
  intros Hrec. induction prods as [|production prods IH]; intros first r Hf; simpl.
  - intros H. now injection H as <-.
  - destruct (streq (Production.lhs production) firstSymbol); [|now apply IH].
    assert (Hadd : firstLike grammar (setAdd eps first)).
    { intros x Hx. apply In_setAdd in Hx as [-> | Hx]; [now left | now apply Hf]. }
    destruct (isEpsilonRhs (Production.rhs production)).
    + destruct (0 <? List.length rest); [|now apply IH].
      intros H. apply bindRun_Ret in H as (restFirst & H1 & H2).
      revert H2. apply IH. intros x Hx.
      apply In_setAddAll in Hx as [Hx | Hx]; [eapply Hrec; eassumption | now apply Hadd].
    + intros H. apply bindRun_Ret in H as (rhsFirst & H1 & H2).
      assert (Hacc : firstLike grammar
                (setAddAll (List.filter (fun symbol => negb (streq symbol eps)) rhsFirst) first)).
      { intros x Hx. apply In_setAddAll in Hx as [Hx | Hx]; [|now apply Hf].
        apply filter_In in Hx as [Hx _]. eapply Hrec; eassumption. }
      destruct (includes eps rhsFirst && (0 <? List.length rest)); [|revert H2; now apply IH].
      apply bindRun_Ret in H2 as (restFirst & H3 & H4).
      revert H4. apply IH. intros x Hx.
      apply In_setAddAll in Hx as [Hx | Hx]; [eapply Hrec; eassumption | now apply Hacc].
Qed.

Lemma computeFirst_firstLike (fuel : nat) (symbols r : list jsstring) :
  computeFirst fuel grammar symbols = Ret r -> firstLike grammar r.
Proof.
  revert symbols r. induction fuel as [|fuel IH]; intros symbols r; simpl.
  - discriminate.
  - destruct symbols as [|firstSymbol rest].
    + intros H. injection H as <-. intros x [<- | []]. now left.
    + destruct (includes firstSymbol (Grammar.terminals grammar)) eqn:E.
      * intros H. injection H as <-. intros x [<- | []]. right. now apply includes_In.
      * apply firstOfProductions_firstLike; [exact IH | intros x []].
Qed.

(** The lookaheads the closure adds are terminals of the grammar. *)
Lemma computeFirst_lookaheads (fuel : nat) (symbols r : list jsstring) (x : jsstring) :
  computeFirst fuel grammar symbols = Ret r ->
  In x (setDelete eps r) -> In x (Grammar.terminals grammar).
Proof.
  intros H Hx. apply In_setDelete in Hx as [Hx Hne].
  apply computeFirst_firstLike in H. destruct (H x Hx); [contradiction | assumption].
Qed.

End FirstFacts.

(** ** Closure: termination *)

Lemma In_candidates (g : Grammar) (p : Production) (l : jsstring) :
  In p (Grammar.productions g) -> In l (Grammar.terminals g) ->
  In (Item.mk p 0 [l]) (candidates g).
Proof.
  intros Hp Hl. unfold candidates. apply in_flat_map. exists p. split; [assumption|].
  apply in_map_iff. now exists l.
Qed.

Lemma candidates_shape (g : Grammar) (u : Item) :
  In u (candidates g) ->
  exists p l, u = Item.mk p 0 [l] /\ In p (Grammar.productions g) /\ In l (Grammar.terminals g).
Proof.
  unfold candidates. intros H. apply in_flat_map in H as (p & Hp & H).
  apply in_map_iff in H as (l & <- & Hl). now exists p, l.
Qed.

Lemma itemsEqual_self (p : Production) (d : nat) (l : jsstring) :
  itemsEqual (Item.mk p d [l]) (Item.mk p d [l]) = true.
Proof.
  unfold itemsEqual. simpl. rewrite !streq_refl, Nat.eqb_refl. simpl.
  now apply arraysEqual_single.
Qed.

Lemma covered_app (r : list Item) (x u : Item) :
  covered (r ++ [x]) u = covered r u || itemsEqual x u.
Proof. unfold covered. rewrite existsb_app. simpl. now rewrite orb_false_r. Qed.

Lemma filter_length_le {A} (p q : A -> bool) (l : list A) :
  (forall x, In x l -> q x = true -> p x = true) ->
  List.length (List.filter q l) <= List.length (List.filter p l).
Proof.
  induction l as [|x l IH]; intros H; simpl; [lia|].
  assert (IH' : List.length (List.filter q l) <= List.length (List.filter p l)).
  { apply IH. intros y Hy. apply H. now right. }
  destruct (q x) eqn:Eq.
  - rewrite (H x (or_introl eq_refl) Eq). simpl. lia.
  - destruct (p x); simpl; lia.
Qed.

Lemma filter_length_lt {A} (p q : A -> bool) (l : list A) (u : A) :
  (forall x, In x l -> q x = true -> p x = true) ->
  In u l -> p u = true -> q u = false ->
  List.length (List.filter q l) < List.length (List.filter p l).
Proof.
  induction l as [|x l IH]; intros H Hu Hp Hq; simpl; [destruct Hu|].
  assert (Hl : forall y, In y l -> q y = true -> p y = true).
  { intros y Hy. apply H. now right. }
  destruct Hu as [-> | Hu].
  - rewrite Hp, Hq. simpl. pose proof (filter_length_le p q l Hl). lia.
  - specialize (IH Hl Hu Hp Hq). destruct (q x) eqn:Eq.
    + rewrite (H x (or_introl eq_refl) Eq). simpl. lia.
    + destruct (p x); simpl; lia.
Qed.

Section ClosureTermination.
Variable g : Grammar.

Lemma grows_refl (st : ClosureState) : grows g st st.
Proof. repeat split; auto. Qed.

Lemma grows_trans (a b c : ClosureState) : grows g a b -> grows g b c -> grows g a c.
Proof.
  intros (I1 & L1 & M1 & C1) (I2 & L2 & M2 & C2). repeat split; try lia.
  - intros it Hit. apply I2 in Hit as [Hit | Hit]; [now apply I1 | now right].
  - intros Hc. apply C2 in Hc as [Hc | Hc]; [|right; lia].
    apply C1 in Hc as [Hc | Hc]; [now left | right; lia].
Qed.

Lemma fold_left_grows {A} (f : ClosureState -> A -> ClosureState) (l : list A) :
  (forall st x, In x l -> grows g st (f st x)) ->
  forall st, grows g st (fold_left f l st).
Proof.
  induction l as [|x l IH]; intros H st; simpl; [apply grows_refl|].
  eapply grows_trans; [apply H; now left|]. apply IH. intros st' y Hy. apply H. now right.
Qed.

Lemma addItem_grows (st : ClosureState) (u : Item) :
  In u (candidates g) -> grows g st (addItem st u).
Proof.
  intros Hu. unfold addItem. fold (covered (fst st) u).
  destruct (covered (fst st) u) eqn:Ec; [apply grows_refl|].
  assert (Hlt : missing g (fst st ++ [u]) < missing g (fst st)).
  { unfold missing. apply filter_length_lt with (u := u).
    - intros x _. rewrite covered_app, !negb_true_iff. intros E.
      now apply orb_false_elim in E as [E _].
    - assumption.
    - now rewrite Ec.
    - rewrite covered_app. apply candidates_shape in Hu as (p & l & -> & _ & _).
      rewrite itemsEqual_self, orb_true_r. reflexivity. }
  repeat split; simpl.
  - intros it Hit. apply in_app_or in Hit as [Hit | [<- | []]]; [now left | now right].
  - rewrite length_app. simpl. lia.
  - lia.
  - intros _. now right.
Qed.

Lemma addProductions_grows (symbolAfterDot : jsstring) (firstSet : list jsstring)
    (st : ClosureState) :
  (forall l, In l firstSet -> In l (Grammar.terminals g)) ->
  grows g st (addProductions g symbolAfterDot firstSet st).
Proof.
  intros Hf. unfold addProductions. apply fold_left_grows.
  intros st1 production Hp.
  destruct (streq (Production.lhs production) symbolAfterDot); [|apply grows_refl].
  apply fold_left_grows. intros st2 lookahead Hl.
  apply addItem_grows, In_candidates; [assumption | now apply Hf].
Qed.

Variable items : list Item.
Variable firstFuel : nat.

(** The FIRST computations of the closure return: for every item it can
    hold whose dot is before a non-terminal, with the fuel [firstFuel]. *)
Hypothesis firstReturns :
  forall it symbolAfterDot lookaheadSymbols,
    In it (items ++ candidates g) ->
    expansion g it = Some (symbolAfterDot, lookaheadSymbols) ->
    exists r, computeFirst firstFuel g lookaheadSymbols = Ret r.

Lemma known_grows (st st' : ClosureState) :
  known g items st -> grows g st st' -> known g items st'.
Proof.
  intros Hk (I & _) it Hit. apply I in Hit as [Hit | Hit]; [now apply Hk|].
  apply in_or_app. now right.
Qed.

Lemma closureFor_returns (n : nat) :
  forall fuel i st,
    known g items st ->
    List.length (fst st) + missing g (fst st) - i <= n ->
    n + firstFuel + 1 <= fuel ->
    exists st', closureFor fuel g i st = Ret st' /\ grows g st st'.
Proof.
  induction n as [|n IH]; intros fuel i st Hk Hn Hfuel.
  - destruct fuel as [|fuel]; [lia|]. simpl.
    destruct (fst st !! i) as [item|] eqn:Ei.
    + apply lookup_lt_Some in Ei. lia.
    + exists st. split; [reflexivity | apply grows_refl].
  - destruct fuel as [|fuel]; [lia|]. simpl.
    destruct (fst st !! i) as [item|] eqn:Ei.
    2:{ exists st. split; [reflexivity | apply grows_refl]. }
    pose proof (lookup_lt_Some _ _ _ Ei) as Hi.
    assert (Hitem : In item (fst st)).
    { apply list_elem_of_In. eapply list_elem_of_lookup_2, Ei. }
    destruct (expansion g item) as [[symbolAfterDot lookaheadSymbols]|] eqn:Ee.
    + destruct (firstReturns _ _ _ (Hk _ Hitem) Ee) as [r Hr].
      rewrite (computeFirst_mono g firstFuel fuel _ _ ltac:(lia) Hr). simpl.
      set (st1 := addProductions g symbolAfterDot (setDelete eps r) st).
      assert (G1 : grows g st st1).
      { apply addProductions_grows. intros l Hl.
        eapply computeFirst_lookaheads; eassumption. }
      destruct (IH fuel (S i) st1) as (st' & Hst' & G2).
      * eapply known_grows; eassumption.
      * destruct G1 as (_ & L & _). lia.
      * lia.
      * exists st'. split; [assumption | eapply grows_trans; eassumption].
    + destruct (IH fuel (S i) st) as (st' & Hst' & G2); [assumption | lia | lia |].
      now exists st'.
Qed.

Lemma closureWhile_returns (m : nat) :
  forall fuel result bound,
    known g items (result, false) ->
    missing g result <= m ->
    List.length result + missing g result <= bound ->
    m + bound + firstFuel + 2 <= fuel ->
    exists r, closureWhile fuel g result = Ret r.
Proof.
  induction m as [|m IH]; intros fuel result bound Hk Hm Hb Hfuel;
    (destruct fuel as [|fuel]; [lia|]); simpl;
    destruct (closureFor_returns bound fuel 0 (result, false) Hk)
      as (st' & -> & G); simpl; try lia; simpl.
  - destruct (snd st') eqn:Ec; [|now exists (fst st')].
    destruct G as (_ & _ & _ & C). destruct (C Ec) as [C' | C']; simpl in C'; [discriminate | lia].
  - destruct (snd st') eqn:Ec; [|now exists (fst st')].
    pose proof (known_grows _ _ Hk G) as Hk'.
    destruct G as (_ & L & _ & C). simpl in L.
    destruct (C Ec) as [C' | C']; simpl in C'; [discriminate|].
    apply (IH fuel (fst st') bound); [exact Hk' | lia | lia | lia].
Qed.

Lemma closure_returns : exists fuel r, closure fuel g items = Ret r.
Proof.
  exists (missing g items + (List.length items + missing g items) + firstFuel + 2).
  unfold closure. eapply closureWhile_returns with (m := missing g items); try reflexivity.
  intros it Hit. apply in_or_app. now left.
Qed.

End ClosureTermination.

(** C6, amended: for every grammar and every finite set of starting items,
    the closure returns (with enough fuel for its loops) whenever the FIRST
    computations it needs return: those of the starting items and of the
    items it can add, whose dot is before a non-terminal. *)
Theorem closure_terminates (g : Grammar) (items : list Item) (firstFuel : nat) :
  (forall it symbolAfterDot lookaheadSymbols,
     In it (items ++ candidates g) ->
     expansion g it = Some (symbolAfterDot, lookaheadSymbols) ->
     exists r, computeFirst firstFuel g lookaheadSymbols = Ret r) ->
  exists fuel r, closure fuel g items = Ret r.
Proof. intros H. exact (closure_returns g items firstFuel H). Qed.

Lemma firstReturnsb_spec (g : Grammar) (firstFuel : nat) (l : list Item) :
  firstReturnsb g firstFuel l = true ->
  forall it symbolAfterDot lookaheadSymbols,
    In it l ->
    expansion g it = Some (symbolAfterDot, lookaheadSymbols) ->
    exists r, computeFirst firstFuel g lookaheadSymbols = Ret r.
Proof.
  unfold firstReturnsb. rewrite forallb_forall. intros H it sym seq Hit He.
  specialize (H it Hit). rewrite He in H.
  destruct (computeFirst firstFuel g seq) as [r| |]; try discriminate. now exists r.
Qed.

Lemma closure_terminates_witness :
  exists fuel r, closure fuel sampleGrammar [startItem sampleGrammar 0 dollar] = Ret r.
Proof.
  apply (closure_terminates sampleGrammar [startItem sampleGrammar 0 dollar] 5).
  apply firstReturnsb_spec. vm_compute. reflexivity.
Defined.

(** ** The items of the canonical collection *)

Lemma forEach_invariant {A S} (P : S -> Prop) (body : S -> A -> Run S) (l : list A) :
  (forall s x s', In x l -> P s -> body s x = Ret s' -> P s') ->
  forall s s', P s -> forEach body l s = Ret s' -> P s'.
Proof.
  induction l as [|x l IH]; intros H s s' Hs; simpl.
  - intros E. now injection E as <-.
  - intros E. apply bindRun_Ret in E as (s1 & E1 & E2).
    eapply IH; [|eapply H; [now left | exact Hs | exact E1] | exact E2].
    intros s2 y s3 Hy. apply H. now right.
Qed.

Lemma fold_left_invariant {A S} (P : S -> Prop) (f : S -> A -> S) (l : list A) :
  (forall s x, In x l -> P s -> P (f s x)) -> forall s, P s -> P (fold_left f l s).
Proof.
  induction l as [|x l IH]; intros H s Hs; simpl; [assumption|].
  apply IH; [|apply H; [now left | assumption]].
  intros s' y Hy. apply H. now right.
Qed.

Section ItemInvariant.
Variable g : Grammar.

Lemma addItem_ok (st : ClosureState) (u : Item) :
  okItems g (fst st) -> okItem g u -> okItems g (fst (addItem st u)).
Proof.
  intros Hst Hu. unfold addItem.
  destruct (existsb _ _); [assumption|]. simpl.
  intros it Hit. apply in_app_or in Hit as [Hit | [<- | []]]; auto.
Qed.

Lemma addProductions_ok (symbolAfterDot : jsstring) (firstSet : list jsstring)
    (st : ClosureState) :
  (forall l, In l firstSet -> In l (Grammar.terminals g)) ->
  okItems g (fst st) -> okItems g (fst (addProductions g symbolAfterDot firstSet st)).
Proof.
  intros Hf. unfold addProductions.
  apply (fold_left_invariant (fun st => okItems g (fst st))).
  intros st1 production Hp H1.
  destruct (streq (Production.lhs production) symbolAfterDot); [|assumption].
  revert H1. apply (fold_left_invariant (fun st => okItems g (fst st))).
  intros st2 lookahead Hl H2. apply addItem_ok; [assumption|].
  split; [assumption|]. exists lookahead. split; [reflexivity | now apply Hf].
Qed.

Lemma closureFor_ok (fuel : nat) :
  forall i st st', okItems g (fst st) -> closureFor fuel g i st = Ret st' -> okItems g (fst st').
Proof.
  induction fuel as [|fuel IH]; intros i st st' Hst; simpl; [discriminate|].
  destruct (fst st !! i) as [item|].
  - destruct (expansion g item) as [[symbolAfterDot lookaheadSymbols]|].
    + intros E. apply bindRun_Ret in E as (firstSet & E1 & E2).
      eapply IH; [|exact E2]. apply addProductions_ok; [|assumption].
      intros l Hl. eapply computeFirst_lookaheads; eassumption.
    + now apply IH.
  - intros E. now injection E as <-.
Qed.

Lemma closure_ok (fuel : nat) :
  forall items r, okItems g items -> closure fuel g items = Ret r -> okItems g r.
Proof.
  unfold closure. induction fuel as [|fuel IH]; intros items r Hi; simpl; [discriminate|].
  intros E. apply bindRun_Ret in E as (st & E1 & E2).
  apply closureFor_ok in E1; [|assumption].
  destruct (snd st).
  - eapply IH; eassumption.
  - now injection E2 as <-.
Qed.

Lemma advance_ok (items : list Item) (symbol : jsstring) :
  okItems g items -> okItems g (advance items symbol).
Proof.
  intros Hi it Hit. unfold advance in Hit. apply in_flat_map in Hit as (item & Hitem & Hit).
  destruct (_ && _); [|destruct Hit]. destruct Hit as [<- | []].
  exact (Hi _ Hitem).
Qed.

Lemma goto_ok (fuel : nat) (items r : list Item) (symbol : jsstring) :
  okItems g items -> goto fuel g items symbol = Ret r -> okItems g r.
Proof. intros Hi. unfold goto. apply closure_ok. now apply advance_ok. Qed.

Lemma exploreSymbol_ok (fuel : nat) (state : State) (acc acc' : Collection)
    (symbol : jsstring) :
  okState g state -> okCollection g acc ->
  exploreSymbol fuel g state acc symbol = Ret acc' -> okCollection g acc'.
Proof.
  intros [Hs _] [Ha Hid]. unfold exploreSymbol. intros E.
  apply bindRun_Ret in E as (gotoItems & E1 & E2).
  apply goto_ok in E1; [|assumption].
  destruct (0 <? List.length gotoItems); [|injection E2 as <-; now split].
  destruct (snd acc !! getStateSignature gotoItems); injection E2 as <-; [now split|].
  split; simpl.
  - intros st Hst. apply in_app_or in Hst as [Hst | [<- | []]]; [now apply Ha|].
    split; simpl; [assumption|].
    intros it Hit. unfold kernelOf in Hit. apply filter_In in Hit as [Hit _]. now apply E1.
  - intros i st Hi. destruct (decide (i < List.length (fst acc))) as [Hlt | Hge].
    + rewrite lookup_app_l in Hi by assumption. now apply Hid.
    + rewrite lookup_app_r in Hi by lia.
      destruct (i - List.length (fst acc)) as [|k] eqn:Ek; simpl in Hi; [|discriminate].
      injection Hi as <-. simpl. lia.
Qed.

Lemma exploreStates_ok (fuel : nat) :
  forall i acc states,
    okCollection g acc -> exploreStates fuel g i acc = Ret states ->
    okCollection g (states, snd acc).
Proof.
  induction fuel as [|fuel IH]; intros i acc states Ha; simpl; [discriminate|].
  destruct (fst acc !! i) as [state|] eqn:Ei.
  - intros E. apply bindRun_Ret in E as (acc' & E1 & E2).
    assert (Hstate : okState g state).
    { apply Ha. apply list_elem_of_In. eapply list_elem_of_lookup_2, Ei. }
    assert (Ha' : okCollection g acc').
    { revert E1. apply forEach_invariant; [|assumption].
      intros s x s' _ Hs. now apply exploreSymbol_ok. }
    apply IH in E2; [|assumption]. destruct E2 as [H1 H2]. now split.
  - intros E. injection E as <-. destruct Ha. now split.
Qed.

Lemma generateClrItems_ok (fuel : nat) (states : list State) :
  In dollar (Grammar.terminals g) ->
  generateClrItems fuel g = Ret states -> okCollection g (states, ∅).
Proof.
  intros Hd. unfold generateClrItems.
  destruct (Grammar.productions g) as [|augmented ps] eqn:Ep; [discriminate|].
  intros E. apply bindRun_Ret in E as (initialClosure & E1 & E2).
  assert (H0 : okItems g [Item.mk augmented 0 [dollar]]).
  { intros it [<- | []]. split; simpl.
    - rewrite Ep. now left.
    - now exists dollar. }
  apply closure_ok in E1; [|assumption].
  apply exploreStates_ok in E2.
  - destruct E2. now split.
  - split; simpl.
    + intros st [<- | []]. now split.
    + intros [|i] st Hi; simpl in Hi; [|discriminate]. now injection Hi as <-.
Qed.

End ItemInvariant.

(** C10: in every state returned by [generateClrItems] on a grammar
    returned by [parseGrammar], every item has exactly one lookahead, and it
    is a terminal of the grammar. *)
Theorem generateClrItems_single_lookahead
    (input : jsstring) (g : Grammar) (fuel : nat) (states : list State)
    (state : State) (item : Item) :
  parsed input g ->
  generateClrItems fuel g = Ret states ->
  In state states ->
  In item (State.items state) ->
  List.length (Item.lookahead item) = 1
  /\ exists l, Item.lookahead item = [l] /\ In l (Grammar.terminals g).
Proof.
  intros Hg Hs Hstate Hitem.
  apply parsed_shape in Hg as (_ & _ & _ & _ & _ & Hd).
  destruct (generateClrItems_ok g fuel states Hd Hs) as [H _].
  destruct (H state Hstate) as [Hi _].
  destruct (Hi item Hitem) as [_ (l & El & Hl)].
  split; [now rewrite El | now exists l].
Qed.

Lemma generateClrItems_single_lookahead_witness :
  let state := nth 2 (statesOf 50 sampleGrammar) (State.mk 0 [] []) in
  let item := nth 1 (State.items state) (startItem sampleGrammar 0 dollar) in
  List.length (Item.lookahead item) = 1
  /\ exists l, Item.lookahead item = [l] /\ In l (Grammar.terminals sampleGrammar).
Proof.
  intros state item.
  apply (generateClrItems_single_lookahead
           (js "S -> A A" ++ nl ++ js "A -> a A" ++ nl ++ js "A -> b")
           sampleGrammar 50 (statesOf 50 sampleGrammar) state item).
  - right. vm_compute. reflexivity.
  - vm_compute. reflexivity.
  - vm_compute. do 2 right. left. reflexivity.
  - vm_compute. right. left. reflexivity.
Defined.

(** ** The parsing table *)

Lemma setCell_cell {V} (table table' : gmap jsstring (gmap jsstring V))
    (row key : jsstring) (v : V) :
  setCell table row key v = Ret table' ->
  forall row' key',
    cell table' row' key'
    = if decide (row' = row /\ key' = key) then Some v else cell table row' key'.
Proof.
  unfold setCell. destruct (table !! row) as [r|] eqn:Er; [|discriminate].
  intros E. injection E as <-. intros row' key'. unfold cell.
  destruct (decide (row' = row)) as [-> | Hr].
  - rewrite lookup_insert_eq, Er.
    destruct (decide (key' = key)) as [-> | Hk].
    + rewrite lookup_insert_eq. destruct (decide _) as [_ | H]; [reflexivity | tauto].
    + rewrite lookup_insert_ne by congruence.
      destruct (decide _) as [[_ H] | _]; [contradiction | reflexivity].
  - rewrite lookup_insert_ne by congruence.
    destruct (decide _) as [[H _] | _]; [contradiction | reflexivity].
Qed.

Lemma cell_getProperty (actions : gmap jsstring (gmap jsstring Action))
    (row key : jsstring) (r : gmap jsstring Action) :
  actions !! row = Some r ->
  match getProperty r key with
  | Own a => cell actions row key = Some a
  | _ => cell actions row key = None
  end.
Proof.
  intros Er. unfold cell, getProperty. rewrite Er.
  destruct (r !! key); [reflexivity|]. now destruct (includes key objectPrototypeKeys).
Qed.

Section ShiftWins.
Variable grammar : Grammar.

(** A reduce never replaces a shift. *)
Lemma addReduce_keeps_shift (row : jsstring) (productionId : nat)
    (actions actions' : gmap jsstring (gmap jsstring Action))
    (lookahead row' key' : jsstring) (k : nat) :
  cell actions row' key' = Some (Shift k) ->
  addReduce row productionId actions lookahead = Ret actions' ->
  cell actions' row' key' = Some (Shift k).
Proof.
  intros Hc. unfold addReduce. destruct (actions !! row) as [r|] eqn:Er; [|discriminate].
  pose proof (cell_getProperty actions row lookahead r Er) as Hp.
  assert (Hset : setCell actions row lookahead (Reduce productionId) = Ret actions' ->
                 (row' = row /\ key' = lookahead -> False) ->
                 cell actions' row' key' = Some (Shift k)).
  { intros E Hne. rewrite (setCell_cell _ _ _ _ _ E).
    destruct (decide _); [tauto | assumption]. }
  destruct (getProperty r lookahead) as [a| |].
  - destruct (isShift a) eqn:Ea; simpl.
    + intros E. now injection E as <-.
    + intros E. apply Hset; [assumption|]. intros [-> ->].
      rewrite Hp in Hc. injection Hc as ->. discriminate.
  - discriminate.
  - intros E. apply Hset; [assumption|]. intros [-> ->]. congruence.
Qed.

Lemma addItemActions_keeps_shift (stateId : nat)
    (actions actions' : gmap jsstring (gmap jsstring Action))
    (item : Item) (row' key' : jsstring) (k : nat) :
  key' <> dollar ->
  cell actions row' key' = Some (Shift k) ->
  addItemActions grammar stateId actions item = Ret actions' ->
  cell actions' row' key' = Some (Shift k).
Proof.
  intros Hk Hc. unfold addItemActions.
  destruct (_ =? _); [|intros E; now injection E as <-].
  destruct (_ && _).
  - intros E. rewrite (setCell_cell _ _ _ _ _ E).
    destruct (decide _) as [[_ H] | _]; [contradiction | assumption].
  - apply (forEach_invariant (fun a => cell a row' key' = Some (Shift k))); [|assumption].
    intros a l a' _ Ha. now apply addReduce_keeps_shift.
Qed.

(** The second phase of [generateParsingTable] keeps every shift that is
    not in the end-marker column. *)
Lemma reducePhase_keeps_shift (states : list State)
    (actions actions' : gmap jsstring (gmap jsstring Action))
    (row' key' : jsstring) (k : nat) :
  key' <> dollar ->
  cell actions row' key' = Some (Shift k) ->
  forEach (addStateActions grammar) states actions = Ret actions' ->
  cell actions' row' key' = Some (Shift k).
Proof.
  intros Hk.
  apply (forEach_invariant (fun a => cell a row' key' = Some (Shift k))).
  intros a state a' _ Ha. unfold addStateActions.
  apply (forEach_invariant (fun a => cell a row' key' = Some (Shift k))); [|assumption].
  intros a1 item a2 _ Ha1. now apply addItemActions_keeps_shift.
Qed.

Lemma initTables_empty (states : list State) (row key : jsstring) :
  cell (fst (initTables states)) row key = None.
Proof.
  unfold initTables.
  apply (fold_left_invariant (fun t : Tables => cell (fst t) row key = None)).
  - intros t state _ Ht. simpl. unfold cell in *.
    destruct (decide (row = natToString (State.id state))) as [-> | Hr].
    + rewrite lookup_insert_eq. apply lookup_empty.
    + now rewrite lookup_insert_ne by congruence.
  - unfold cell. simpl. now rewrite lookup_empty.
Qed.

Lemma shiftPhase_fromEdges (states : list State) (dfa : Dfa) (t : Tables) :
  shiftPhase states dfa grammar = Ret t -> fromEdges (Dfa.edges dfa) t.
Proof.
  unfold shiftPhase. generalize (Dfa.edges dfa). intros edges.
  assert (H : forall done todo t0 t1,
             fromEdges done t0 -> forEach (addEdge grammar) todo t0 = Ret t1 ->
             fromEdges (done ++ todo) t1).
  { intros done todo. revert done. induction todo as [|edge todo IH]; intros done t0 t1 H0; simpl.
    - intros E. injection E as <-. now rewrite app_nil_r.
    - intros E. apply bindRun_Ret in E as (t2 & E1 & E2).
      replace (done ++ edge :: todo) with ((done ++ [edge]) ++ todo)
        by now rewrite <- app_assoc.
      eapply IH; [|exact E2].
      intros row key a Ha. unfold addEdge in E1.
      destruct (includes (Edge.label edge) (Grammar.terminals grammar)).
      + apply bindRun_Ret in E1 as (actions & E3 & E4). injection E4 as <-. simpl in Ha.
        rewrite (setCell_cell _ _ _ _ _ E3) in Ha.
        destruct (decide _) as [[_ ->] | _].
        * injection Ha as <-. exists edge.
          split; [apply in_or_app; right; now left | now split].
        * destruct (H0 _ _ _ Ha) as (e & He & El). exists e. split; [|assumption].
          apply in_or_app. now left.
      + assert (Hsame : fst t2 = fst t0).
        { destruct (includes (Edge.label edge) (Grammar.nonTerminals grammar)).
          - apply bindRun_Ret in E1 as (gotos & _ & E4). now injection E4 as <-.
          - now injection E1 as <-. }
        rewrite Hsame in Ha. destruct (H0 _ _ _ Ha) as (e & He & El).
        exists e. split; [|assumption]. apply in_or_app. now left. }
  intros E. apply (H [] edges (initTables states) t); [|assumption].
  intros row key a Ha. rewrite initTables_empty in Ha. discriminate.
Qed.

End ShiftWins.

(** ** The labels of the automaton *)

Lemma symbolsAfterDot_In (items : list Item) (symbol : jsstring) :
  In symbol (symbolsAfterDot items) ->
  exists item, In item items
    /\ Item.dotPosition item < List.length (Production.rhs (Item.production item))
    /\ symbol = nth (Item.dotPosition item) (Production.rhs (Item.production item)) [].
Proof.
  unfold symbolsAfterDot.
  assert (H : forall todo done symbols,
             (forall s, In s symbols -> exists item, In item done
                /\ Item.dotPosition item < List.length (Production.rhs (Item.production item))
                /\ s = nth (Item.dotPosition item) (Production.rhs (Item.production item)) []) ->
             forall s,
               In s (fold_left (fun symbols item =>
                       let rhs := Production.rhs (Item.production item) in
                       if Item.dotPosition item <? List.length rhs
                       then setAdd (nth (Item.dotPosition item) rhs []) symbols
                       else symbols) todo symbols) ->
               exists item, In item (done ++ todo)
                /\ Item.dotPosition item < List.length (Production.rhs (Item.production item))
                /\ s = nth (Item.dotPosition item) (Production.rhs (Item.production item)) []).
  { induction todo as [|item todo IH]; intros done symbols H0 s; simpl.
    - rewrite app_nil_r. apply H0.
    - replace (done ++ item :: todo) with ((done ++ [item]) ++ todo)
        by now rewrite <- app_assoc.
      apply IH. intros s' Hs'.
      destruct (Item.dotPosition item <? _) eqn:El.
      + apply In_setAdd in Hs' as [-> | Hs'].
        * exists item. split; [apply in_or_app; right; now left|].
          split; [now apply Nat.ltb_lt | reflexivity].
        * destruct (H0 _ Hs') as (it & Hit & H). exists it.
          split; [apply in_or_app; now left | assumption].
      + destruct (H0 _ Hs') as (it & Hit & H). exists it.
        split; [apply in_or_app; now left | assumption]. }
  apply (H items [] []). intros s [].
Qed.

Section DfaLabels.
Variable g : Grammar.
Variable states : list State.

Lemma edgeFor_ok (fuel : nat) (state : State) (edges edges' : list Edge)
    (symbol : jsstring) :
  In state states -> In symbol (symbolsAfterDot (State.items state)) ->
  okEdges states edges ->
  edgeFor fuel g states state edges symbol = Ret edges' -> okEdges states edges'.
Proof.
  intros Hs Hsym He. unfold edgeFor. intros E.
  apply bindRun_Ret in E as (gotoItems & _ & E).
  destruct (0 <? List.length gotoItems); [|now injection E as <-].
  destruct (List.find _ states) as [targetState|]; injection E as <-; [|assumption].
  intros edge Hedge. apply in_app_or in Hedge as [Hedge | [<- | []]]; [now apply He|].
  exists state. now repeat split.
Qed.

Lemma generateDfa_ok (fuel : nat) (dfa : Dfa) :
  generateDfa fuel states g = Ret dfa -> okEdges states (Dfa.edges dfa).
Proof.
  unfold generateDfa. intros E. apply bindRun_Ret in E as (edges & E1 & E2).
  injection E2 as <-. simpl. revert E1.
  apply (forEach_invariant (okEdges states)); [|intros edge []].
  intros edges0 state edges1 Hstate H0.
  assert (H : forall symbols, (forall s, In s symbols ->
               In s (symbolsAfterDot (State.items state))) ->
             forEach (edgeFor fuel g states state) symbols edges0 = Ret edges1 ->
             okEdges states edges1).
  { intros symbols Hsub. apply (forEach_invariant (okEdges states)); [|assumption].
    intros e1 symbol e2 Hsym He1. apply edgeFor_ok; auto. }
  apply H. auto.
Qed.

End DfaLabels.

(** In the pipeline no edge is labelled with the end marker: labels are
    symbols of right-hand sides, which passed the scan of [parseGrammar]. *)
Lemma pipeline_no_dollar_edge (input : jsstring) (g : Grammar) (fuel fuel' : nat)
    (states : list State) (dfa : Dfa) (edge : Edge) :
  parsed input g ->
  generateClrItems fuel g = Ret states ->
  generateDfa fuel' states g = Ret dfa ->
  In edge (Dfa.edges dfa) -> Edge.label edge <> dollar.
Proof.
  intros Hg Hs Hd Hedge.
  pose proof (parsed_shape _ _ Hg) as (_ & _ & _ & _ & _ & Hdollar).
  destruct (generateClrItems_ok g fuel states Hdollar Hs) as [Hok _].
  destruct (generateDfa_ok g states fuel' dfa Hd edge Hedge) as (state & Hstate & _ & Hl).
  apply symbolsAfterDot_In in Hl as (item & Hitem & Hlt & ->).
  destruct (Hok state Hstate) as [Hitems _]. destruct (Hitems item Hitem) as [Hp _].
  destruct (parsed_rhs_good _ _ _ Hg Hp) as [_ Hgood].
  apply goodSymbol_not_dollar. rewrite List.Forall_forall in Hgood. apply Hgood.
  now apply nth_In.
Qed.

(** C2: in the table built from a grammar returned by [parseGrammar], a
    cell that holds a shift after the edges are processed holds the same
    shift in the returned table, whatever reduces the items of the state
    call for. *)
Theorem shift_wins_over_reduce (input : jsstring) (g : Grammar) (fuel fuel' : nat)
    (states : list State) (dfa : Dfa) (t : Tables) (table : ParsingTable)
    (row key : jsstring) (k : nat) :
  parsed input g ->
  generateClrItems fuel g = Ret states ->
  generateDfa fuel' states g = Ret dfa ->
  shiftPhase states dfa g = Ret t ->
  generateParsingTable states dfa g = Ret table ->
  cell (fst t) row key = Some (Shift k) ->
  cell (ParsingTable.actions table) row key = Some (Shift k).
Proof.
  intros Hg Hs Hd Ht Htable Hc.
  unfold generateParsingTable in Htable. fold (shiftPhase states dfa g) in Htable.
  rewrite Ht in Htable. simpl in Htable.
  apply bindRun_Ret in Htable as (actions & Ha & E). injection E as <-. simpl.
  eapply reducePhase_keeps_shift; [|exact Hc|exact Ha].
  destruct (shiftPhase_fromEdges g states _ t Ht row key _ Hc) as (edge & Hedge & <- & _).
  eapply pipeline_no_dollar_edge; eassumption.
Qed.

(** State 8 of the dangling else holds the complete item [S -> i S •] with
    lookahead [e] and has an edge on [e]: the cell stays the shift. *)
Lemma shift_wins_over_reduce_witness :
  existsb (fun item =>
      (Item.dotPosition item =? List.length (Production.rhs (Item.production item)))
      && (Production.id (Item.production item) =? 2)
      && arraysEqual (Item.lookahead item) [js "e"])
    (State.items (nth 8 danglingStates (State.mk 0 [] []))) = true
  /\ cell (ParsingTable.actions danglingTable) (natToString 8) (js "e") = Some (Shift 10).
Proof.
  split.
  - vm_compute. reflexivity.
  - apply (shift_wins_over_reduce danglingText danglingGrammar 100 100 danglingStates
             danglingDfa danglingShifts danglingTable (natToString 8) (js "e") 10).
    + right. vm_compute. reflexivity.
    + vm_compute. reflexivity.
    + vm_compute. reflexivity.
    + vm_compute. reflexivity.
    + vm_compute. reflexivity.
    + vm_compute. reflexivity.
Defined.

(** ** Accept *)

Lemma codeUnits_inj (la lb : list ascii) :
  List.map N_of_ascii la = List.map N_of_ascii lb -> la = lb.
Proof.
  revert lb. induction la as [|x la IH]; intros [|y lb]; simpl; try discriminate;
    [reflexivity|].
  intros H. injection H as Hx Hl. f_equal; [|now apply IH].
  rewrite <- (ascii_N_embedding x), <- (ascii_N_embedding y). now rewrite Hx.
Qed.

Lemma js_inj (a b : string) : js a = js b -> a = b.
Proof.
  unfold js. intros H. apply codeUnits_inj in H.
  rewrite <- (string_of_list_ascii_of_string a), <- (string_of_list_ascii_of_string b).
  now rewrite H.
Qed.

(** Distinct state numbers name distinct rows. *)
Lemma natToString_inj (n m : nat) : natToString n = natToString m -> n = m.
Proof.
  unfold natToString. intros H. apply js_inj in H.
  assert (E : Some (Nat.to_uint n) = Some (Nat.to_uint m)).
  { rewrite <- !NilEmpty.usu. now rewrite H. }
  injection E as E. rewrite <- (DecimalNat.Unsigned.of_to n), <- (DecimalNat.Unsigned.of_to m).
  now rewrite E.
Qed.

Lemma forEach_app {A S} (body : S -> A -> Run S) (l1 l2 : list A) (s : S) :
  forEach body (l1 ++ l2) s = (s1 <~ forEach body l1 s ;; forEach body l2 s1).
Proof.
  revert s. induction l1 as [|x l1 IH]; intros s; simpl; [reflexivity|].
  destruct (body s x) as [s'| |]; simpl; [apply IH | reflexivity | reflexivity].
Qed.

Section AcceptCells.
Variable g : Grammar.

Lemma addReduce_other_cell (row : jsstring) (productionId : nat)
    (actions actions' : gmap jsstring (gmap jsstring Action))
    (lookahead row' key' : jsstring) :
  ~ (row' = row /\ key' = lookahead) ->
  addReduce row productionId actions lookahead = Ret actions' ->
  cell actions' row' key' = cell actions row' key'.
Proof.
  intros Hne. unfold addReduce. destruct (actions !! row) as [r|]; [|discriminate].
  assert (Hset : setCell actions row lookahead (Reduce productionId) = Ret actions' ->
                 cell actions' row' key' = cell actions row' key').
  { intros E. rewrite (setCell_cell _ _ _ _ _ E). destruct (decide _); [tauto | reflexivity]. }
  destruct (getProperty r lookahead) as [a| |]; [|discriminate|assumption].
  destruct (negb (isShift a)); [assumption|]. intros E. now injection E as <-.
Qed.

Lemma addReduce_cell (row : jsstring) (productionId : nat)
    (actions actions' : gmap jsstring (gmap jsstring Action))
    (lookahead row' key' : jsstring) :
  addReduce row productionId actions lookahead = Ret actions' ->
  cell actions' row' key' = cell actions row' key'
  \/ cell actions' row' key' = Some (Reduce productionId).
Proof.
  unfold addReduce. destruct (actions !! row) as [r|]; [|discriminate].
  assert (Hset : setCell actions row lookahead (Reduce productionId) = Ret actions' ->
                 cell actions' row' key' = cell actions row' key'
                 \/ cell actions' row' key' = Some (Reduce productionId)).
  { intros E. rewrite (setCell_cell _ _ _ _ _ E). destruct (decide _); [now right | now left]. }
  destruct (getProperty r lookahead) as [a| |]; [|discriminate|assumption].
  destruct (negb (isShift a)); [assumption|]. intros E. injection E as <-. now left.
Qed.

Lemma addItemActions_acceptsFrom (states : list State) (state : State) (item : Item)
    (actions actions' : gmap jsstring (gmap jsstring Action)) :
  In state states -> In item (State.items state) ->
  acceptsFrom g states actions ->
  addItemActions g (State.id state) actions item = Ret actions' ->
  acceptsFrom g states actions'.
Proof.
  intros Hstate Hitem Ha. unfold addItemActions.
  destruct (_ =? _) eqn:Ec; [|intros E; now injection E as <-].
  destruct (_ && _) eqn:Es.
  - intros E row key. rewrite (setCell_cell _ _ _ _ _ E).
    destruct (decide _) as [[-> ->] | _]; [|apply Ha].
    intros _. split; [reflexivity|]. exists state, item.
    repeat split; try assumption. unfold acceptItem. now rewrite Ec, Es.
  - apply (forEach_invariant (acceptsFrom g states)); [|assumption].
    intros a l a' _ Hacc E row key Hc.
    destruct (addReduce_cell _ _ _ _ _ row key E) as [H | H]; rewrite H in Hc.
    + now apply Hacc.
    + discriminate.
Qed.

Lemma generateParsingTable_acceptsFrom (states : list State) (dfa : Dfa)
    (table : ParsingTable) :
  generateParsingTable states dfa g = Ret table ->
  acceptsFrom g states (ParsingTable.actions table).
Proof.
  unfold generateParsingTable. intros E.
  apply bindRun_Ret in E as (t & Et & E). apply bindRun_Ret in E as (actions & Ea & E).
  injection E as <-. simpl. revert Ea.
  apply (forEach_invariant (acceptsFrom g states)).
  - intros a state a' Hstate Ha. unfold addStateActions.
    assert (H : forall items, (forall it, In it items -> In it (State.items state)) ->
               forEach (addItemActions g (State.id state)) items a = Ret a' ->
               acceptsFrom g states a').
    { intros items Hsub. apply (forEach_invariant (acceptsFrom g states)); [|assumption].
      intros a1 item a2 Hitem Ha1. apply addItemActions_acceptsFrom; auto. }
    apply H. auto.
  - intros row key Hc.
    destruct (shiftPhase_fromEdges g states _ t Et row key _ Hc) as (edge & _ & _ & H).
    discriminate.
Qed.

(** The items of other states leave a row alone. *)
Lemma addItemActions_other_row (stateId : nat) (item : Item)
    (actions actions' : gmap jsstring (gmap jsstring Action)) (row key : jsstring) :
  row <> natToString stateId ->
  addItemActions g stateId actions item = Ret actions' ->
  cell actions' row key = cell actions row key.
Proof.
  intros Hrow. unfold addItemActions.
  destruct (_ =? _); [|intros E; now injection E as <-].
  destruct (_ && _).
  - intros E. rewrite (setCell_cell _ _ _ _ _ E). destruct (decide _); [tauto | reflexivity].
  - apply (forEach_invariant (fun a => cell a row key = cell actions row key)); [|reflexivity].
    intros a l a' _ Ha E. rewrite <- Ha. eapply addReduce_other_cell; [|exact E]. tauto.
Qed.

Lemma addStateActions_other_row (state : State)
    (actions actions' : gmap jsstring (gmap jsstring Action)) (row key : jsstring) :
  row <> natToString (State.id state) ->
  addStateActions g actions state = Ret actions' ->
  cell actions' row key = cell actions row key.
Proof.
  intros Hrow. unfold addStateActions.
  apply (forEach_invariant (fun a => cell a row key = cell actions row key)); [|reflexivity].
  intros a item a' _ Ha E. rewrite <- Ha. eapply addItemActions_other_row; eassumption.
Qed.

(** An accept stays under the items that do not reduce on [$]. *)
Lemma addItemActions_keeps_accept (stateId : nat) (item : Item)
    (actions actions' : gmap jsstring (gmap jsstring Action)) :
  reduceOnDollar g item = false ->
  cell actions (natToString stateId) dollar = Some Accept ->
  addItemActions g stateId actions item = Ret actions' ->
  cell actions' (natToString stateId) dollar = Some Accept.
Proof.
  unfold reduceOnDollar, addItemActions. intros Hr Hc.
  destruct (_ =? _); [|intros E; now injection E as <-].
  destruct (streq _ _ && includes dollar _) eqn:Es.
  - intros E. rewrite (setCell_cell _ _ _ _ _ E). destruct (decide _); [reflexivity | tauto].
  - simpl in Hr.
    apply (forEach_invariant
             (fun a => cell a (natToString stateId) dollar = Some Accept)); [|assumption].
    intros a l a' Hl Ha E. rewrite <- Ha. eapply addReduce_other_cell; [|exact E].
    intros [_ <-]. apply includes_In in Hl. congruence.
Qed.

End AcceptCells.

(** An accept is still there in the returned table when no later item of
    its state reduces on [$]; [n] is the index of the state. *)
Lemma accept_kept (g : Grammar) (states : list State) (dfa : Dfa) (table : ParsingTable)
    (n : nat) (state : State) (pre post : list Item) (item : Item) :
  generateParsingTable states dfa g = Ret table ->
  (forall i st, states !! i = Some st -> State.id st = i) ->
  states !! n = Some state ->
  State.items state = pre ++ item :: post ->
  acceptItem g item = true ->
  (forall it, In it post -> reduceOnDollar g it = false) ->
  cell (ParsingTable.actions table) (natToString (State.id state)) dollar = Some Accept.
Proof.
  intros E Hid Hn Hitems Hacc Hpost. unfold generateParsingTable in E.
  apply bindRun_Ret in E as (t & _ & E). apply bindRun_Ret in E as (actions & Ea & E).
  injection E as <-. simpl.
  rewrite <- (take_drop_middle states n state Hn), forEach_app in Ea.
  apply bindRun_Ret in Ea as (a1 & _ & Ea). simpl in Ea.
  apply bindRun_Ret in Ea as (a2 & Estate & Erest).
  assert (H2 : cell a2 (natToString (State.id state)) dollar = Some Accept).
  { unfold addStateActions in Estate. rewrite Hitems, forEach_app in Estate.
    apply bindRun_Ret in Estate as (a3 & _ & Estate). simpl in Estate.
    apply bindRun_Ret in Estate as (a4 & Eitem & Epost).
    assert (H4 : cell a4 (natToString (State.id state)) dollar = Some Accept).
    { unfold addItemActions in Eitem. unfold acceptItem in Hacc.
      apply andb_prop in Hacc as [Hc Hs]. rewrite Hc, Hs in Eitem.
      rewrite (setCell_cell _ _ _ _ _ Eitem). destruct (decide _); [reflexivity | tauto]. }
    revert Epost.
    apply (forEach_invariant
             (fun a => cell a (natToString (State.id state)) dollar = Some Accept));
      [|assumption].
    intros a it a' Hit Ha. apply addItemActions_keeps_accept; auto. }
  revert Erest.
  apply (forEach_invariant
           (fun a => cell a (natToString (State.id state)) dollar = Some Accept));
    [|assumption].
  intros a st a' Hst Ha E. rewrite <- Ha. eapply addStateActions_other_row; [|exact E].
  intros Heq. apply natToString_inj in Heq.
  apply list_elem_of_In, list_elem_of_lookup_1 in Hst as [j Hj].
  rewrite lookup_drop in Hj. apply Hid in Hj. apply Hid in Hn. lia.
Qed.

Lemma includes_single (x y : jsstring) : includes x [y] = true <-> x = y.
Proof. unfold includes. simpl. rewrite orb_false_r. apply streq_eq. Qed.

(** On the items of the pipeline the test of the source selects the
    complete items of production 0 with lookahead [$]. *)
Lemma acceptItem_augmented (input : jsstring) (g : Grammar) (item : Item) :
  parsed input g -> okItem g item ->
  (acceptItem g item = true <-> augmentedComplete item).
Proof.
  intros Hg [Hp (l & El & _)]. unfold acceptItem, augmentedComplete.
  rewrite !andb_true_iff, Nat.eqb_eq, streq_eq, El, includes_single.
  rewrite (parsed_start_production _ _ _ Hg Hp). split.
  - intros (H1 & H2 & <-). auto.
  - intros (H1 & H2 & H3). injection H3 as <-. auto.
Qed.

(** C1, amended: in the table of a grammar returned by [parseGrammar], an
    accept is only found in the [$] column of a state that holds a complete
    item of production 0 with lookahead [$]; and such a state has the accept
    when no complete item of another production with lookahead [$] comes
    after that item in the item list of the state. *)
Theorem accept_cells (input : jsstring) (g : Grammar) (fuel : nat)
    (states : list State) (dfa : Dfa) (table : ParsingTable) :
  parsed input g ->
  generateClrItems fuel g = Ret states ->
  generateParsingTable states dfa g = Ret table ->
  (forall row key, cell (ParsingTable.actions table) row key = Some Accept ->
     key = dollar
     /\ exists state item, In state states /\ row = natToString (State.id state)
          /\ In item (State.items state) /\ augmentedComplete item)
  /\ (forall state pre item post,
        In state states ->
        State.items state = pre ++ item :: post ->
        augmentedComplete item ->
        (forall it, In it post ->
           Item.dotPosition it = List.length (Production.rhs (Item.production it)) ->
           Item.lookahead it = [dollar] ->
           Production.id (Item.production it) = 0) ->
        cell (ParsingTable.actions table) (natToString (State.id state)) dollar
        = Some Accept).
Proof.
  intros Hg Hs Ht.
  pose proof (parsed_shape _ _ Hg) as (_ & _ & _ & _ & _ & Hdollar).
  destruct (generateClrItems_ok g fuel states Hdollar Hs) as [Hok Hid]. simpl in Hok, Hid.
  split.
  - intros row key Hc.
    destruct (generateParsingTable_acceptsFrom g states dfa table Ht row key Hc)
      as (-> & state & item & Hstate & -> & Hitem & Ha).
    assert (Hit : okItem g item).
    { destruct (Hok state Hstate) as [Hi _]. now apply Hi. }
    split; [reflexivity|]. exists state, item.
    split; [assumption|]. split; [reflexivity|]. split; [assumption|].
    now apply (proj1 (acceptItem_augmented input g item Hg Hit)).
  - intros state pre item post Hstate Hitems Hacc Hpost.
    pose proof Hstate as Hn. apply list_elem_of_In, list_elem_of_lookup_1 in Hn as [n Hn].
    destruct (Hok state Hstate) as [Hi _].
    assert (Hin : forall it, In it (item :: post) -> okItem g it).
    { intros it Hit. apply Hi. rewrite Hitems. apply in_or_app. now right. }
    eapply accept_kept; try eassumption.
    + apply (proj2 (acceptItem_augmented input g item Hg (Hin item (or_introl eq_refl)))).
      assumption.
    + intros it Hit. unfold reduceOnDollar.
      destruct (Item.dotPosition it =? _) eqn:Ec; [|reflexivity]. simpl.
      destruct (Hin it (or_intror Hit)) as [Hp (l & El & _)].
      destruct (includes dollar (Item.lookahead it)) eqn:Ed;
        [|now rewrite andb_false_r].
      rewrite El in Ed. apply includes_single in Ed. subst l.
      apply Nat.eqb_eq in Ec. specialize (Hpost it Hit Ec El).
      apply (parsed_start_production _ _ _ Hg Hp) in Hpost.
      apply streq_eq in Hpost. now rewrite Hpost.
Qed.

(** C1, as stated, fails: state 1 of [S -> S / S -> a] holds the complete
    item of production 0 with lookahead [$], followed by the complete item
    [S -> S •] with lookahead [$]; the cell of state 1 and [$] in the
    returned table is the reduce by production 1. *)
Lemma accept_overwritten_by_reduce :
  parsed cyclicText cyclicGrammar
  /\ generateClrItems 50 cyclicGrammar = Ret cyclicStates
  /\ generateDfa 50 cyclicStates cyclicGrammar = Ret cyclicDfa
  /\ generateParsingTable cyclicStates cyclicDfa cyclicGrammar = Ret cyclicTable
  /\ (exists state item, In state cyclicStates /\ State.id state = 1
        /\ In item (State.items state) /\ augmentedComplete item)
  /\ cell (ParsingTable.actions cyclicTable) (natToString 1) dollar = Some (Reduce 1).
Proof.
  split; [left; vm_compute; reflexivity|].
  split; [vm_compute; reflexivity|].
  split; [vm_compute; reflexivity|].
  split; [vm_compute; reflexivity|].
  split; [|vm_compute; reflexivity].
  exists (nth 1 cyclicStates (State.mk 0 [] [])).
  exists (nth 0 (State.items (nth 1 cyclicStates (State.mk 0 [] [])))
                (startItem cyclicGrammar 0 dollar)).
  split; [vm_compute; tauto|]. split; [vm_compute; reflexivity|].
  split; [vm_compute; tauto|]. vm_compute. repeat split.
Qed.

(** State 1 of the sample grammar holds the complete item of production 0
    and nothing else: its [$] cell is the accept. *)
Lemma accept_cells_witness :
  let state := nth 1 sampleStates (State.mk 0 [] []) in
  let item := nth 0 (State.items state) (startItem sampleGrammar 0 dollar) in
  State.items state = [] ++ item :: [] /\ augmentedComplete item
  /\ cell (ParsingTable.actions sampleTable) (natToString (State.id state)) dollar
     = Some Accept.
Proof.
  intros state item.
  split; [vm_compute; reflexivity|].
  split; [vm_compute; repeat split|].
  assert (Hg : parsed (js "S -> A A" ++ nl ++ js "A -> a A" ++ nl ++ js "A -> b")
                 sampleGrammar) by (right; vm_compute; reflexivity).
  assert (Hs : generateClrItems 50 sampleGrammar = Ret sampleStates)
    by (vm_compute; reflexivity).
  assert (Ht : generateParsingTable sampleStates sampleDfa sampleGrammar = Ret sampleTable)
    by (vm_compute; reflexivity).
  apply (proj2 (accept_cells _ sampleGrammar 50 sampleStates sampleDfa sampleTable Hg Hs Ht)
           state [] item []).
  - vm_compute. right. left. reflexivity.
  - vm_compute. reflexivity.
  - vm_compute. repeat split.
  - intros it [].
Defined.

(** ** The recognizer *)

(** The turn of the loop throws in two cases only: the token names a
    property inherited from [Object.prototype], or the table asks for a
    reduce by a production the grammar does not have. *)
Lemma turn_throws (grammar : Grammar) (parsingTable : ParsingTable)
    (tokens : list jsstring) (c : Config) :
  let currentState := hd VUndef (Config.stack c) in
  let currentToken :=
    match tokens !! Config.pointer c with
    | Some t => VStr t
    | None => VUndef
    end in
  turn grammar parsingTable tokens c = Throw
  <-> lookupAction parsingTable currentState currentToken = Inherited
      \/ exists productionId,
           lookupAction parsingTable currentState currentToken = Own (Reduce productionId)
           /\ Grammar.productions grammar !! productionId = None.
Proof.
  intros currentState currentToken. unfold turn.
  fold currentState. fold currentToken.
  destruct (lookupAction parsingTable currentState currentToken) as [[k|p|]| |].
  - split; [discriminate | intros [H | (p & H & _)]; discriminate].
  - destruct (Grammar.productions grammar !! p) as [production|] eqn:Ep.
    + split.
      * destruct (_ <? _); [discriminate|]. now destruct (lookupGoto _ _ _).
      * intros [H | (q & H & Hq)]; [discriminate|]. injection H as <-. congruence.
    + split; [|reflexivity]. intros _. right. now exists p.
  - split; [discriminate | intros [H | (p & H & _)]; discriminate].
  - split; [now left | reflexivity].
  - split; [discriminate | intros [H | (p & H & _)]; discriminate].
Qed.

(** A missing action is a returned rejection whose last step names the
    state and the token. *)
Lemma turn_no_action (grammar : Grammar) (parsingTable : ParsingTable)
    (tokens : list jsstring) (c : Config) (token : jsstring) :
  tokens !! Config.pointer c = Some token ->
  lookupAction parsingTable (hd VUndef (Config.stack c)) (VStr token) = Undefined ->
  turn grammar parsingTable tokens c
  = Ret (Return (ParseResult.mk false
      (Config.steps c ++
         [js "Error: No action found for state "
          ++ valueString (hd VUndef (Config.stack c))
          ++ js " and token " ++ token]))).
Proof. intros Ht Ha. unfold turn. rewrite Ht, Ha. reflexivity. Qed.

(** The loop keeps a state number on top of the stack (or empties it), so
    the row of the action table is always looked up by a number or by
    [undefined], never by an inherited name. *)
Lemma turn_keeps_state_on_top (grammar : Grammar) (parsingTable : ParsingTable)
    (tokens : list jsstring) (c c' : Config) :
  turn grammar parsingTable tokens c = Ret (Next c') -> stateOnTop (Config.stack c').
Proof.
  unfold turn.
  destruct (lookupAction _ _ _) as [[k|p|]| |]; try discriminate.
  - intros H. injection H as <-. exact I.
  - destruct (Grammar.productions grammar !! p) as [production|]; [|discriminate].
    destruct (_ <? _); [discriminate|].
    destruct (lookupGoto _ _ _); [|discriminate].
    intros H. injection H as <-. exact I.
Qed.

(** No left-hand side of a parsed grammar is the name of an inherited
    property: the goto of a reduce is an own property or missing. *)
Lemma upper_not_inherited (c : N) (s : jsstring) :
  isUpper c = true -> includes (c :: s) objectPrototypeKeys = false.
Proof.
  unfold isUpper. intros H. apply andb_prop in H as [_ H]. apply N.leb_le in H.
  assert (E : forall d, (90 < d)%N -> N.eqb c d = false).
  { intros d Hd. apply N.eqb_neq. lia. }
  unfold includes, objectPrototypeKeys. cbn.
  rewrite !E by lia. reflexivity.
Qed.

Lemma parsed_lhs_not_inherited (input : jsstring) (g : Grammar) (p : Production) :
  parsed input g -> In p (Grammar.productions g) ->
  includes (Production.lhs p) objectPrototypeKeys = false.
Proof.
  intros Hg Hp. apply parsed_shape in Hg as (first & ps & Eps & Hgood & _ & _).
  rewrite Eps in Hp. rewrite List.Forall_forall in Hgood.
  assert (Hname : forall q, In q (first :: ps) ->
            exists c s, Production.lhs q = c :: s /\ isUpper c = true).
  { intros q Hq. apply Hgood in Hq as (Hl & _).
    destruct (Production.lhs q) as [|c s]; [discriminate|].
    simpl in Hl. apply andb_prop in Hl as [Hc _]. now exists c, s. }
  destruct Hp as [<- | Hp].
  - destruct (Hname first (or_introl eq_refl)) as (c & s & E & Hc).
    simpl. rewrite E. simpl. now apply upper_not_inherited.
  - destruct (Hname p Hp) as (c & s & E & Hc). rewrite E. now apply upper_not_inherited.
Qed.

(** C5: on the table of the sample grammar and the input [constructor],
    [parseString] throws at the first turn: the row of state 0 has no own
    property of that name, the inherited one is a function, which is not
    falsy and has no [startsWith]. *)
Theorem parseString_throws_on_inherited_name (fuel : nat) :
  parsed (js "S -> A A" ++ nl ++ js "A -> a A" ++ nl ++ js "A -> b") sampleGrammar
  /\ buildTable 50 sampleGrammar = Ret sampleTable
  /\ cell (ParsingTable.actions sampleTable) (natToString 0) (js "constructor") = None
  /\ parseString (S fuel) sampleGrammar sampleTable (js "constructor") = Throw.
Proof.
  split; [right; vm_compute; reflexivity|].
  split; [vm_compute; reflexivity|].
  split; [vm_compute; reflexivity|].
  unfold parseString. cbn [parseLoop].
  replace (turn sampleGrammar sampleTable (splitWs (js "constructor") ++ [dollar])
             (Config.mk [VNum 0] 0 []))
    with (@Throw Turn) by (vm_compute; reflexivity).
  reflexivity.
Qed.

(** The other tokens of that kind. *)
Lemma parseString_throws_on_toString :
  parseString 10 sampleGrammar sampleTable (js "a toString") = Throw.
Proof. vm_compute. reflexivity. Qed.

(** A table that asks for a reduce by a production the grammar does not
    have makes [parseString] read [rhs] of [undefined]. *)
Lemma parseString_throws_on_unknown_production :
  let table := ParsingTable.mk {[ natToString 0 := {[ js "a" := Reduce 7 ]} ]} ∅ [] [] [0] in
  parseString 10 sampleGrammar table (js "a") = Throw.
Proof. vm_compute. reflexivity. Qed.

(** The scenarios of the sample grammar. *)
Lemma sample_scenarios :
  List.map (fun input =>
      match parseString 50 sampleGrammar sampleTable (js input) with
      | Ret r => Some (ParseResult.isValid r)
      | _ => None
      end) ["b b"; "a b b"; "b"; "a a"]%string
  = [Some true; Some true; Some false; Some false].
Proof. vm_compute. reflexivity. Qed.

(** A rejection names the state and the token. *)
Lemma sample_rejection :
  parseString 50 sampleGrammar sampleTable (js "b")
  = Ret (ParseResult.mk false
           [js "Shift: b and go to state 4";
            js "Error: No action found for state 4 and token $"]).
Proof. vm_compute. reflexivity. Qed.

(** A reduce by an epsilon production empties the stack ([splice(-0)]), and
    the goto of [undefined] is missing: a returned rejection. *)
Lemma epsilon_reduce_empties_the_stack :
  let g := grammarOf (Part1.parseGrammar (js "S -> a A" ++ nl ++ js "A -> " ++ eps)) in
  let table := retOr (ParsingTable.mk ∅ ∅ [] [] []) (buildTable 50 g) in
  parseString 50 g table (js "a")
  = Ret (ParseResult.mk false
           [js "Shift: a and go to state 2";
            js "Error: No goto state found for A in state undefined"]).
Proof. vm_compute. reflexivity. Qed.

(** * Further properties *)

(** ** parseGrammar: numbering and symbol sets *)

Lemma setAdd_NoDup (x : jsstring) (s : list jsstring) : NoDup s -> NoDup (setAdd x s).
Proof.
  intros H. unfold setAdd. destruct (includes x s) eqn:E; [assumption|].
  apply NoDup_app. split; [assumption|]. split.
  - intros y Hy Hx. apply list_elem_of_In in Hy. apply list_elem_of_In in Hx.
    destruct Hx as [<- | []]. apply includes_In in Hy. congruence.
  - apply NoDup_singleton.
Qed.

Lemma dropWhile_suffix (p : N -> bool) (s : jsstring) :
  exists pre, s = pre ++ dropWhile p s.
Proof.
  induction s as [|c s [pre IH]]; simpl; [now exists []|].
  destruct (p c); [|now exists []]. exists (c :: pre). simpl. now f_equal.
Qed.

Lemma dropWhile_head (p : N -> bool) (s : jsstring) (c : N) (t : jsstring) :
  dropWhile p s = c :: t -> p c = false.
Proof.
  induction s as [|d s IH]; simpl; [discriminate|].
  destruct (p d) eqn:E; [assumption|]. intros H. injection H as <- _. assumption.
Qed.

(** The trimmed string neither starts nor ends with white space. *)
Lemma trim_ends (s : jsstring) :
  trim s <> [] ->
  isWhiteSpace (hd 32%N (trim s)) = false /\ isWhiteSpace (List.last (trim s) 32%N) = false.
Proof.
  unfold trim. set (u := dropWhile isWhiteSpace s).
  destruct (dropWhile isWhiteSpace (rev u)) as [|c v] eqn:Ev; [simpl; congruence|].
  intros _. pose proof (dropWhile_head _ _ _ _ Ev) as Hc. split.
  - destruct (dropWhile_suffix isWhiteSpace (rev u)) as [pre Hpre]. rewrite Ev in Hpre.
    assert (Eu : u = rev (c :: v) ++ rev pre).
    { rewrite <- rev_app_distr, <- Hpre. now rewrite rev_involutive. }
    destruct (rev (c :: v)) as [|d w] eqn:Er.
    + apply (f_equal (@List.length N)) in Er. rewrite length_rev in Er. discriminate.
    + simpl. simpl in Eu. unfold u in Eu.
      now apply (dropWhile_head _ _ _ _ Eu).
  - simpl rev. now rewrite last_last.
Qed.

Lemma splitWsAux_cons (b : bool) (c : N) (s : jsstring) :
  splitWsAux b (c :: s)
  = if isWhiteSpace c then
      if b then splitWsAux true s else [] :: splitWsAux true s
    else match splitWsAux false s with
         | w :: ws => (c :: w) :: ws
         | [] => [[c]]
         end.
Proof. reflexivity. Qed.

(** Splitting at white space a string that ends with another code unit:
    only the first piece can be empty, and only when the string starts with
    white space. *)
Lemma splitWsAux_pieces (s : jsstring) :
  isWhiteSpace (List.last s 32%N) = false ->
  (forall b, Forall (fun w => w <> []) (tl (splitWsAux b s)))
  /\ Forall (fun w => w <> []) (splitWsAux true s)
  /\ (isWhiteSpace (hd 32%N s) = false -> Forall (fun w => w <> []) (splitWsAux false s)).
Proof.
  induction s as [|c s IH]; [discriminate|].
  destruct s as [|d s].
  - simpl. intros Hc. rewrite Hc. repeat split; intros; repeat constructor; discriminate.
  - intros Hl. change (List.last (c :: d :: s) 32%N) with (List.last (d :: s) 32%N) in Hl.
    destruct (IH Hl) as (IH1 & IH2 & IH3).
    destruct (isWhiteSpace c) eqn:Ec.
    + repeat split.
      * intros [|]; rewrite (splitWsAux_cons _ c (d :: s)), Ec; [apply IH1 | exact IH2].
      * rewrite (splitWsAux_cons _ c (d :: s)), Ec. exact IH2.
      * simpl hd. congruence.
    + assert (H : forall b, Forall (fun w => w <> []) (splitWsAux b (c :: d :: s))).
      { intros b. rewrite (splitWsAux_cons _ c (d :: s)), Ec.
        pose proof (IH1 false) as Ht.
        destruct (splitWsAux false (d :: s)) as [|w ws]; repeat constructor;
          try discriminate. exact Ht. }
      repeat split; intros; try apply H.
      specialize (H b). destruct (splitWsAux b (c :: d :: s)); [constructor|].
      now inversion H.
Qed.

(** No symbol of a right-hand side is the empty string. *)
Lemma splitRhs_symbols_nonempty (rhsStr : jsstring) :
  Forall (fun w => w <> []) (splitRhs rhsStr).
Proof.
  unfold splitRhs.
  destruct (streq (trim rhsStr) eps || streq (trim rhsStr) []) eqn:E;
    [repeat constructor; discriminate|].
  apply orb_false_elim in E as [_ E]. apply streq_neq in E.
  destruct (trim_ends rhsStr E) as [Hh Hl].
  now apply (splitWsAux_pieces (trim rhsStr) Hl).
Qed.

Lemma classifySymbols_sets rhs ts nts ts' nts' :
  classifySymbols rhs ts nts = inr (ts', nts') ->
  (forall x, In x ts' -> In x ts \/ (In x rhs /\ isTerminalName x = true))
  /\ (forall x, In x nts' -> In x nts \/ (In x rhs /\ isNonTerminalName x = true))
  /\ (forall x, In x ts -> In x ts') /\ (forall x, In x nts -> In x nts')
  /\ (NoDup ts -> NoDup ts') /\ (NoDup nts -> NoDup nts')
  /\ (forall s, In s rhs -> s = eps \/ s = [] \/ In s ts' \/ In s nts').
Proof.
  revert ts nts. induction rhs as [|symbol rest IH]; intros ts nts; simpl.
  - intros H. injection H as <- <-. repeat split; auto. intros s [].
  - assert (Hstep : forall ts1 nts1,
              (forall x, In x ts1 -> In x ts \/ (x = symbol /\ isTerminalName x = true)) ->
              (forall x, In x nts1 -> In x nts \/ (x = symbol /\ isNonTerminalName x = true)) ->
              (forall x, In x ts -> In x ts1) -> (forall x, In x nts -> In x nts1) ->
              (NoDup ts -> NoDup ts1) -> (NoDup nts -> NoDup nts1) ->
              (symbol = eps \/ symbol = [] \/ In symbol ts1 \/ In symbol nts1) ->
              classifySymbols rest ts1 nts1 = inr (ts', nts') ->
              (forall x, In x ts' -> In x ts \/ (In x (symbol :: rest) /\ isTerminalName x = true))
              /\ (forall x, In x nts' ->
                    In x nts \/ (In x (symbol :: rest) /\ isNonTerminalName x = true))
              /\ (forall x, In x ts -> In x ts') /\ (forall x, In x nts -> In x nts')
              /\ (NoDup ts -> NoDup ts') /\ (NoDup nts -> NoDup nts')
              /\ (forall s, In s (symbol :: rest) ->
                    s = eps \/ s = [] \/ In s ts' \/ In s nts')).
    { intros ts1 nts1 A1 A2 A3 A4 A5 A6 A7 H.
      destruct (IH _ _ H) as (B1 & B2 & B3 & B4 & B5 & B6 & B7).
      repeat split.
      - intros x Hx. destruct (B1 x Hx) as [Hx1 | [Hx1 Hn]].
        + destruct (A1 x Hx1) as [? | [-> ?]]; [now left | right; split; [now left | assumption]].
        + right. split; [now right | assumption].
      - intros x Hx. destruct (B2 x Hx) as [Hx1 | [Hx1 Hn]].
        + destruct (A2 x Hx1) as [? | [-> ?]]; [now left | right; split; [now left | assumption]].
        + right. split; [now right | assumption].
      - auto.
      - auto.
      - auto.
      - auto.
      - intros s [<- | Hs]; [|now apply B7].
        destruct A7 as [? | [? | [? | ?]]]; auto. }
    destruct (streq symbol eps) eqn:E1.
    { apply Hstep; auto. left. now apply streq_eq. }
    destruct (isTerminalName symbol) eqn:E2.
    { apply Hstep; auto.
      - intros x Hx. apply In_setAdd in Hx as [-> | Hx]; auto.
      - intros x Hx. apply In_setAdd. now right.
      - apply setAdd_NoDup.
      - right. right. left. apply In_setAdd. now left. }
    destruct (isNonTerminalName symbol) eqn:E3.
    { apply Hstep; auto.
      - intros x Hx. apply In_setAdd in Hx as [-> | Hx]; auto.
      - intros x Hx. apply In_setAdd. now right.
      - apply setAdd_NoDup.
      - right. right. right. apply In_setAdd. now left. }
    destruct (streq symbol []) eqn:E4; simpl; [|discriminate].
    apply Hstep; auto. right. left. now apply streq_eq.
Qed.

Section LinesInvariant.
Variable storeRhs : list jsstring -> list jsstring.
Hypothesis Hstore : keepsOrEmpties storeRhs.

Lemma parseLines_invariant lines :
  forall i ps ts nts ps' ts' nts',
    parseLines storeRhs lines i ps ts nts = inr (ps', ts', nts') ->
    linesInvariant i ps ts nts ->
    linesInvariant (i + List.length lines) ps' ts' nts'.
Proof.
  induction lines as [|line rest IH]; intros i ps ts nts ps' ts' nts'; simpl.
  - intros H. injection H as <- <- <-. now rewrite Nat.add_0_r.
  - destruct (matchProduction line) as [[lhs rhsStr]|] eqn:Hm; [|discriminate].
    destruct (classifySymbols _ _ _) as [e|[ts2 nts2]] eqn:Hc; [discriminate|].
    intros H (Hlen & Hid & Ht & Hdt & Hn & Hdn & Hcov).
    replace (i + S (List.length rest)) with (S i + List.length rest) by lia.
    apply (IH _ _ _ _ _ _ _ H). clear H IH.
    destruct (classifySymbols_sets _ _ _ _ _ Hc) as (B1 & B2 & B3 & B4 & B5 & B6 & B7).
    pose proof (matchProduction_lhs _ _ _ Hm) as Hlhs.
    assert (Hn1 : forall n, In n (setAdd lhs nts) -> isNonTerminalName n = true).
    { intros n Hin. apply In_setAdd in Hin as [-> | Hin]; auto. }
    unfold linesInvariant.
    split; [rewrite length_app; simpl; lia|].
    split.
    { intros k p Hk. destruct (decide (k < List.length ps)) as [Hlt | Hge].
      - rewrite lookup_app_l in Hk by assumption. now apply Hid.
      - rewrite lookup_app_r in Hk by lia.
        destruct (k - List.length ps) as [|j] eqn:Ej; simpl in Hk; [|discriminate].
        injection Hk as <-. simpl. lia. }
    split; [intros t Hin; destruct (B1 t Hin) as [? | [_ ?]]; auto|].
    split; [auto|].
    split; [intros n Hin; destruct (B2 n Hin) as [? | [_ ?]]; auto|].
    split; [apply B6; now apply setAdd_NoDup|].
    intros p Hp. apply in_app_or in Hp as [Hp | [<- | []]].
    + destruct (Hcov p Hp) as [Hl Hs]. split.
      * apply B4, In_setAdd. now right.
      * intros s Hin. destruct (Hs s Hin) as [Hne [? | [? | ?]]]; split; auto.
        right. right. apply B4, In_setAdd. now right.
    + simpl. split; [apply B4, In_setAdd; now left|].
      intros s Hs.
      assert (Hin : In s (splitRhs rhsStr)).
      { destruct (Hstore (splitRhs rhsStr)) as [E | E]; rewrite E in Hs;
          [assumption | destruct Hs]. }
      pose proof (splitRhs_symbols_nonempty rhsStr) as Hne.
      rewrite List.Forall_forall in Hne. specialize (Hne s Hin).
      split; [assumption|].
      destruct (B7 s Hin) as [? | [? | [? | ?]]]; auto. contradiction.
Qed.

(** The shape of a returned grammar, with the invariant of the loop. *)
Lemma parseGrammarWith_sets (input : jsstring) (g : Grammar) :
  parseGrammarWith storeRhs input = inr g ->
  exists first ps ts nts,
    Grammar.productions g
      = Production.mk (Production.lhs first ++ js "'") [Production.lhs first] 0 :: first :: ps
    /\ Grammar.terminals g = setAdd dollar ts
    /\ Grammar.nonTerminals g = setAdd (Production.lhs first ++ js "'") nts
    /\ Grammar.startSymbol g = Production.lhs first ++ js "'"
    /\ linesInvariant (List.length (splitOn 10%N (trim input))) (first :: ps) ts nts.
Proof.
  unfold parseGrammarWith.
  destruct (List.length (splitOn 10%N (trim input)) =? 0); [discriminate|].
  destruct (parseLines storeRhs _ 0 [] [] []) as [e|[[ps ts] nts]] eqn:Hp; [discriminate|].
  destruct ps as [|first ps]; [discriminate|].
  intros H. injection H as <-. simpl.
  exists first, ps, ts, nts.
  split; [reflexivity|]. split; [reflexivity|]. split; [reflexivity|].
  split; [reflexivity|].
  apply (parseLines_invariant _ _ _ _ _ _ _ _ Hp). unfold linesInvariant.
  split; [reflexivity|]. split; [intros k p Hk; destruct k; discriminate|].
  split; [intros t []|]. split; [constructor|].
  split; [intros n []|]. split; [constructor|]. intros p [].
Qed.

End LinesInvariant.

Lemma parsed_sets (input : jsstring) (g : Grammar) :
  parsed input g ->
  exists first ps ts nts,
    Grammar.productions g
      = Production.mk (Production.lhs first ++ js "'") [Production.lhs first] 0 :: first :: ps
    /\ Grammar.terminals g = setAdd dollar ts
    /\ Grammar.nonTerminals g = setAdd (Production.lhs first ++ js "'") nts
    /\ Grammar.startSymbol g = Production.lhs first ++ js "'"
    /\ linesInvariant (List.length (splitOn 10%N (trim input))) (first :: ps) ts nts.
Proof.
  intros [H | H].
  - eapply parseGrammarWith_sets; [apply Lib_keepsOrEmpties | exact H].
  - eapply parseGrammarWith_sets; [apply Part1_keepsOrEmpties | exact H].
Qed.

(** X1: a returned grammar has one production per line of the trimmed text
    and the augmented production in front; the production at index [k] has
    id [k]. *)
Theorem parseGrammar_numbers_productions (input : jsstring) (g : Grammar) :
  parsed input g ->
  List.length (Grammar.productions g) = S (List.length (splitOn 10%N (trim input)))
  /\ forall k p, Grammar.productions g !! k = Some p -> Production.id p = k.
Proof.
  intros Hg. apply parsed_sets in Hg as (first & ps & ts & nts & -> & _ & _ & _ & Hinv).
  destruct Hinv as (Hlen & Hid & _). split.
  - simpl. simpl in Hlen. now rewrite Hlen.
  - intros [|k] p Hk; simpl in Hk.
    + now injection Hk as <-.
    + apply Hid in Hk. lia.
Qed.

Lemma parseGrammar_numbers_productions_witness :
  List.length (Grammar.productions sampleGrammar) = 4
  /\ forall k p, Grammar.productions sampleGrammar !! k = Some p -> Production.id p = k.
Proof.
  apply (parseGrammar_numbers_productions
           (js "S -> A A" ++ nl ++ js "A -> a A" ++ nl ++ js "A -> b") sampleGrammar).
  right. vm_compute. reflexivity.
Defined.

(** X2: in a returned grammar the terminals are [$] and names of lower-case
    letters and digits, the nonterminals are the start symbol and names
    that start with an upper-case letter; neither list has a duplicate, and
    no symbol is in both. *)
Theorem parseGrammar_symbol_sets (input : jsstring) (g : Grammar) :
  parsed input g ->
  (forall t, In t (Grammar.terminals g) -> t = dollar \/ isTerminalName t = true)
  /\ (forall n, In n (Grammar.nonTerminals g) ->
        n = Grammar.startSymbol g \/ isNonTerminalName n = true)
  /\ NoDup (Grammar.terminals g) /\ NoDup (Grammar.nonTerminals g)
  /\ In dollar (Grammar.terminals g)
  /\ In (Grammar.startSymbol g) (Grammar.nonTerminals g)
  /\ (forall s, In s (Grammar.terminals g) -> ~ In s (Grammar.nonTerminals g)).
Proof.
  intros Hg. apply parsed_sets in Hg as (first & ps & ts & nts & _ & -> & -> & -> & Hinv).
  destruct Hinv as (_ & _ & Ht & Hdt & Hn & Hdn & Hcov).
  assert (T : forall t, In t (setAdd dollar ts) -> t = dollar \/ isTerminalName t = true).
  { intros t Hin. apply In_setAdd in Hin as [-> | Hin]; auto. }
  assert (NT : forall n, In n (setAdd (Production.lhs first ++ js "'") nts) ->
             n = Production.lhs first ++ js "'" \/ isNonTerminalName n = true).
  { intros n Hin. apply In_setAdd in Hin as [-> | Hin]; auto. }
  assert (Hfirst : isNonTerminalName (Production.lhs first) = true).
  { apply Hn. apply (Hcov first). now left. }
  split; [exact T|]. split; [exact NT|].
  split; [now apply setAdd_NoDup|]. split; [now apply setAdd_NoDup|].
  split; [apply In_setAdd; now left|]. split; [apply In_setAdd; now left|].
  intros s Hs Hs'. apply T in Hs. apply NT in Hs'.
  assert (Hq : forall x, forallb isAlnum x = true -> x <> Production.lhs first ++ js "'").
  { intros x Hx ->. apply (forallb_alnum_notin _ 39%N Hx); [reflexivity|].
    apply in_or_app. right. now left. }
  destruct Hs as [-> | Hs], Hs' as [Hs' | Hs'].
  - apply (f_equal (fun l => hd 0%N l)) in Hs'.
    destruct (Production.lhs first) as [|c l]; [discriminate|].
    simpl in Hs', Hfirst. subst c. discriminate.
  - discriminate.
  - apply terminalName_alnum in Hs. now apply (Hq s).
  - destruct s as [|c s]; [discriminate|]. simpl in Hs, Hs'.
    apply andb_prop in Hs as [Hs _]. apply andb_prop in Hs' as [Hs' _].
    unfold isUpper, isLower, isDigit in *.
    apply andb_prop in Hs' as [H1 H2]. apply N.leb_le in H1, H2.
    apply orb_prop in Hs as [Hs | Hs]; apply andb_prop in Hs as [H3 H4];
      apply N.leb_le in H3, H4; lia.
Qed.

Lemma parseGrammar_symbol_sets_witness :
  (forall t, In t (Grammar.terminals sampleGrammar) -> t = dollar \/ isTerminalName t = true)
  /\ (forall n, In n (Grammar.nonTerminals sampleGrammar) ->
        n = Grammar.startSymbol sampleGrammar \/ isNonTerminalName n = true)
  /\ NoDup (Grammar.terminals sampleGrammar) /\ NoDup (Grammar.nonTerminals sampleGrammar)
  /\ In dollar (Grammar.terminals sampleGrammar)
  /\ In (Grammar.startSymbol sampleGrammar) (Grammar.nonTerminals sampleGrammar)
  /\ (forall s, In s (Grammar.terminals sampleGrammar) ->
        ~ In s (Grammar.nonTerminals sampleGrammar)).
Proof.
  apply (parseGrammar_symbol_sets
           (js "S -> A A" ++ nl ++ js "A -> a A" ++ nl ++ js "A -> b") sampleGrammar).
  right. vm_compute. reflexivity.
Defined.

(** X3: in a returned grammar every left-hand side is a nonterminal of the
    grammar, and every symbol of a right-hand side is a non-empty string
    that is the epsilon marker, a terminal or a nonterminal of the
    grammar. *)
Theorem parseGrammar_symbols_accounted (input : jsstring) (g : Grammar) (p : Production) :
  parsed input g -> In p (Grammar.productions g) ->
  In (Production.lhs p) (Grammar.nonTerminals g)
  /\ forall s, In s (Production.rhs p) ->
       s <> [] /\ (s = eps \/ In s (Grammar.terminals g) \/ In s (Grammar.nonTerminals g)).
Proof.
  intros Hg Hp.
  apply parsed_sets in Hg as (first & ps & ts & nts & Eps & -> & -> & _ & Hinv).
  destruct Hinv as (_ & _ & _ & _ & Hn & _ & Hcov).
  rewrite Eps in Hp. destruct Hp as [<- | Hp]; simpl.
  - split; [apply In_setAdd; now left|].
    intros s [<- | []]. destruct (Hcov first (or_introl eq_refl)) as [Hl _].
    split.
    + apply Hn in Hl. intros E. rewrite E in Hl. discriminate.
    + right. right. apply In_setAdd. now right.
  - destruct (Hcov p Hp) as [Hl Hs]. split; [apply In_setAdd; now right|].
    intros s Hin. destruct (Hs s Hin) as [Hne [? | [? | ?]]]; split; auto.
    + right. left. apply In_setAdd. now right.
    + right. right. apply In_setAdd. now right.
Qed.

Lemma parseGrammar_symbols_accounted_witness :
  let p := nth 2 (Grammar.productions sampleGrammar) (Production.mk [] [] 0) in
  In (Production.lhs p) (Grammar.nonTerminals sampleGrammar)
  /\ forall s, In s (Production.rhs p) ->
       s <> [] /\ (s = eps \/ In s (Grammar.terminals sampleGrammar)
                   \/ In s (Grammar.nonTerminals sampleGrammar)).
Proof.
  intros p.
  apply (parseGrammar_symbols_accounted
           (js "S -> A A" ++ nl ++ js "A -> a A" ++ nl ++ js "A -> b") sampleGrammar p).
  - right. vm_compute. reflexivity.
  - vm_compute. tauto.
Defined.

(** ** Closure and GOTO: what is added *)

Lemma addedFresh_app (r e1 e2 : list Item) :
  addedFresh r e1 -> addedFresh (r ++ e1) e2 -> addedFresh r (e1 ++ e2).
Proof.
  revert r. induction e1 as [|x e1 IH]; intros r H1 H2; simpl.
  - now rewrite app_nil_r in H2.
  - destruct H1 as [Hx H1]. split; [assumption|]. apply IH; [assumption|].
    now rewrite <- app_assoc.
Qed.

Section ClosureExtends.
Variable g : Grammar.

Lemma extendsBy_refl (st : ClosureState) : extendsBy g st st.
Proof.
  split; [|split; auto]. exists []. rewrite app_nil_r. repeat split. intros it [].
Qed.

Lemma extendsBy_trans (a b c : ClosureState) :
  extendsBy g a b -> extendsBy g b c -> extendsBy g a c.
Proof.
  intros [(e1 & E1 & F1 & C1) [U1 D1]] [(e2 & E2 & F2 & C2) [U2 D2]].
  split; [|split].
  - exists (e1 ++ e2). split; [now rewrite E2, E1, app_assoc|]. split.
    + apply addedFresh_app; [assumption | now rewrite <- E1].
    + intros it Hit. apply in_app_or in Hit as [Hit | Hit]; auto.
  - auto.
  - intros Hc. pose proof (D2 Hc) as ->. now apply D1.
Qed.

Lemma addItem_extendsBy (st : ClosureState) (u : Item) :
  In u (candidates g) -> extendsBy g st (addItem st u).
Proof.
  intros Hu. unfold addItem. fold (covered (fst st) u).
  destruct (covered (fst st) u) eqn:Ec; [apply extendsBy_refl|].
  split; [|split]; simpl; [|reflexivity|discriminate].
  exists [u]. repeat split; try assumption. now intros it [<- | []].
Qed.

Lemma addItem_unchanged (st : ClosureState) (u : Item) :
  snd (addItem st u) = false -> covered (fst st) u = true.
Proof.
  unfold addItem. fold (covered (fst st) u).
  destruct (covered (fst st) u); [reflexivity | discriminate].
Qed.

(** A loop that left the flag down changed nothing, and each of its turns
    found what it looked for. *)
Lemma fold_left_unchanged {A} (f : ClosureState -> A -> ClosureState)
    (found : list Item -> A -> Prop) (l : list A) :
  (forall st x, In x l -> extendsBy g st (f st x)) ->
  (forall st x, In x l -> snd (f st x) = false -> found (fst st) x) ->
  forall st,
    extendsBy g st (fold_left f l st)
    /\ (snd (fold_left f l st) = false -> forall x, In x l -> found (fst st) x).
Proof.
  induction l as [|x l IH]; intros Hext Hfound st; simpl.
  - split; [apply extendsBy_refl | intros _ y []].
  - destruct (IH (fun s y Hy => Hext s y (or_intror Hy))
                 (fun s y Hy => Hfound s y (or_intror Hy)) (f st x)) as [E1 F1].
    pose proof (Hext st x (or_introl eq_refl)) as E0.
    split; [eapply extendsBy_trans; eassumption|].
    intros Hc. destruct E1 as (_ & _ & D1). pose proof (D1 Hc) as Efix.
    rewrite Efix in Hc. destruct E0 as (_ & _ & D0). pose proof (D0 Hc) as Est.
    intros y [<- | Hy].
    + now apply Hfound; [left|].
    + specialize (F1 ltac:(now rewrite Efix) y Hy). now rewrite Est in F1.
Qed.

Lemma addProductions_extendsBy (symbolAfterDot : jsstring) (firstSet : list jsstring)
    (st : ClosureState) :
  (forall l, In l firstSet -> In l (Grammar.terminals g)) ->
  extendsBy g st (addProductions g symbolAfterDot firstSet st)
  /\ (snd (addProductions g symbolAfterDot firstSet st) = false ->
      forall production lookahead,
        In production (Grammar.productions g) ->
        Production.lhs production = symbolAfterDot ->
        In lookahead firstSet ->
        covered (fst st) (Item.mk production 0 [lookahead]) = true).
Proof.
  intros Hf. unfold addProductions.
  set (inner := fun (production : Production) (st : ClosureState) =>
                  fold_left (fun st lookahead => addItem st (Item.mk production 0 [lookahead]))
                    firstSet st).
  assert (Hinner : forall production st0,
            In production (Grammar.productions g) ->
            extendsBy g st0 (inner production st0)
            /\ (snd (inner production st0) = false ->
                forall lookahead, In lookahead firstSet ->
                  covered (fst st0) (Item.mk production 0 [lookahead]) = true)).
  { intros production st0 Hp. unfold inner.
    apply (fold_left_unchanged
             (fun st lookahead => addItem st (Item.mk production 0 [lookahead]))
             (fun r lookahead => covered r (Item.mk production 0 [lookahead]) = true)).
    - intros s l Hl. apply addItem_extendsBy, In_candidates; auto.
    - intros s l _. apply addItem_unchanged. }
  destruct (fold_left_unchanged
              (fun st production =>
                 if streq (Production.lhs production) symbolAfterDot
                 then inner production st else st)
              (fun r production =>
                 Production.lhs production = symbolAfterDot ->
                 forall lookahead, In lookahead firstSet ->
                   covered r (Item.mk production 0 [lookahead]) = true)
              (Grammar.productions g)) with (st := st) as [E F].
  - intros s p Hp. destruct (streq _ _); [now apply Hinner | apply extendsBy_refl].
  - intros s p Hp Hc El. apply streq_eq in El. rewrite El in Hc.
    now apply (Hinner p s Hp).
  - split; [exact E|]. intros Hc p l Hp El Hl. now apply (F Hc p Hp El l Hl).
Qed.

Lemma covered_mono (r extra : list Item) (u : Item) :
  covered r u = true -> covered (r ++ extra) u = true.
Proof. unfold covered. rewrite existsb_app. intros ->. reflexivity. Qed.

Lemma closureFor_extendsBy (fuel : nat) :
  forall i st st',
    closureFor fuel g i st = Ret st' ->
    extendsBy g st st'
    /\ (snd st' = false ->
        forall j item, i <= j -> fst st !! j = Some item -> expanded g (fst st) item).
Proof.
  induction fuel as [|fuel IH]; intros i st st'; simpl; [discriminate|].
  destruct (fst st !! i) as [item|] eqn:Ei.
  2:{ intros E. injection E as <-. split; [apply extendsBy_refl|].
      intros _ j it Hj Hit. apply lookup_ge_None_1 in Ei.
      apply lookup_lt_Some in Hit. lia. }
  destruct (expansion g item) as [[symbolAfterDot lookaheadSymbols]|] eqn:Ee.
  - intros E. apply bindRun_Ret in E as (firstSet & E1 & E2).
    destruct (addProductions_extendsBy symbolAfterDot (setDelete eps firstSet) st)
      as [X1 F1].
    { intros l Hl. eapply computeFirst_lookaheads; eassumption. }
    destruct (IH _ _ _ E2) as [X2 F2].
    split; [eapply extendsBy_trans; eassumption|].
    intros Hc. destruct X2 as (_ & _ & D2). pose proof (D2 Hc) as Efix.
    rewrite Efix in Hc. destruct X1 as (_ & _ & D1). pose proof (D1 Hc) as Est.
    intros j it Hj Hit. destruct (decide (j = i)) as [-> | Hne].
    + rewrite Ei in Hit. injection Hit as <-.
      intros N seq EN. rewrite Ee in EN. injection EN as <- <-.
      exists fuel, firstSet. split; [assumption|].
      intros p l Hp El Hl. now apply (F1 Hc).
    + rewrite <- Est. apply (F2 ltac:(now rewrite Efix) j it); [lia|]. now rewrite Est.
  - intros E. destruct (IH _ _ _ E) as [X2 F2]. split; [assumption|].
    intros Hc j it Hj Hit. destruct (decide (j = i)) as [-> | Hne].
    + rewrite Ei in Hit. injection Hit as <-. intros N seq EN. congruence.
    + apply (F2 Hc j it); [lia | assumption].
Qed.

Lemma closure_facts (fuel : nat) :
  forall items r,
    closure fuel g items = Ret r ->
    (exists extra, r = items ++ extra /\ addedFresh items extra
                   /\ forall it, In it extra -> In it (candidates g))
    /\ forall item, In item r -> expanded g r item.
Proof.
  unfold closure. induction fuel as [|fuel IH]; intros items r; simpl; [discriminate|].
  intros E. apply bindRun_Ret in E as (st & E1 & E2).
  destruct (closureFor_extendsBy _ _ _ _ E1) as [[(e1 & Ee1 & F1 & C1) [_ D]] X].
  simpl in Ee1, F1. destruct (snd st) eqn:Ec.
  - destruct (IH _ _ E2) as [(e2 & Ee2 & F2 & C2) Hclosed]. split; [|assumption].
    exists (e1 ++ e2). split; [now rewrite Ee2, Ee1, app_assoc|]. split.
    + apply addedFresh_app; [assumption | now rewrite <- Ee1].
    + intros it Hit. apply in_app_or in Hit as [Hit | Hit]; auto.
  - injection E2 as <-. pose proof (D eq_refl) as Est. rewrite Est. simpl. split.
    + exists []. rewrite app_nil_r. repeat split. intros it [].
    + intros item Hitem. apply list_elem_of_In, list_elem_of_lookup_1 in Hitem as [j Hj].
      apply (X eq_refl j item); [lia | exact Hj].
Qed.

End ClosureExtends.

(** X4: the closure keeps the starting items in front, in their order, and
    appends items of productions of the grammar with the dot at the start
    and one terminal as lookahead, each of them new for [itemsEqual] when it
    is appended. *)
Theorem closure_appends_new_items (fuel : nat) (g : Grammar) (items r : list Item) :
  closure fuel g items = Ret r ->
  exists extra,
    r = items ++ extra
    /\ addedFresh items extra
    /\ forall it, In it extra ->
         exists production lookahead,
           it = Item.mk production 0 [lookahead]
           /\ In production (Grammar.productions g)
           /\ In lookahead (Grammar.terminals g).
Proof.
  intros H. destruct (closure_facts g fuel items r H) as [(extra & E & F & C) _].
  exists extra. repeat split; try assumption.
  intros it Hit. now apply candidates_shape, C.
Qed.

Lemma closure_appends_new_items_witness :
  exists extra,
    retOr [] (closure 20 sampleGrammar [startItem sampleGrammar 0 dollar])
    = [startItem sampleGrammar 0 dollar] ++ extra
    /\ addedFresh [startItem sampleGrammar 0 dollar] extra
    /\ forall it, In it extra ->
         exists production lookahead,
           it = Item.mk production 0 [lookahead]
           /\ In production (Grammar.productions sampleGrammar)
           /\ In lookahead (Grammar.terminals sampleGrammar).
Proof.
  apply (closure_appends_new_items 20 sampleGrammar). vm_compute. reflexivity.
Defined.

(** X5: the set returned by the closure is closed: for every item of it
    with the dot before a non-terminal, every production of that
    non-terminal and every lookahead of the FIRST set (epsilon removed) of
    what follows, the set holds the item of that production with the dot at
    the start and that lookahead. *)
Theorem closure_is_closed (fuel : nat) (g : Grammar) (items r : list Item) (item : Item) :
  closure fuel g items = Ret r -> In item r -> expanded g r item.
Proof. intros H. now apply (closure_facts g fuel items r H). Qed.

Lemma closure_is_closed_witness :
  expanded sampleGrammar
    (retOr [] (closure 20 sampleGrammar [startItem sampleGrammar 0 dollar]))
    (startItem sampleGrammar 0 dollar).
Proof.
  apply (closure_is_closed 20 sampleGrammar [startItem sampleGrammar 0 dollar]).
  - vm_compute. reflexivity.
  - vm_compute. left. reflexivity.
Defined.

Lemma closureFor_mono (g : Grammar) (fuel : nat) :
  forall fuel' i st st',
    fuel <= fuel' -> closureFor fuel g i st = Ret st' -> closureFor fuel' g i st = Ret st'.
Proof.
  induction fuel as [|fuel IH]; intros fuel' i st st' Hle; simpl; [discriminate|].
  destruct fuel' as [|fuel']; [lia|]. simpl.
  destruct (fst st !! i) as [item|]; [|trivial].
  destruct (expansion g item) as [[symbolAfterDot lookaheadSymbols]|].
  - intros E. apply bindRun_Ret in E as (firstSet & E1 & E2).
    rewrite (computeFirst_mono g fuel fuel' _ _ ltac:(lia) E1). simpl.
    apply IH; [lia | assumption].
  - apply IH. lia.
Qed.

Lemma closureWhile_mono (g : Grammar) (fuel : nat) :
  forall fuel' items r,
    fuel <= fuel' -> closureWhile fuel g items = Ret r -> closureWhile fuel' g items = Ret r.
Proof.
  induction fuel as [|fuel IH]; intros fuel' items r Hle; simpl; [discriminate|].
  destruct fuel' as [|fuel']; [lia|]. simpl.
  intros E. apply bindRun_Ret in E as (st & E1 & E2).
  rewrite (closureFor_mono g fuel fuel' _ _ _ ltac:(lia) E1). simpl.
  destruct (snd st); [|assumption]. apply IH; [lia | assumption].
Qed.

(** X6: the closure is idempotent: closing the returned set again returns
    it unchanged. *)
Theorem closure_idempotent (fuel : nat) (g : Grammar) (items r : list Item) :
  closure fuel g items = Ret r -> closure fuel g r = Ret r.
Proof.
  unfold closure. revert items r.
  induction fuel as [|fuel IH]; intros items r; [discriminate|].
  intros E. pose proof E as E0. simpl in E.
  apply bindRun_Ret in E as (st & E1 & E2).
  destruct (closureFor_extendsBy g _ _ _ _ E1) as [(_ & _ & D) _].
  destruct (snd st) eqn:Ec.
  - apply (closureWhile_mono g fuel (S fuel)); [lia|]. eapply IH, E2.
  - injection E2 as <-. rewrite (D eq_refl). simpl. rewrite (D eq_refl) in E0.
    exact E0.
Qed.

Lemma closure_idempotent_witness :
  closure 20 sampleGrammar
    (retOr [] (closure 20 sampleGrammar [startItem sampleGrammar 0 dollar]))
  = Ret (retOr [] (closure 20 sampleGrammar [startItem sampleGrammar 0 dollar])).
Proof.
  apply (closure_idempotent 20 sampleGrammar [startItem sampleGrammar 0 dollar]).
  vm_compute. reflexivity.
Defined.

(** ** GOTO *)

Lemma advance_In (items : list Item) (symbol : jsstring) (it : Item) :
  In it (advance items symbol)
  <-> exists item, In item items /\ dotBefore symbol item
        /\ it = Item.mk (Item.production item) (Item.dotPosition item + 1)
                  (Item.lookahead item).
Proof.
  unfold advance, dotBefore. rewrite in_flat_map. split.
  - intros (item & Hitem & Hit).
    destruct (Item.dotPosition item <? _) eqn:El; [|destruct Hit].
    destruct (streq _ symbol) eqn:Es; [|destruct Hit].
    destruct Hit as [<- | []]. exists item.
    repeat split; [assumption | now apply Nat.ltb_lt | now apply streq_eq].
  - intros (item & Hitem & [Hl Hs] & ->). exists item. split; [assumption|].
    apply Nat.ltb_lt in Hl. apply streq_eq in Hs. rewrite Hl, Hs. now left.
Qed.

(** X7: the set returned by GOTO starts with the items that have the
    symbol after the dot, the dot advanced, in their order; it is empty
    exactly when no item has the symbol after its dot. *)
Theorem goto_starts_with_advanced_items
    (fuel : nat) (g : Grammar) (items r : list Item) (symbol : jsstring) :
  goto fuel g items symbol = Ret r ->
  (exists extra, r = advance items symbol ++ extra)
  /\ (r = [] <-> forall item, In item items -> ~ dotBefore symbol item).
Proof.
  unfold goto. intros H.
  destruct (closure_facts g fuel _ _ H) as [(extra & E & _) _].
  split; [now exists extra|]. split.
  - intros ->. symmetry in E. apply app_eq_nil in E as [E _].
    intros item Hitem Hdot.
    assert (Hin : In (Item.mk (Item.production item) (Item.dotPosition item + 1)
                        (Item.lookahead item)) (advance items symbol)).
    { apply advance_In. now exists item. }
    rewrite E in Hin. destruct Hin.
  - intros Hnone.
    assert (Ea : advance items symbol = []).
    { destruct (advance items symbol) as [|it l] eqn:Ea; [reflexivity|].
      assert (Hin : In it (advance items symbol)) by (rewrite Ea; now left).
      apply advance_In in Hin as (item & Hitem & Hdot & _).
      now destruct (Hnone item Hitem). }
    rewrite Ea in H. unfold closure in H.
    destruct fuel as [|[|fuel]]; simpl in H; try discriminate.
    now injection H as <-.
Qed.

Lemma goto_starts_with_advanced_items_witness :
  let items := retOr [] (closure 20 sampleGrammar [startItem sampleGrammar 0 dollar]) in
  let r := retOr [] (goto 20 sampleGrammar items (js "A")) in
  (exists extra, r = advance items (js "A") ++ extra)
  /\ (r = [] <-> forall item, In item items -> ~ dotBefore (js "A") item).
Proof.
  intros items r.
  apply (goto_starts_with_advanced_items 20 sampleGrammar items r (js "A")).
  vm_compute. reflexivity.
Defined.

(** ** The canonical collection: numbering and deduplication *)

Section Registered.
Variable g : Grammar.

Lemma exploreSymbol_registered (fuel : nat) (state : State) (acc acc' : Collection)
    (symbol : jsstring) :
  registered acc ->
  exploreSymbol fuel g state acc symbol = Ret acc' ->
  registered acc' /\ exists more, fst acc' = fst acc ++ more.
Proof.
  intros Hr. unfold exploreSymbol. intros E.
  apply bindRun_Ret in E as (gotoItems & _ & E).
  destruct (0 <? List.length gotoItems) eqn:El;
    [|injection E as <-; split; [assumption | exists []; now rewrite app_nil_r]].
  destruct (snd acc !! getStateSignature gotoItems) eqn:Es; injection E as <-;
    [split; [assumption | exists []; now rewrite app_nil_r]|].
  split; [|now eexists]. simpl.
  intros i st Hi. simpl in Hi.
  destruct (decide (i < List.length (fst acc))) as [Hlt | Hge].
  - rewrite lookup_app_l in Hi by assumption.
    destruct (Hr i st Hi) as (H1 & H2 & H3). repeat split; try assumption.
    simpl. rewrite lookup_insert_ne; [assumption|]. intros Heq. congruence.
  - rewrite lookup_app_r in Hi by lia.
    destruct (i - List.length (fst acc)) as [|k] eqn:Ek; simpl in Hi; [|discriminate].
    injection Hi as <-. simpl. repeat split.
    + lia.
    + intros ->. discriminate.
    + rewrite lookup_insert_eq. f_equal. lia.
Qed.

Lemma exploreSymbols_registered (fuel : nat) (state : State) (symbols : list jsstring) :
  forall acc acc',
    registered acc ->
    forEach (exploreSymbol fuel g state) symbols acc = Ret acc' ->
    registered acc' /\ exists more, fst acc' = fst acc ++ more.
Proof.
  induction symbols as [|symbol symbols IH]; intros acc acc' Hr; simpl.
  - intros E. injection E as <-. split; [assumption | exists []; now rewrite app_nil_r].
  - intros E. apply bindRun_Ret in E as (acc1 & E1 & E2).
    destruct (exploreSymbol_registered _ _ _ _ _ Hr E1) as [Hr1 [m1 Em1]].
    destruct (IH _ _ Hr1 E2) as [Hr2 [m2 Em2]]. split; [assumption|].
    exists (m1 ++ m2). now rewrite Em2, Em1, app_assoc.
Qed.

Lemma exploreStates_registered (fuel : nat) :
  forall i acc states,
    registered acc -> exploreStates fuel g i acc = Ret states ->
    (exists stateMap, registered (states, stateMap))
    /\ exists more, states = fst acc ++ more.
Proof.
  induction fuel as [|fuel IH]; intros i acc states Hr; simpl; [discriminate|].
  destruct (fst acc !! i) as [state|].
  - intros E. apply bindRun_Ret in E as (acc1 & E1 & E2).
    destruct (exploreSymbols_registered _ _ _ _ _ Hr E1) as [Hr1 [m1 Em1]].
    destruct (IH _ _ _ Hr1 E2) as [Hr2 [m2 Em2]]. split; [assumption|].
    exists (m1 ++ m2). now rewrite Em2, Em1, app_assoc.
  - intros E. injection E as <-. split; [|exists []; now rewrite app_nil_r].
    exists (snd acc). now destruct acc.
Qed.

End Registered.

(** X8: the states returned by [generateClrItems] are numbered by their
    index; state 0 is the closure of the item of the first production with
    the dot at the start and lookahead [$], with that item as kernel; every
    state holds at least one item. *)
Theorem generateClrItems_numbers_states (fuel : nat) (g : Grammar) (states : list State) :
  generateClrItems fuel g = Ret states ->
  (forall i state, states !! i = Some state ->
     State.id state = i /\ State.items state <> [])
  /\ exists initialClosure,
       closure fuel g [startItem g 0 dollar] = Ret initialClosure
       /\ states !! 0 = Some (State.mk 0 initialClosure [startItem g 0 dollar]).
Proof.
  unfold generateClrItems, startItem.
  destruct (Grammar.productions g) as [|augmented ps]; [discriminate|]. simpl nth.
  intros E. apply bindRun_Ret in E as (initialClosure & E1 & E2).
  assert (Hne : initialClosure <> []).
  { destruct (closure_facts g fuel _ _ E1) as [(extra & -> & _) _]. discriminate. }
  apply exploreStates_registered in E2 as [[stateMap Hr] [more ->]].
  - split.
    + intros i st Hi. destruct (Hr i st Hi) as (H1 & H2 & _). now split.
    + exists initialClosure. now split.
  - intros [|i] st Hi; simpl in Hi; [|discriminate]. injection Hi as <-. simpl.
    repeat split; [assumption|]. apply lookup_singleton_eq.
Qed.

Lemma generateClrItems_numbers_states_witness :
  (forall i state, sampleStates !! i = Some state ->
     State.id state = i /\ State.items state <> [])
  /\ exists initialClosure,
       closure 50 sampleGrammar [startItem sampleGrammar 0 dollar] = Ret initialClosure
       /\ sampleStates !! 0
          = Some (State.mk 0 initialClosure [startItem sampleGrammar 0 dollar]).
Proof.
  apply (generateClrItems_numbers_states 50 sampleGrammar sampleStates).
  vm_compute. reflexivity.
Defined.

(** X9: two states returned by [generateClrItems] at different indices have
    different signatures. *)
Theorem generateClrItems_distinct_signatures
    (fuel : nat) (g : Grammar) (states : list State) (i j : nat) (si sj : State) :
  generateClrItems fuel g = Ret states ->
  states !! i = Some si -> states !! j = Some sj ->
  i <> j ->
  getStateSignature (State.items si) <> getStateSignature (State.items sj).
Proof.
  unfold generateClrItems.
  destruct (Grammar.productions g) as [|augmented ps]; [discriminate|].
  intros E Hi Hj Hne Hsig. apply bindRun_Ret in E as (initialClosure & E1 & E2).
  apply exploreStates_registered in E2 as [[stateMap Hr] _].
  - destruct (Hr i si Hi) as (_ & _ & H1). destruct (Hr j sj Hj) as (_ & _ & H2).
    simpl in H1, H2. rewrite Hsig in H1. congruence.
  - intros [|k] st Hk; simpl in Hk; [|discriminate]. injection Hk as <-. simpl.
    repeat split.
    + destruct (closure_facts g fuel _ _ E1) as [(extra & -> & _) _]. discriminate.
    + apply lookup_singleton_eq.
Qed.

(** States 3 and 6 of the sample grammar hold the same productions and
    dots with different lookaheads. *)
Lemma generateClrItems_distinct_signatures_witness :
  let s3 := nth 3 sampleStates (State.mk 0 [] []) in
  let s6 := nth 6 sampleStates (State.mk 0 [] []) in
  getStateSignature (State.items s3) <> getStateSignature (State.items s6).
Proof.
  intros s3 s6.
  apply (generateClrItems_distinct_signatures 50 sampleGrammar sampleStates 3 6 s3 s6).
  - vm_compute. reflexivity.
  - vm_compute. reflexivity.
  - vm_compute. reflexivity.
  - discriminate.
Defined.

(** ** The signature of a state does not depend on the order of its items *)

Lemma strle_total (a b : jsstring) : strle a b = false -> strle b a = true.
Proof.
  revert b. induction a as [|x a IH]; intros [|y b]; simpl; try discriminate; try reflexivity.
  intros H. apply orb_false_elim in H as [H1 H2]. apply N.ltb_ge in H1.
  destruct (N.ltb y x) eqn:E; [reflexivity|]. apply N.ltb_ge in E.
  assert (x = y) by lia. subst y. rewrite N.eqb_refl in *. simpl in *. now apply IH.
Qed.

Lemma strle_antisym (a b : jsstring) : strle a b = true -> strle b a = true -> a = b.
Proof.
  revert b. induction a as [|x a IH]; intros [|y b]; simpl; try discriminate; try reflexivity.
  intros H1 H2.
  apply orb_prop in H1 as [H1 | H1]; apply orb_prop in H2 as [H2 | H2].
  - apply N.ltb_lt in H1, H2. lia.
  - apply N.ltb_lt in H1. apply andb_prop in H2 as [H2 _]. apply N.eqb_eq in H2. lia.
  - apply N.ltb_lt in H2. apply andb_prop in H1 as [H1 _]. apply N.eqb_eq in H1. lia.
  - apply andb_prop in H1 as [E1 H1]. apply andb_prop in H2 as [_ H2].
    apply N.eqb_eq in E1. subst y. f_equal. now apply IH.
Qed.

Lemma strle_trans (a b c : jsstring) : strle a b = true -> strle b c = true -> strle a c = true.
Proof.
  revert b c. induction a as [|x a IH]; intros [|y b] [|z c]; simpl;
    try discriminate; try reflexivity.
  intros H1 H2.
  apply orb_prop in H1 as [H1 | H1]; apply orb_prop in H2 as [H2 | H2].
  - apply N.ltb_lt in H1, H2. apply orb_true_intro. left. apply N.ltb_lt. lia.
  - apply N.ltb_lt in H1. apply andb_prop in H2 as [H2 _]. apply N.eqb_eq in H2.
    apply orb_true_intro. left. apply N.ltb_lt. lia.
  - apply N.ltb_lt in H2. apply andb_prop in H1 as [H1 _]. apply N.eqb_eq in H1.
    apply orb_true_intro. left. apply N.ltb_lt. lia.
  - apply andb_prop in H1 as [E1 H1]. apply andb_prop in H2 as [E2 H2].
    apply N.eqb_eq in E1, E2. subst. rewrite N.eqb_refl. simpl.
    apply orb_true_intro. right. eapply IH; eassumption.
Qed.

Lemma insertSorted_comm (x y : jsstring) (l : list jsstring) :
  insertSorted x (insertSorted y l) = insertSorted y (insertSorted x l).
Proof.
  induction l as [|z l IH]; simpl.
  - destruct (strle x y) eqn:Exy, (strle y x) eqn:Eyx; try reflexivity.
    + now rewrite (strle_antisym x y Exy Eyx).
    + apply strle_total in Exy. congruence.
  - destruct (strle y z) eqn:Eyz, (strle x z) eqn:Exz; simpl.
    + destruct (strle x y) eqn:Exy, (strle y x) eqn:Eyx; simpl;
        rewrite ?Eyz, ?Exz; try reflexivity.
      * now rewrite (strle_antisym x y Exy Eyx).
      * apply strle_total in Exy. congruence.
    + destruct (strle x y) eqn:Exy; simpl; rewrite ?Eyz, ?Exz.
      * rewrite (strle_trans x y z Exy Eyz) in Exz. discriminate.
      * reflexivity.
    + destruct (strle y x) eqn:Eyx; simpl; rewrite ?Eyz, ?Exz.
      * rewrite (strle_trans y x z Eyx Exz) in Eyz. discriminate.
      * reflexivity.
    + rewrite Eyz, Exz. now rewrite IH.
Qed.

Lemma sortStrings_Permutation (l l' : list jsstring) :
  Permutation l l' -> sortStrings l = sortStrings l'.
Proof.
  unfold sortStrings. induction 1 as [| x l l' _ IH | x y l | l l' l'' _ IH1 _ IH2]; simpl.
  - reflexivity.
  - now rewrite IH.
  - apply insertSorted_comm.
  - congruence.
Qed.

(** X10: two arrays with the same items in a different order have the same
    signature. *)
Theorem getStateSignature_order_independent (items items' : list Item) :
  Permutation items items' -> getStateSignature items = getStateSignature items'.
Proof.
  intros H. unfold getStateSignature. f_equal.
  apply sortStrings_Permutation. now apply Permutation_map.
Qed.

Lemma getStateSignature_order_independent_witness :
  let items := State.items (nth 0 sampleStates (State.mk 0 [] [])) in
  getStateSignature items = getStateSignature (rev items).
Proof.
  intros items. apply (getStateSignature_order_independent items (rev items)).
  apply Permutation_rev.
Defined.

(** ** The automaton: its edges *)

Lemma symbolsAfterDot_NoDup (items : list Item) : NoDup (symbolsAfterDot items).
Proof.
  unfold symbolsAfterDot. apply (fold_left_invariant (fun s => NoDup s)).
  - intros s item _ Hs. destruct (_ <? _); [now apply setAdd_NoDup | assumption].
  - constructor.
Qed.

Lemma NoDup_map_eq {A B} (f : A -> B) (l : list A) (x y : A) :
  NoDup (List.map f l) -> In x l -> In y l -> f x = f y -> x = y.
Proof.
  induction l as [|z l IH]; simpl; [intros _ []|].
  intros Hnd Hx Hy E. apply NoDup_cons in Hnd as [Hz Hnd].
  assert (Hin : forall w, In w l -> f w ∈ List.map f l).
  { intros w Hw. apply list_elem_of_In, in_map, Hw. }
  destruct Hx as [-> | Hx], Hy as [-> | Hy]; auto.
  - exfalso. apply Hz. rewrite E. now apply Hin.
  - exfalso. apply Hz. rewrite <- E. now apply Hin.
Qed.

Section DfaEdges.
Variable g : Grammar.
Variable states : list State.
Variable fuel : nat.

(** The loop over the symbols of one state. *)
Lemma edgesOfState (state : State) (symbols : list jsstring) :
  In state states ->
  (forall s, In s symbols -> In s (symbolsAfterDot (State.items state))) ->
  NoDup symbols ->
  forall edges edges',
    forEach (edgeFor fuel g states state) symbols edges = Ret edges' ->
    exists new,
      edges' = edges ++ new
      /\ (forall e, In e new ->
            Edge.source e = State.id state /\ In (Edge.label e) symbols
            /\ edgeJustified fuel g states e)
      /\ NoDup (List.map Edge.label new).
Proof.
  intros Hstate. induction symbols as [|symbol symbols IH]; intros Hsub Hnd edges edges'; simpl.
  - intros E. injection E as <-. exists []. rewrite app_nil_r.
    split; [reflexivity|]. split; [intros e [] | constructor].
  - intros E. apply bindRun_Ret in E as (edges1 & E1 & E2).
    apply NoDup_cons in Hnd as [Hsym Hnd].
    destruct (IH (fun s Hs => Hsub s (or_intror Hs)) Hnd _ _ E2) as (new & -> & Hnew & Hnd').
    unfold edgeFor in E1. apply bindRun_Ret in E1 as (gotoItems & Eg & E1).
    assert (Hskip : edges1 = edges ->
              exists new0, edges1 ++ new = edges ++ new0
                /\ (forall e, In e new0 ->
                      Edge.source e = State.id state /\ In (Edge.label e) (symbol :: symbols)
                      /\ edgeJustified fuel g states e)
                /\ NoDup (List.map Edge.label new0)).
    { intros ->. exists new. split; [reflexivity|]. split; [|assumption].
      intros e He. destruct (Hnew e He) as (Hs & Hl & Hj).
      split; [assumption|]. split; [now right | assumption]. }
    destruct (0 <? List.length gotoItems) eqn:El; [|injection E1 as <-; now apply Hskip].
    destruct (List.find (sameItems gotoItems) states) as [targetState|] eqn:Ef;
      injection E1 as <-; [|now apply Hskip].
    apply find_some in Ef as [Htarget Hsame].
    exists (Edge.mk (State.id state) (State.id targetState) symbol :: new).
    split; [now rewrite <- app_assoc|]. split.
    + intros e [<- | He].
      * simpl. split; [reflexivity|]. split; [now left|].
        exists state, targetState, gotoItems. simpl.
        split; [assumption|]. split; [assumption|]. split; [reflexivity|].
        split; [reflexivity|]. split; [apply Hsub; now left|].
        split; [assumption|]. split; [|assumption].
        intros ->. discriminate.
      * destruct (Hnew e He) as (Hs & Hl & Hj).
        split; [assumption|]. split; [now right | assumption].
    + simpl. apply NoDup_cons. split; [|assumption].
      intros Hin. apply list_elem_of_In, in_map_iff in Hin as (e & <- & He).
      apply Hsym, list_elem_of_In. now apply (Hnew e He).
Qed.

(** The loop over the states; [done] are the states already processed. *)
Lemma edgesOfStates (todo : list State) :
  forall done edges edges',
    (forall state, In state todo -> In state states) ->
    NoDup (List.map State.id (done ++ todo)) ->
    (forall e, In e edges -> In (Edge.source e) (List.map State.id done)
                             /\ edgeJustified fuel g states e) ->
    NoDup (List.map edgeKey edges) ->
    forEach (fun edges state =>
               forEach (edgeFor fuel g states state)
                 (symbolsAfterDot (State.items state)) edges) todo edges = Ret edges' ->
    (forall e, In e edges' -> edgeJustified fuel g states e)
    /\ NoDup (List.map edgeKey edges').
Proof.
  induction todo as [|state todo IH]; intros done edges edges' Hsub Hids Hedges Hnd; simpl.
  - intros E. injection E as <-. split; [|assumption]. intros e He. now apply Hedges.
  - intros E. apply bindRun_Ret in E as (edges1 & E1 & E2).
    destruct (edgesOfState state (symbolsAfterDot (State.items state))
                (Hsub state (or_introl eq_refl)) (fun s Hs => Hs)
                (symbolsAfterDot_NoDup _) _ _ E1) as (new & -> & Hnew & Hndnew).
    apply (IH (done ++ [state]) (edges ++ new) edges').
    + intros st Hst. apply Hsub. now right.
    + now rewrite <- app_assoc.
    + intros e He. apply in_app_or in He as [He | He].
      * destruct (Hedges e He) as [Hs Hj]. split; [|assumption].
        rewrite map_app. apply in_or_app. now left.
      * destruct (Hnew e He) as (Hs & _ & Hj). split; [|assumption].
        rewrite map_app, Hs. apply in_or_app. right. now left.
    + rewrite map_app. apply NoDup_app. split; [assumption|]. split.
      * intros k Hk Hk'.
        apply list_elem_of_In, in_map_iff in Hk as (e & <- & He).
        apply list_elem_of_In, in_map_iff in Hk' as (e' & Ek & He').
        destruct (Hedges e He) as [Hs _]. destruct (Hnew e' He') as (Hs' & _).
        unfold edgeKey in Ek. injection Ek as Ek _. rewrite <- Ek, Hs' in Hs.
        rewrite map_app in Hids. apply NoDup_app in Hids as (_ & Hids & _).
        apply (Hids (State.id state)); [now apply list_elem_of_In|].
        apply list_elem_of_In. now left.
      * clear IH E2. revert Hnew Hndnew. generalize new. intros l Hl Hndl.
        induction l as [|e l IHl]; simpl; [constructor|].
        simpl in Hndl. apply NoDup_cons in Hndl as [He Hndl]. apply NoDup_cons. split.
        -- intros Hin. apply He.
           apply list_elem_of_In, in_map_iff in Hin as (e' & Ek & He').
           unfold edgeKey in Ek. injection Ek as _ Ek. rewrite <- Ek.
           apply list_elem_of_In, in_map. assumption.
        -- apply IHl; [|assumption]. intros e' He'. apply Hl. now right.
    + exact E2.
Qed.

Lemma generateDfa_edges (dfa : Dfa) :
  NoDup (List.map State.id states) ->
  generateDfa fuel states g = Ret dfa ->
  (forall e, In e (Dfa.edges dfa) -> edgeJustified fuel g states e)
  /\ NoDup (List.map edgeKey (Dfa.edges dfa)).
Proof.
  intros Hids. unfold generateDfa. intros E.
  apply bindRun_Ret in E as (edges & E1 & E2). injection E2 as <-. simpl.
  apply (edgesOfStates states [] [] edges); auto.
  - intros e [].
  - constructor.
Qed.

End DfaEdges.

Lemma numbered_NoDup (states : list State) :
  (forall i state, states !! i = Some state -> State.id state = i) ->
  NoDup (List.map State.id states).
Proof.
  intros Hid. apply NoDup_alt. intros i j x Hi Hj.
  rewrite list_lookup_fmap in Hi, Hj.
  destruct (states !! i) as [si|] eqn:Ei; [|discriminate].
  destruct (states !! j) as [sj|] eqn:Ej; [|discriminate].
  simpl in Hi, Hj. apply Hid in Ei, Ej. congruence.
Qed.

Lemma generateClrItems_ids_NoDup (fuel : nat) (g : Grammar) (states : list State) :
  generateClrItems fuel g = Ret states -> NoDup (List.map State.id states).
Proof.
  intros H. apply numbered_NoDup. intros i st Hi.
  unfold generateClrItems in H.
  destruct (Grammar.productions g) as [|augmented ps]; [discriminate|].
  apply bindRun_Ret in H as (initialClosure & E1 & E2).
  apply exploreStates_registered in E2 as [[stateMap Hr] _].
  - now apply (Hr i st Hi).
  - intros [|k] st0 Hk; simpl in Hk; [|discriminate]. injection Hk as <-. simpl.
    repeat split.
    + destruct (closure_facts g fuel _ _ E1) as [(extra & -> & _) _]. discriminate.
    + apply lookup_singleton_eq.
Qed.

(** X11: every edge returned by [generateDfa] on the states of
    [generateClrItems] goes from a state of the array to a state of the
    array, on a symbol that follows a dot in the source; the GOTO set of the
    source on that symbol is not empty and the target passes the test on
    it. *)
Theorem generateDfa_edges_justified
    (fuel fuel' : nat) (g : Grammar) (states : list State) (dfa : Dfa) (edge : Edge) :
  generateClrItems fuel g = Ret states ->
  generateDfa fuel' states g = Ret dfa ->
  In edge (Dfa.edges dfa) ->
  edgeJustified fuel' g states edge.
Proof.
  intros Hs Hd. apply (generateDfa_edges g states fuel' dfa); [|assumption].
  eapply generateClrItems_ids_NoDup, Hs.
Qed.

Lemma generateDfa_edges_justified_witness :
  edgeJustified 50 sampleGrammar sampleStates
    (nth 0 (Dfa.edges sampleDfa) (Edge.mk 0 0 [])).
Proof.
  apply (generateDfa_edges_justified 50 50 sampleGrammar sampleStates sampleDfa).
  - vm_compute. reflexivity.
  - vm_compute. reflexivity.
  - vm_compute. left. reflexivity.
Defined.

(** X12: the automaton is deterministic: two edges returned by
    [generateDfa] on the states of [generateClrItems] with the same source
    and the same label are the same edge. *)
Theorem generateDfa_deterministic
    (fuel fuel' : nat) (g : Grammar) (states : list State) (dfa : Dfa) (e1 e2 : Edge) :
  generateClrItems fuel g = Ret states ->
  generateDfa fuel' states g = Ret dfa ->
  In e1 (Dfa.edges dfa) -> In e2 (Dfa.edges dfa) ->
  Edge.source e1 = Edge.source e2 -> Edge.label e1 = Edge.label e2 ->
  e1 = e2.
Proof.
  intros Hs Hd H1 H2 Es El.
  destruct (generateDfa_edges g states fuel' dfa
              (generateClrItems_ids_NoDup _ _ _ Hs) Hd) as [_ Hnd].
  apply (NoDup_map_eq edgeKey (Dfa.edges dfa)); try assumption.
  unfold edgeKey. now rewrite Es, El.
Qed.

Lemma generateDfa_deterministic_witness :
  let e := nth 2 (Dfa.edges sampleDfa) (Edge.mk 0 0 []) in
  e = e.
Proof.
  intros e.
  apply (generateDfa_deterministic 50 50 sampleGrammar sampleStates sampleDfa e e).
  - vm_compute. reflexivity.
  - vm_compute. reflexivity.
  - vm_compute. do 2 right. left. reflexivity.
  - vm_compute. do 2 right. left. reflexivity.
  - reflexivity.
  - reflexivity.
Defined.

(** ** The parsing table: where its cells come from *)

Section TableCells.
Variable g : Grammar.
Variable states : list State.
Variable dfa : Dfa.

Lemma addEdge_justified (t t' : Tables) (edge : Edge) :
  In edge (Dfa.edges dfa) ->
  tablesJustified g states dfa t -> addEdge g t edge = Ret t' ->
  tablesJustified g states dfa t'.
Proof.
  intros Hedge [Ha Hg]. unfold addEdge.
  destruct (includes (Edge.label edge) (Grammar.terminals g)) eqn:Et.
  - intros E. apply bindRun_Ret in E as (actions & E1 & E2). injection E2 as <-.
    split; [|exact Hg]. simpl. intros row key a.
    rewrite (setCell_cell _ _ _ _ _ E1). destruct (decide _) as [[-> ->] | _]; [|apply Ha].
    intros H. injection H as <-. now exists edge.
  - destruct (includes (Edge.label edge) (Grammar.nonTerminals g)) eqn:En.
    + intros E. apply bindRun_Ret in E as (gotos & E1 & E2). injection E2 as <-.
      split; [exact Ha|]. simpl. intros row key k.
      rewrite (setCell_cell _ _ _ _ _ E1). destruct (decide _) as [[-> ->] | _]; [|apply Hg].
      intros H. injection H as <-. now exists edge.
    + intros E. injection E as <-. now split.
Qed.

Lemma shiftPhase_justified (t : Tables) :
  shiftPhase states dfa g = Ret t -> tablesJustified g states dfa t.
Proof.
  unfold shiftPhase.
  apply (forEach_invariant (tablesJustified g states dfa)).
  - intros s edge s' Hedge Hs. now apply addEdge_justified.
  - split; intros row key a H.
    + rewrite initTables_empty in H. discriminate.
    + exfalso. revert H. unfold initTables.
      apply (fold_left_invariant (fun t : Tables => cell (snd t) row key <> Some a)).
      * intros t0 state _ Ht. simpl. unfold cell in *.
        destruct (decide (row = natToString (State.id state))) as [-> | Hr].
        -- rewrite lookup_insert_eq, lookup_empty. discriminate.
        -- now rewrite lookup_insert_ne by congruence.
      * unfold cell. simpl. rewrite lookup_empty. discriminate.
Qed.

Lemma addItemActions_justified (state : State) (item : Item)
    (actions actions' : gmap jsstring (gmap jsstring Action)) :
  In state states -> In item (State.items state) ->
  (forall row key a, cell actions row key = Some a -> actionJustified g states dfa row key a) ->
  addItemActions g (State.id state) actions item = Ret actions' ->
  forall row key a, cell actions' row key = Some a -> actionJustified g states dfa row key a.
Proof.
  intros Hstate Hitem Ha. unfold addItemActions.
  destruct (_ =? _) eqn:Ec; [|intros E; now injection E as <-].
  destruct (_ && _) eqn:Es.
  - intros E row key a. rewrite (setCell_cell _ _ _ _ _ E).
    destruct (decide _) as [[-> ->] | _]; [|apply Ha].
    intros H. injection H as <-. split; [reflexivity|]. exists state, item.
    repeat split; try assumption. unfold acceptItem. now rewrite Ec, Es.
  - assert (H : forall lookaheads,
               (forall l, In l lookaheads -> In l (Item.lookahead item)) ->
               forEach (addReduce (natToString (State.id state))
                          (Production.id (Item.production item))) lookaheads actions
               = Ret actions' ->
               forall row key a, cell actions' row key = Some a ->
                 actionJustified g states dfa row key a).
    { intros lookaheads Hsub.
      apply (forEach_invariant
               (fun acts => forall row key a, cell acts row key = Some a ->
                              actionJustified g states dfa row key a)); [|assumption].
      intros acts l acts' Hl Hacts E row key a Hc.
      unfold addReduce in E. destruct (acts !! _) as [r|]; [|discriminate].
      assert (Hset : setCell acts (natToString (State.id state)) l
                       (Reduce (Production.id (Item.production item))) = Ret acts' ->
                     actionJustified g states dfa row key a).
      { intros E'. rewrite (setCell_cell _ _ _ _ _ E') in Hc.
        destruct (decide _) as [[-> ->] | _]; [|now apply Hacts].
        injection Hc as <-. exists state, item.
        split; [assumption|]. split; [reflexivity|]. split; [assumption|].
        split; [now apply Nat.eqb_eq|]. split; [unfold acceptItem; now rewrite Ec, Es|].
        split; [reflexivity | now apply Hsub]. }
      destruct (getProperty r l) as [a0| |]; [|discriminate|now apply Hset].
      destruct (negb (isShift a0)); [now apply Hset|].
      injection E as <-. now apply Hacts. }
    apply H. auto.
Qed.

Lemma generateParsingTable_justified (table : ParsingTable) :
  generateParsingTable states dfa g = Ret table ->
  tablesJustified g states dfa (ParsingTable.actions table, ParsingTable.gotos table).
Proof.
  unfold generateParsingTable. intros E.
  apply bindRun_Ret in E as (t & Et & E). apply bindRun_Ret in E as (actions & Ea & E).
  injection E as <-. simpl.
  destruct (shiftPhase_justified t Et) as [Ha Hg]. split; [|exact Hg]. simpl.
  revert Ea.
  apply (forEach_invariant
           (fun acts => forall row key a, cell acts row key = Some a ->
                          actionJustified g states dfa row key a)); [|assumption].
  intros acts state acts' Hstate Hacts. unfold addStateActions.
  assert (H : forall items, (forall it, In it items -> In it (State.items state)) ->
             forEach (addItemActions g (State.id state)) items acts = Ret acts' ->
             forall row key a, cell acts' row key = Some a ->
               actionJustified g states dfa row key a).
  { intros items Hsub.
    apply (forEach_invariant
             (fun acts => forall row key a, cell acts row key = Some a ->
                            actionJustified g states dfa row key a)); [|assumption].
    intros a1 item a2 Hitem Ha1. apply addItemActions_justified; auto. }
  apply H. auto.
Qed.

End TableCells.

(** X13: every cell of the returned tables is justified: a shift by an edge
    on a terminal, a reduce by a complete item of the state that is not an
    accept, with the column among its lookaheads and the id of its
    production, an accept by a complete item of the start symbol in the
    [$] column, a goto by an edge on a nonterminal. *)
Theorem generateParsingTable_cells_justified
    (states : list State) (dfa : Dfa) (g : Grammar) (table : ParsingTable) :
  generateParsingTable states dfa g = Ret table ->
  (forall row key a, cell (ParsingTable.actions table) row key = Some a ->
     actionJustified g states dfa row key a)
  /\ (forall row key k, cell (ParsingTable.gotos table) row key = Some k ->
        gotoJustified g dfa row key k).
Proof. intros H. exact (generateParsingTable_justified g states dfa table H). Qed.

Lemma generateParsingTable_cells_justified_witness :
  (forall row key a, cell (ParsingTable.actions sampleTable) row key = Some a ->
     actionJustified sampleGrammar sampleStates sampleDfa row key a)
  /\ (forall row key k, cell (ParsingTable.gotos sampleTable) row key = Some k ->
        gotoJustified sampleGrammar sampleDfa row key k).
Proof.
  apply (generateParsingTable_cells_justified sampleStates sampleDfa sampleGrammar).
  vm_compute. reflexivity.
Defined.

(** ** The parsing table: when its construction throws *)

(** A loop whose body either throws on a bad element or returns and keeps
    the invariant throws exactly when its list has a bad element. *)
Lemma forEach_throws_or_returns {A S} (P : S -> Prop) (bad : A -> Prop)
    (body : S -> A -> Run S) (l : list A) :
  (forall s x, In x l -> P s ->
     (body s x = Throw /\ bad x) \/ (exists s', body s x = Ret s' /\ P s' /\ ~ bad x)) ->
  forall s, P s ->
    (forEach body l s = Throw /\ exists x, In x l /\ bad x)
    \/ (exists s', forEach body l s = Ret s' /\ P s' /\ forall x, In x l -> ~ bad x).
Proof.
  induction l as [|x l IH]; intros H s Hs.
  - right. exists s. split; [reflexivity|]. split; [assumption | intros x []].
  - simpl. destruct (H s x (or_introl eq_refl) Hs) as [[E Hx] | (s1 & E & Hs1 & Hx)].
    + left. rewrite E. split; [reflexivity|]. exists x. split; [now left | assumption].
    + rewrite E. simpl.
      destruct (IH (fun s0 y Hy => H s0 y (or_intror Hy)) s1 Hs1)
        as [[E' (y & Hy & Hbad)] | (s2 & E' & Hs2 & Hall)].
      * left. split; [assumption|]. exists y. split; [now right | assumption].
      * right. exists s2. split; [assumption|]. split; [assumption|].
        intros y [<- | Hy]; [assumption | now apply Hall].
Qed.

Lemma setCell_rows {V} (table table' : gmap jsstring (gmap jsstring V))
    (row key : jsstring) (v : V) :
  setCell table row key v = Ret table' ->
  forall r, is_Some (table !! r) -> is_Some (table' !! r).
Proof.
  unfold setCell. destruct (table !! row) as [r0|] eqn:E; [|discriminate].
  intros H r Hr. injection H as <-.
  destruct (decide (r = row)) as [-> | Hne].
  - rewrite lookup_insert_eq. now eexists.
  - now rewrite lookup_insert_ne by congruence.
Qed.

Lemma setCell_returns {V} (table : gmap jsstring (gmap jsstring V))
    (row key : jsstring) (v : V) :
  is_Some (table !! row) -> exists table', setCell table row key v = Ret table'.
Proof. intros [r E]. unfold setCell. rewrite E. now eexists. Qed.

Lemma setCell_keepsInherited (t0 acts acts' : gmap jsstring (gmap jsstring Action))
    (row key : jsstring) (a : Action) :
  includes key objectPrototypeKeys = false ->
  keepsInherited t0 acts -> setCell acts row key a = Ret acts' ->
  keepsInherited t0 acts'.
Proof.
  intros Hkey [Hrows Hcells] E. split.
  - intros r Hr. apply (setCell_rows _ _ _ _ _ E). now apply Hrows.
  - intros r k Hk. rewrite (setCell_cell _ _ _ _ _ E).
    destruct (decide _) as [[_ ->] | _]; [congruence | now apply Hcells].
Qed.

Section ReducePhase.
Variable g : Grammar.
Variable t0 : gmap jsstring (gmap jsstring Action).
Hypothesis shiftsOnly : forall row key a, cell t0 row key = Some a -> isShift a = true.

Lemma addReduce_throws_or_returns (row : jsstring) (productionId : nat)
    (acts : gmap jsstring (gmap jsstring Action)) (lookahead : jsstring) :
  is_Some (t0 !! row) -> keepsInherited t0 acts ->
  (addReduce row productionId acts lookahead = Throw /\ badLookahead t0 row lookahead)
  \/ (exists acts', addReduce row productionId acts lookahead = Ret acts'
        /\ keepsInherited t0 acts' /\ ~ badLookahead t0 row lookahead).
Proof.
  intros Hrow Hk. pose proof Hk as [Hrows Hcells].
  destruct (Hrows row Hrow) as [r Er]. unfold addReduce. rewrite Er.
  assert (Ec : cell acts row lookahead = r !! lookahead) by (unfold cell; now rewrite Er).
  assert (Hset : forall a, includes lookahead objectPrototypeKeys = false ->
            exists acts', setCell acts row lookahead a = Ret acts'
              /\ keepsInherited t0 acts' /\ ~ badLookahead t0 row lookahead).
  { intros a Hi. destruct (setCell_returns acts row lookahead a) as [acts' E].
    { rewrite Er. now eexists. }
    exists acts'. split; [assumption|]. split.
    - eapply setCell_keepsInherited; [exact Hi | exact Hk | exact E].
    - intros [Hb _]. congruence. }
  unfold getProperty. destruct (includes lookahead objectPrototypeKeys) eqn:Ei.
  - rewrite (Hcells row lookahead Ei) in Ec. destruct (r !! lookahead) as [a|].
    + right. rewrite (shiftsOnly _ _ _ Ec). simpl. exists acts.
      split; [reflexivity|]. split; [exact Hk|]. intros [_ Hb]. congruence.
    + left. split; [reflexivity | now split].
  - right. destruct (r !! lookahead) as [a|]; [|now apply Hset].
    destruct (negb (isShift a)); [now apply Hset|].
    exists acts. split; [reflexivity|]. split; [exact Hk|]. intros [Hb _]. congruence.
Qed.

Lemma addItemActions_throws_or_returns (stateId : nat)
    (acts : gmap jsstring (gmap jsstring Action)) (item : Item) :
  is_Some (t0 !! natToString stateId) -> keepsInherited t0 acts ->
  (addItemActions g stateId acts item = Throw /\ badItem g t0 (natToString stateId) item)
  \/ (exists acts', addItemActions g stateId acts item = Ret acts'
        /\ keepsInherited t0 acts' /\ ~ badItem g t0 (natToString stateId) item).
Proof.
  intros Hrow Hk. unfold addItemActions.
  destruct (_ =? _) eqn:Ec.
  - destruct (_ && _) eqn:Es.
    + right. destruct (setCell_returns acts (natToString stateId) dollar Accept) as [acts' E].
      { now apply (proj1 Hk). }
      exists acts'. split; [assumption|]. split.
      * eapply setCell_keepsInherited; [|exact Hk | exact E]. reflexivity.
      * intros (_ & Ha & _). unfold acceptItem in Ha. rewrite Ec, Es in Ha. discriminate.
    + destruct (forEach_throws_or_returns (keepsInherited t0)
                  (badLookahead t0 (natToString stateId))
                  (addReduce (natToString stateId) (Production.id (Item.production item)))
                  (Item.lookahead item)
                  (fun s x _ Hs => addReduce_throws_or_returns _ _ s x Hrow Hs) acts Hk)
        as [[E (l & Hl & Hbad)] | (acts' & E & Hk' & Hall)].
      * left. split; [assumption|]. split; [now apply Nat.eqb_eq|].
        split; [unfold acceptItem; now rewrite Ec, Es|]. now exists l.
      * right. exists acts'. split; [assumption|]. split; [assumption|].
        intros (_ & _ & l & Hl & Hbad). now apply (Hall l Hl).
  - right. exists acts. split; [reflexivity|]. split; [assumption|].
    intros (Hc & _). apply Nat.eqb_neq in Ec. contradiction.
Qed.

Lemma reducePhase_throws_or_returns (states : list State) :
  (forall state, In state states -> is_Some (t0 !! natToString (State.id state))) ->
  (forEach (addStateActions g) states t0 = Throw
   /\ exists state, In state states /\ badState g t0 state)
  \/ (exists acts, forEach (addStateActions g) states t0 = Ret acts
        /\ keepsInherited t0 acts /\ forall state, In state states -> ~ badState g t0 state).
Proof.
  intros Hrows.
  apply (forEach_throws_or_returns (keepsInherited t0) (badState g t0)).
  - intros acts state Hstate Hk. unfold addStateActions.
    destruct (forEach_throws_or_returns (keepsInherited t0)
                (badItem g t0 (natToString (State.id state)))
                (addItemActions g (State.id state)) (State.items state)
                (fun s x _ Hs => addItemActions_throws_or_returns _ s x (Hrows state Hstate) Hs)
                acts Hk)
      as [[E (item & Hitem & Hbad)] | (acts' & E & Hk' & Hall)].
    + left. split; [assumption|]. now exists item.
    + right. exists acts'. split; [assumption|]. split; [assumption|].
      intros (item & Hitem & Hbad). now apply (Hall item Hitem).
  - split; [auto | reflexivity].
Qed.

End ReducePhase.

Lemma initTables_rows (states : list State) : rowsFor states (initTables states).
Proof.
  unfold initTables, rowsFor.
  assert (H : forall l (t : Tables) state,
             In state l
             \/ (is_Some (fst t !! natToString (State.id state))
                 /\ is_Some (snd t !! natToString (State.id state))) ->
             let t' := fold_left (fun t state =>
                           (<[natToString (State.id state) := ∅]> (fst t),
                            <[natToString (State.id state) := ∅]> (snd t))) l t in
             is_Some (fst t' !! natToString (State.id state))
             /\ is_Some (snd t' !! natToString (State.id state))).
  { induction l as [|x l IH]; intros t state H; simpl.
    - destruct H as [[] | H]. exact H.
    - apply IH. simpl.
      destruct (decide (natToString (State.id state) = natToString (State.id x))) as [E | Hne].
      + right. rewrite E, !lookup_insert_eq. split; now eexists.
      + destruct H as [[-> | H] | H]; [congruence | now left |].
        right. now rewrite !lookup_insert_ne by congruence. }
  intros state Hstate. apply (H states (∅, ∅) state). now left.
Qed.

Lemma addEdge_shiftPhase (g : Grammar) (states : list State) (done : list Edge)
    (t : Tables) (edge : Edge) :
  (exists state, In state states /\ Edge.source edge = State.id state) ->
  rowsFor states t -> shiftsFor g done t ->
  exists t', addEdge g t edge = Ret t' /\ rowsFor states t' /\ shiftsFor g (done ++ [edge]) t'.
Proof.
  intros (state & Hstate & Es) Hrows Hdone.
  destruct (Hrows state Hstate) as [Ha Hg]. rewrite <- Es in Ha, Hg.
  unfold addEdge. destruct (includes (Edge.label edge) (Grammar.terminals g)) eqn:Et.
  - destruct (setCell_returns (fst t) (natToString (Edge.source edge)) (Edge.label edge)
                (Shift (Edge.target edge)) Ha) as [actions E].
    rewrite E. simpl. exists (actions, snd t). split; [reflexivity|]. split.
    + intros s Hs. destruct (Hrows s Hs) as [H1 H2]. simpl.
      split; [now apply (setCell_rows _ _ _ _ _ E) | assumption].
    + intros e He Hl. simpl. rewrite (setCell_cell _ _ _ _ _ E).
      destruct (decide _) as [_ | Hne]; [now eexists|].
      apply in_app_or in He as [He | [<- | []]]; [now apply Hdone|].
      exfalso. now apply Hne.
  - assert (Hkeep : forall t', fst t' = fst t -> shiftsFor g (done ++ [edge]) t').
    { intros t' Ef e He Hl. rewrite Ef.
      apply in_app_or in He as [He | [<- | []]]; [now apply Hdone | congruence]. }
    destruct (includes (Edge.label edge) (Grammar.nonTerminals g)).
    + destruct (setCell_returns (snd t) (natToString (Edge.source edge)) (Edge.label edge)
                  (Edge.target edge) Hg) as [gotos E].
      rewrite E. simpl. exists (fst t, gotos). split; [reflexivity|]. split.
      * intros s Hs. destruct (Hrows s Hs) as [H1 H2]. simpl.
        split; [assumption | now apply (setCell_rows _ _ _ _ _ E)].
      * now apply Hkeep.
    + exists t. split; [reflexivity|]. split; [assumption | now apply Hkeep].
Qed.

Lemma shiftPhase_returns (g : Grammar) (states : list State) (dfa : Dfa) :
  okEdges states (Dfa.edges dfa) ->
  exists t, shiftPhase states dfa g = Ret t
    /\ rowsFor states t /\ shiftsFor g (Dfa.edges dfa) t.
Proof.
  intros Hok. unfold shiftPhase.
  assert (H : forall todo done t,
             (forall edge, In edge todo ->
                exists state, In state states /\ Edge.source edge = State.id state) ->
             rowsFor states t -> shiftsFor g done t ->
             exists t', forEach (addEdge g) todo t = Ret t'
               /\ rowsFor states t' /\ shiftsFor g (done ++ todo) t').
  { induction todo as [|edge todo IH]; intros done t Hsrc Hrows Hdone.
    - exists t. rewrite app_nil_r. now split.
    - destruct (addEdge_shiftPhase g states done t edge (Hsrc edge (or_introl eq_refl))
                  Hrows Hdone) as (t1 & E1 & Hrows1 & Hdone1).
      destruct (IH (done ++ [edge]) t1 (fun e He => Hsrc e (or_intror He)) Hrows1 Hdone1)
        as (t2 & E2 & Hrows2 & Hdone2).
      exists t2. simpl. rewrite E1. simpl. split; [assumption|]. split; [assumption|].
      now rewrite <- app_assoc in Hdone2. }
  apply (H (Dfa.edges dfa) [] (initTables states)).
  - intros edge Hedge. destruct (Hok edge Hedge) as (state & Hstate & Es & _).
    now exists state.
  - apply initTables_rows.
  - intros edge [].
Qed.

(** The construction of the table either throws, on a reduce whose
    lookahead is an inherited name without a shift, or returns. *)
Lemma generateParsingTable_throws_or_returns (g : Grammar) (states : list State) (dfa : Dfa) :
  okEdges states (Dfa.edges dfa) ->
  (generateParsingTable states dfa g = Throw /\ reduceOnInherited g states dfa)
  \/ (exists table, generateParsingTable states dfa g = Ret table
        /\ ~ reduceOnInherited g states dfa).
Proof.
  intros Hok. destruct (shiftPhase_returns g states dfa Hok) as (t & Et & Hrows & Hshifts).
  pose proof (shiftPhase_fromEdges g states dfa t Et) as Hfrom.
  pose proof (shiftPhase_justified g states dfa t Et) as [Hjust _].
  assert (Hso : forall row key a, cell (fst t) row key = Some a -> isShift a = true).
  { intros row key a Ha. destruct (Hfrom row key a Ha) as (e & _ & _ & ->). reflexivity. }
  assert (Hcell : forall state l, In state states ->
            cell (fst t) (natToString (State.id state)) l = None
            <-> ~ (exists edge, In edge (Dfa.edges dfa)
                     /\ Edge.source edge = State.id state /\ Edge.label edge = l
                     /\ includes l (Grammar.terminals g) = true)).
  { intros state l Hstate. split.
    - intros Hc (edge & Hedge & Es & El & Ht). subst l.
      destruct (Hshifts edge Hedge Ht) as [k Hk]. rewrite Es in Hk. congruence.
    - intros Hno. destruct (cell (fst t) _ l) as [a|] eqn:Ec; [|reflexivity].
      exfalso. apply Hno. pose proof (Hjust _ _ _ Ec) as Hj.
      pose proof (Hso _ _ _ Ec) as Hs. destruct a as [k| |]; try discriminate.
      destruct Hj as (edge & Hedge & Er & El & _ & Ht).
      exists edge. split; [assumption|]. apply natToString_inj in Er.
      split; [now symmetry|]. split; [now symmetry | now rewrite El]. }
  unfold generateParsingTable. rewrite Et. simpl.
  destruct (reducePhase_throws_or_returns g (fst t) Hso states
              (fun s Hs => proj1 (Hrows s Hs)))
    as [[E (state & Hstate & item & Hitem & Hc & Ha & l & Hl & Hi & Hn)]
       | (acts & E & _ & Hall)].
  - left. rewrite E. split; [reflexivity|]. exists state, item, l.
    split; [assumption|]. split; [assumption|]. split; [assumption|].
    split; [assumption|]. split; [assumption|]. split; [assumption|].
    now apply Hcell.
  - right. rewrite E. simpl. eexists. split; [reflexivity|].
    intros (state & item & l & Hstate & Hitem & Hc & Ha & Hl & Hi & Hn).
    apply (Hall state Hstate). exists item. split; [assumption|].
    split; [assumption|]. split; [assumption|]. exists l. split; [assumption|].
    split; [assumption|]. now apply Hcell.
Qed.

Lemma terminal_not_inherited (input : jsstring) (g : Grammar) (t : jsstring) :
  parsed input g -> ~ In (js "constructor") (Grammar.terminals g) ->
  In t (Grammar.terminals g) -> includes t objectPrototypeKeys = false.
Proof.
  intros Hg Hno Ht.
  destruct (includes t objectPrototypeKeys) eqn:Ei; [|reflexivity]. exfalso.
  apply parsed_sets in Hg as (first & ps & ts & nts & _ & Et & _ & _ & Hinv).
  destruct Hinv as (_ & _ & Hts & _).
  assert (Hname : t = dollar \/ isTerminalName t = true).
  { rewrite Et in Ht. apply In_setAdd in Ht as [-> | Ht]; auto. }
  apply includes_In in Ei. unfold objectPrototypeKeys in Ei. simpl List.map in Ei.
  destruct Hname as [-> | Hname].
  - revert Ei. vm_compute. intuition discriminate.
  - simpl In in Ei.
    repeat (destruct Ei as [Ei | Ei];
            [subst t; try (vm_compute in Hname; discriminate); try contradiction|]).
    exact Ei.
Qed.

(** X14: for the states of a grammar returned by [parseGrammar] and their
    automaton, [generateParsingTable] returns a table whenever no terminal
    of the grammar is named [constructor]. *)
Theorem generateParsingTable_returns
    (input : jsstring) (g : Grammar) (fuel fuel' : nat) (states : list State) (dfa : Dfa) :
  parsed input g -> ~ In (js "constructor") (Grammar.terminals g) ->
  generateClrItems fuel g = Ret states -> generateDfa fuel' states g = Ret dfa ->
  exists table, generateParsingTable states dfa g = Ret table.
Proof.
  intros Hg Hno Hs Hd.
  destruct (generateParsingTable_throws_or_returns g states dfa
              (generateDfa_ok g states fuel' dfa Hd))
    as [[_ Hbad] | (table & E & _)]; [|now exists table].
  exfalso. destruct Hbad as (state & item & l & Hstate & Hitem & _ & _ & Hl & Hi & _).
  assert (Hdollar : In dollar (Grammar.terminals g)).
  { now destruct (parsed_shape input g Hg) as (first & ps & _ & _ & _ & H). }
  destruct (generateClrItems_ok g fuel states Hdollar Hs) as [Hok _].
  destruct (Hok state Hstate) as [Hitems _].
  destruct (Hitems item Hitem) as [_ (l' & El & Hl')].
  rewrite El in Hl. destruct Hl as [<- | []].
  rewrite (terminal_not_inherited input g l' Hg Hno Hl') in Hi. discriminate.
Qed.

Lemma generateParsingTable_returns_witness :
  exists table, generateParsingTable sampleStates sampleDfa sampleGrammar = Ret table.
Proof.
  assert (Hg : parsed (js "S -> A A" ++ nl ++ js "A -> a A" ++ nl ++ js "A -> b") sampleGrammar)
    by (right; vm_compute; reflexivity).
  assert (Hs : generateClrItems 50 sampleGrammar = Ret sampleStates)
    by (vm_compute; reflexivity).
  assert (Hd : generateDfa 50 sampleStates sampleGrammar = Ret sampleDfa)
    by (vm_compute; reflexivity).
  apply (generateParsingTable_returns _ sampleGrammar 50 50 sampleStates sampleDfa Hg);
    [|exact Hs | exact Hd].
  vm_compute. intuition discriminate.
Defined.



(** ** The recognizer on the tables of the pipeline *)

(** In a returned grammar a production sits at the index that is its id. *)
Lemma parsed_production_at_id (input : jsstring) (g : Grammar) (p : Production) :
  parsed input g -> In p (Grammar.productions g) ->
  Grammar.productions g !! Production.id p = Some p.
Proof.
  intros Hg Hp. apply parsed_sets in Hg as (first & ps & ts & nts & E & _ & _ & _ & Hinv).
  destruct Hinv as (_ & Hid & _). rewrite E in Hp |- *.
  apply list_elem_of_In, list_elem_of_lookup_1 in Hp as [k Hk].
  destruct k as [|k]; simpl in Hk.
  - injection Hk as <-. reflexivity.
  - pose proof (Hid k p Hk) as Ek. rewrite Ek.
    replace (k + 1) with (S k) by lia. exact Hk.
Qed.

Lemma lookupAction_Own (table : ParsingTable) (st tok : Value) (a : Action) :
  lookupAction table st tok = Own a ->
  cell (ParsingTable.actions table) (valueString st) (valueString tok) = Some a.
Proof.
  unfold lookupAction, cell, getProperty.
  destruct (ParsingTable.actions table !! valueString st) as [row|]; [|discriminate].
  destruct (row !! valueString tok) as [a0|]; [congruence|].
  now destruct (includes _ _).
Qed.

Lemma lookupAction_Inherited (table : ParsingTable) (st tok : Value) :
  lookupAction table st tok = Inherited ->
  includes (valueString tok) objectPrototypeKeys = true.
Proof.
  unfold lookupAction, getProperty.
  destruct (ParsingTable.actions table !! valueString st) as [row|]; [|discriminate].
  destruct (row !! valueString tok) as [a0|]; [discriminate|].
  now destruct (includes _ _).
Qed.

(** X16: on the table of the pipeline of a returned grammar, [parseString]
    does not throw on a text none of whose tokens names a property of
    [Object.prototype]: whatever the number of turns, it has returned a
    result or is still running. *)
Theorem parseString_never_throws
    (input : jsstring) (g : Grammar) (fuel fuel' : nat) (states : list State) (dfa : Dfa)
    (table : ParsingTable) (text : jsstring) (turns : nat) :
  parsed input g ->
  generateClrItems fuel g = Ret states -> generateDfa fuel' states g = Ret dfa ->
  generateParsingTable states dfa g = Ret table ->
  (forall token, In token (splitWs text) -> includes token objectPrototypeKeys = false) ->
  parseString turns g table text <> Throw.
Proof.
  intros Hg Hs Hd Ht Htokens.
  assert (Hdollar : In dollar (Grammar.terminals g)).
  { now destruct (parsed_shape input g Hg) as (first & ps & _ & _ & _ & H). }
  destruct (generateClrItems_ok g fuel states Hdollar Hs) as [Hok _].
  destruct (generateParsingTable_justified g states dfa table Ht) as [Hjust _].
  simpl in Hok, Hjust.
  assert (Hturn : forall c, turn g table (splitWs text ++ [dollar]) c <> Throw).
  { intros c Hc. apply turn_throws in Hc. cbv zeta in Hc.
    destruct Hc as [H | (productionId & H & Hn)].
    - apply lookupAction_Inherited in H.
      destruct ((splitWs text ++ [dollar]) !! Config.pointer c) as [t|] eqn:Et.
      + apply list_elem_of_lookup_2, list_elem_of_In, in_app_or in Et as [Hin | [<- | []]].
        * unfold valueString in H. rewrite (Htokens t Hin) in H. discriminate.
        * vm_compute in H. discriminate.
      + vm_compute in H. discriminate.
    - apply lookupAction_Own in H. apply Hjust in H.
      destruct H as (state & item & Hstate & _ & Hitem & _ & _ & -> & _).
      destruct (Hok state Hstate) as [Hitems _]. destruct (Hitems item Hitem) as [Hp _].
      rewrite (parsed_production_at_id input g _ Hg Hp) in Hn. discriminate. }
  unfold parseString. generalize (Config.mk [VNum 0] 0 []).
  induction turns as [|turns IH]; intros c; simpl; [discriminate|].
  destruct (turn g table (splitWs text ++ [dollar]) c) as [[c'|r]| |] eqn:E; simpl.
  - apply IH.
  - discriminate.
  - now apply Hturn in E.
  - discriminate.
Qed.

Lemma parseString_never_throws_witness :
  parseString 3 sampleGrammar sampleTable (js "a b b") <> Throw.
Proof.
  assert (Hg : parsed (js "S -> A A" ++ nl ++ js "A -> a A" ++ nl ++ js "A -> b") sampleGrammar)
    by (right; vm_compute; reflexivity).
  assert (Hs : generateClrItems 50 sampleGrammar = Ret sampleStates)
    by (vm_compute; reflexivity).
  assert (Hd : generateDfa 50 sampleStates sampleGrammar = Ret sampleDfa)
    by (vm_compute; reflexivity).
  assert (Ht : generateParsingTable sampleStates sampleDfa sampleGrammar = Ret sampleTable)
    by (vm_compute; reflexivity).
  apply (parseString_never_throws _ sampleGrammar 50 50 sampleStates sampleDfa sampleTable
           (js "a b b") 3 Hg Hs Hd Ht).
  intros token Hin. vm_compute in Hin.
  destruct Hin as [<- | [<- | [<- | []]]]; vm_compute; reflexivity.
Defined.

(** ** Closure and the canonical collection: two induction principles *)

(** A property of the array [result] that every push of the closure keeps
    holds of the returned array. *)
Lemma closure_invariant (g : Grammar) (P : list Item -> Prop) :
  (forall result parent symbolAfterDot lookaheadSymbols production lookahead,
     P result -> In parent result ->
     expansion g parent = Some (symbolAfterDot, lookaheadSymbols) ->
     In production (Grammar.productions g) ->
     Production.lhs production = symbolAfterDot ->
     P (result ++ [Item.mk production 0 [lookahead]])) ->
  forall fuel items r, closure fuel g items = Ret r -> P items -> P r.
Proof.
  intros Hstep.
  assert (Hadd : forall parent symbolAfterDot lookaheadSymbols firstSet st,
            expansion g parent = Some (symbolAfterDot, lookaheadSymbols) ->
            P (fst st) /\ In parent (fst st) ->
            let st' := addProductions g symbolAfterDot firstSet st in
            P (fst st') /\ In parent (fst st')).
  { intros parent symbolAfterDot lookaheadSymbols firstSet st He. unfold addProductions.
    apply (fold_left_invariant (fun st => P (fst st) /\ In parent (fst st))).
    intros st0 production Hp H0.
    destruct (streq (Production.lhs production) symbolAfterDot) eqn:El; [|assumption].
    apply streq_eq in El.
    apply (fold_left_invariant (fun st => P (fst st) /\ In parent (fst st))); [|assumption].
    intros st1 lookahead _ [H1 H2]. unfold addItem.
    destruct (existsb _ (fst st1)); [now split|]. simpl. split.
    - eapply Hstep; eassumption.
    - apply in_or_app. now left. }
  assert (Hfor : forall fuel i st st',
            closureFor fuel g i st = Ret st' -> P (fst st) -> P (fst st')).
  { induction fuel as [|fuel IH]; intros i st st'; simpl; [discriminate|].
    destruct (fst st !! i) as [item|] eqn:Ei; [|intros E; now injection E as <-].
    destruct (expansion g item) as [[symbolAfterDot lookaheadSymbols]|] eqn:Ee.
    - intros E H. apply bindRun_Ret in E as (firstSet & _ & E).
      apply (IH _ _ _ E).
      apply (Hadd item symbolAfterDot lookaheadSymbols _ st Ee). split; [assumption|].
      apply list_elem_of_In. eapply list_elem_of_lookup_2, Ei.
    - apply IH. }
  unfold closure. induction fuel as [|fuel IH]; intros items r; simpl; [discriminate|].
  intros E H. apply bindRun_Ret in E as (st & E1 & E2).
  apply Hfor in E1; [|assumption]. destruct (snd st).
  - now apply (IH _ _ E2).
  - now injection E2 as <-.
Qed.

Lemma exploreStates_invariant (g : Grammar) (P : list Item -> Prop) :
  (forall fuel items symbol r, P items -> goto fuel g items symbol = Ret r -> P r) ->
  forall fuel i (acc : Collection) states,
    (forall st, In st (fst acc) -> P (State.items st)) ->
    exploreStates fuel g i acc = Ret states ->
    forall st, In st states -> P (State.items st).
Proof.
  intros Hgoto.
  induction fuel as [|fuel IH]; intros i acc states Ha; simpl; [discriminate|].
  destruct (fst acc !! i) as [state|] eqn:Ei; [|intros E; now injection E as <-].
  intros E. apply bindRun_Ret in E as (acc' & E1 & E2).
  eapply IH; [|exact E2].
  revert E1.
  apply (forEach_invariant (fun acc : Collection =>
                              forall st, In st (fst acc) -> P (State.items st)));
    [|assumption].
  intros acc0 symbol acc1 _ H0. unfold exploreSymbol. intros E.
  apply bindRun_Ret in E as (gotoItems & Eg & E).
  destruct (0 <? List.length gotoItems); [|now injection E as <-].
  destruct (snd acc0 !! getStateSignature gotoItems); injection E as <-; [assumption|].
  simpl. intros st Hst. apply in_app_or in Hst as [Hst | [<- | []]]; [now apply H0|].
  simpl. eapply Hgoto; [|exact Eg]. apply Ha.
  apply list_elem_of_In. eapply list_elem_of_lookup_2, Ei.
Qed.

(** A property of item sets that holds of the closure of the initial item
    and that GOTO keeps holds of the items of every state. *)
Lemma generateClrItems_invariant (g : Grammar) (P : list Item -> Prop) :
  (forall fuel augmented rest r,
     Grammar.productions g = augmented :: rest ->
     closure fuel g [Item.mk augmented 0 [dollar]] = Ret r -> P r) ->
  (forall fuel items symbol r, P items -> goto fuel g items symbol = Ret r -> P r) ->
  forall fuel states state,
    generateClrItems fuel g = Ret states -> In state states -> P (State.items state).
Proof.
  intros Hinit Hgoto fuel states state. unfold generateClrItems.
  destruct (Grammar.productions g) as [|augmented rest] eqn:Ep; [discriminate|].
  intros E. apply bindRun_Ret in E as (initialClosure & E1 & E2).
  eapply (exploreStates_invariant g P Hgoto); [|exact E2].
  intros st [<- | []]. simpl. exact (Hinit fuel augmented rest initialClosure eq_refl E1).
Qed.

(** ** The items of a state are pairwise different *)

Lemma itemsEqual_itemKey (item1 item2 : Item) (a b : jsstring) :
  Item.lookahead item1 = [a] -> Item.lookahead item2 = [b] ->
  itemsEqual item1 item2 = true <-> itemKey item1 = itemKey item2.
Proof.
  intros E1 E2. unfold itemsEqual, itemKey. rewrite E1, E2.
  rewrite !andb_true_iff, !streq_eq, Nat.eqb_eq, arraysEqual_single. split.
  - intros [[[-> ->] ->] ->]. reflexivity.
  - intros E. injection E as -> -> -> ->. auto.
Qed.

Lemma covered_itemKey (g : Grammar) (result : list Item) (item : Item) :
  okItems g result -> okItem g item ->
  covered result item = false -> ~ In (itemKey item) (List.map itemKey result).
Proof.
  intros Hr [_ (b & Eb & _)] Hc Hin. apply in_map_iff in Hin as (x & Ex & Hx).
  destruct (Hr x Hx) as [_ (a & Ea & _)].
  assert (E : itemsEqual x item = true) by now apply (itemsEqual_itemKey x item a b).
  unfold covered in Hc.
  assert (Ht : existsb (fun it => itemsEqual it item) result = true).
  { apply existsb_exists. now exists x. }
  congruence.
Qed.

Lemma addedFresh_NoDup (g : Grammar) (extra : list Item) :
  forall result,
    okItems g (result ++ extra) -> addedFresh result extra ->
    NoDup (List.map itemKey result) -> NoDup (List.map itemKey (result ++ extra)).
Proof.
  induction extra as [|x extra IH]; intros result Hok Hf Hn.
  - now rewrite app_nil_r.
  - destruct Hf as [Hc Hf].
    replace (result ++ x :: extra) with ((result ++ [x]) ++ extra) in *
      by now rewrite <- app_assoc.
    apply IH; [assumption | assumption|].
    rewrite map_app. simpl. apply NoDup_app. split; [assumption|]. split.
    + intros k Hk Hx. apply list_elem_of_In in Hk, Hx. destruct Hx as [<- | []].
      revert Hk. apply (covered_itemKey g); [| |assumption].
      * intros it Hit. apply Hok. apply in_or_app. left. apply in_or_app. now left.
      * apply Hok. apply in_or_app. left. apply in_or_app. right. now left.
    + apply NoDup_singleton.
Qed.

Lemma advance_cons (item : Item) (items : list Item) (symbol : jsstring) :
  advance (item :: items) symbol
  = (let rhs := Production.rhs (Item.production item) in
     if (Item.dotPosition item <? List.length rhs)
        && streq (nth (Item.dotPosition item) rhs []) symbol
     then [Item.mk (Item.production item) (Item.dotPosition item + 1) (Item.lookahead item)]
     else [])
    ++ advance items symbol.
Proof. reflexivity. Qed.

Lemma advance_NoDup (items : list Item) (symbol : jsstring) :
  NoDup (List.map itemKey items) -> NoDup (List.map itemKey (advance items symbol)).
Proof.
  induction items as [|item items IH]; intros Hn; [constructor|].
  simpl in Hn. apply NoDup_cons in Hn as [Hx Hn].
  rewrite advance_cons. cbv zeta.
  destruct (_ && _); [|now apply IH].
  change (NoDup (itemKey (Item.mk (Item.production item) (Item.dotPosition item + 1)
                            (Item.lookahead item))
                 :: List.map itemKey (advance items symbol))).
  apply NoDup_cons. split; [|now apply IH].
  intros Hin. apply Hx. apply list_elem_of_In in Hin. apply list_elem_of_In.
  apply in_map_iff in Hin as (y & Ey & Hy).
  apply advance_In in Hy as (z & Hz & _ & ->).
  apply in_map_iff. exists z. split; [|assumption].
  unfold itemKey in *. simpl in Ey. injection Ey as E1 E2 E3 E4.
  f_equal; [f_equal; [f_equal|]|]; try assumption. lia.
Qed.

Section DistinctItems.
Variable g : Grammar.

Lemma closure_distinct (fuel : nat) (items r : list Item) :
  distinctItems g items -> closure fuel g items = Ret r -> distinctItems g r.
Proof.
  intros [Hok Hn] E. pose proof (closure_ok g fuel items r Hok E) as Hr.
  split; [assumption|].
  destruct (closure_facts g fuel items r E) as [(extra & -> & Hf & _) _].
  now apply (addedFresh_NoDup g).
Qed.

Lemma goto_distinct (fuel : nat) (items r : list Item) (symbol : jsstring) :
  distinctItems g items -> goto fuel g items symbol = Ret r -> distinctItems g r.
Proof.
  intros [Hok Hn]. unfold goto. apply closure_distinct.
  split; [now apply advance_ok | now apply advance_NoDup].
Qed.

Lemma generateClrItems_distinct (fuel : nat) (states : list State) (state : State) :
  In dollar (Grammar.terminals g) ->
  generateClrItems fuel g = Ret states -> In state states ->
  distinctItems g (State.items state).
Proof.
  intros Hd. apply (generateClrItems_invariant g (distinctItems g)).
  - intros fuel0 augmented rest r Ep. apply closure_distinct. split.
    + intros it [<- | []]. split; simpl; [rewrite Ep; now left | now exists dollar].
    + simpl. apply NoDup_singleton.
  - intros fuel0 items symbol r. apply goto_distinct.
Qed.

(** The test of [generateDfa] picks a state with the same items: each item
    of the target equals, for [itemsEqual], an item of the GOTO set. *)
Lemma sameItems_onto (gotoItems : list Item) (target : State) :
  distinctItems g gotoItems -> okItems g (State.items target) ->
  sameItems gotoItems target = true ->
  forall item, In item (State.items target) ->
    exists gotoItem, In gotoItem gotoItems /\ itemKey gotoItem = itemKey item.
Proof.
  intros [Hok Hn] Ht Hs. unfold sameItems in Hs.
  apply andb_prop in Hs as [Hl Hall]. apply Nat.eqb_eq in Hl.
  rewrite forallb_forall in Hall.
  assert (Hincl : incl (List.map itemKey gotoItems) (List.map itemKey (State.items target))).
  { intros k Hk. apply in_map_iff in Hk as (x & <- & Hx).
    pose proof (Hall x Hx) as He. apply existsb_exists in He as (y & Hy & He).
    destruct (Hok x Hx) as [_ (a & Ea & _)]. destruct (Ht y Hy) as [_ (b & Eb & _)].
    apply (itemsEqual_itemKey x y a b Ea Eb) in He. rewrite He.
    apply in_map_iff. now exists y. }
  intros item Hitem.
  assert (Hin : In (itemKey item) (List.map itemKey gotoItems)).
  { apply NoDup_ListNoDup in Hn.
    apply (@List.NoDup_length_incl _ _ (List.map itemKey (State.items target)) Hn);
      [rewrite !length_map; lia | exact Hincl |].
    apply in_map_iff. now exists item. }
  apply in_map_iff in Hin as (x & Ex & Hx). now exists x.
Qed.

Lemma closure_addedForRhs (fuel : nat) (items r : list Item) :
  okItems g items -> closure fuel g items = Ret r -> addedForRhs g items r.
Proof.
  intros Hok E.
  refine (closure_invariant g (addedForRhs g items) _ fuel items r E _).
  - intros result parent symbolAfterDot lookaheadSymbols production lookahead
           Hr Hparent He Hp El item Hitem.
    apply in_app_or in Hitem as [Hitem | [<- | []]]; [now apply Hr|]. simpl.
    split; [assumption|]. right. split; [reflexivity|].
    exists (Item.production parent). split; [now apply Hr|].
    unfold expansion in He.
    destruct (Item.dotPosition parent <? _) eqn:Hlt; [|discriminate].
    destruct (includes _ _); [|discriminate]. injection He as <- _.
    rewrite El. apply nth_In. now apply Nat.ltb_lt.
  - intros item Hitem. split; [now apply Hok | now left].
Qed.

End DistinctItems.

(** ** The recognizer is sound *)

Lemma string_of_uint_digits (d : Decimal.uint) (c : N) :
  In c (js (NilEmpty.string_of_uint d)) -> isDigit c = true.
Proof.
  induction d as [|d IH|d IH|d IH|d IH|d IH|d IH|d IH|d IH|d IH|d IH];
    simpl; intros H; try (destruct H as [<- | H]; [reflexivity | now apply IH]).
  destruct H.
Qed.

Lemma natToString_not_undefined (n : nat) : natToString n <> js "undefined".
Proof.
  intros E. assert (H : In 117%N (natToString n)) by (rewrite E; now left).
  apply string_of_uint_digits in H. discriminate.
Qed.

Lemma derives_app (g : Grammar) (form1 form2 word1 word2 : list jsstring) :
  derives g form1 word1 -> derives g form2 word2 ->
  derives g (form1 ++ form2) (word1 ++ word2).
Proof.
  intros H1 H2. induction H1 as [|t form word Ht H IH|p form w1 w2 Hp Hr _ H IH]; simpl.
  - assumption.
  - now constructor.
  - rewrite <- app_assoc. now apply derives_production.
Qed.

Lemma derives_terminals (g : Grammar) (form word : list jsstring) :
  derives g form word -> forall t, In t word -> In t (Grammar.terminals g).
Proof.
  intros H. induction H as [|t form word Ht H IH|p form w1 w2 Hp Hr IHr H IH];
    intros t0 Hin.
  - destruct Hin.
  - destruct Hin as [<- | Hin]; auto.
  - apply in_app_or in Hin as [Hin | Hin]; auto.
Qed.

Lemma derives_nonEmptyPart (g : Grammar) (form word : list jsstring) :
  derives (nonEmptyPart g) form word -> derives g form word.
Proof.
  intros H. induction H as [|t form word Ht H IH|p form w1 w2 Hp Hr IHr H IH].
  - constructor.
  - now constructor.
  - apply derives_production; try assumption. now apply filter_In in Hp as [Hp _].
Qed.

Lemma onPath_derives (g : Grammar) (dfa : Dfa) (stack : list Value)
    (path word : list jsstring) :
  onPath g dfa stack path word -> derives (nonEmptyPart g) path word.
Proof.
  intros H. induction H as [|stack path word edge derived H IH Hhd Hedge Hder].
  - constructor.
  - now apply derives_app.
Qed.

Lemma onPath_hd (g : Grammar) (dfa : Dfa) (stack : list Value)
    (path word : list jsstring) :
  onPath g dfa stack path word -> exists s, hd VUndef stack = VNum s.
Proof. intros H. destruct H; now eexists. Qed.

(** Popping two entries for each symbol of the end of the path. *)
Lemma onPath_pop (g : Grammar) (dfa : Dfa) (popped : list jsstring) :
  forall stack before word,
    onPath g dfa stack (before ++ popped) word ->
    exists word0 wordPopped,
      onPath g dfa (skipn (List.length popped * 2) stack) before word0
      /\ word = word0 ++ wordPopped /\ derives (nonEmptyPart g) popped wordPopped.
Proof.
  induction popped as [|symbol popped IH] using rev_ind; intros stack before word H.
  - rewrite app_nil_r in H. exists word, []. rewrite app_nil_r.
    split; [assumption|]. split; [reflexivity | constructor].
  - rewrite app_assoc in H. inversion H as [|stack0 path0 word0 edge derived H0 Hhd Hedge Hder Es Ep Ew].
    + exfalso. destruct (before ++ popped); discriminate.
    + apply app_inj_tail in Ep as [Ep El]. subst path0.
      destruct (IH _ _ _ H0) as (w0 & wp & Hon & Ew0 & Hd0).
      exists w0, (wp ++ derived). rewrite length_app. simpl.
      replace ((List.length popped + 1) * 2) with (S (S (List.length popped * 2))) by lia.
      simpl. split; [assumption|]. split.
      * now rewrite Ew0, app_assoc.
      * apply derives_app; [assumption|]. now rewrite <- El.
Qed.

Lemma firstn_succ {A} (l : list A) (d : A) :
  forall n, n < List.length l -> firstn (S n) l = firstn n l ++ [nth n l d].
Proof.
  induction l as [|x l IH]; intros n Hn; simpl in Hn; [lia|].
  destruct n as [|n]; [reflexivity|].
  change (x :: firstn (S n) l = x :: (firstn n l ++ [nth n l d])).
  f_equal. apply IH. lia.
Qed.

Lemma viable_advance (g : Grammar) (path : list jsstring) (symbol : jsstring) (item : Item) :
  viable g path item -> dotBefore symbol item ->
  viable g (path ++ [symbol])
    (Item.mk (Item.production item) (Item.dotPosition item + 1) (Item.lookahead item)).
Proof.
  intros (Hle & (before & Eb) & Hstart) [Hlt Hnth]. unfold viable. simpl.
  assert (E : firstn (Item.dotPosition item + 1) (Production.rhs (Item.production item))
              = firstn (Item.dotPosition item) (Production.rhs (Item.production item))
                ++ [symbol]).
  { rewrite Nat.add_1_r, <- Hnth. now apply firstn_succ. }
  rewrite E. split; [lia|]. split.
  - exists before. now rewrite Eb, app_assoc.
  - intros Hs. now rewrite (Hstart Hs).
Qed.

Section Soundness.
Variable input : jsstring.
Variable g : Grammar.
Variables fuel fuel' : nat.
Variable states : list State.
Variable dfa : Dfa.
Variable table : ParsingTable.
Hypothesis Hg : parsed input g.
Hypothesis Hs : generateClrItems fuel g = Ret states.
Hypothesis Hd : generateDfa fuel' states g = Ret dfa.
Hypothesis Ht : generateParsingTable states dfa g = Ret table.

Lemma parsed_has_dollar : In dollar (Grammar.terminals g).
Proof. now destruct (parsed_shape input g Hg) as (first & ps & _ & _ & _ & H). Qed.

Lemma state_okItems (state : State) : In state states -> okItems g (State.items state).
Proof.
  intros H. destruct (generateClrItems_ok g fuel states parsed_has_dollar Hs) as [Hok _].
  now destruct (Hok state H).
Qed.

Lemma state_by_id (s1 s2 : State) :
  In s1 states -> In s2 states -> State.id s1 = State.id s2 -> s1 = s2.
Proof.
  intros H1 H2 E.
  destruct (generateClrItems_ok g fuel states parsed_has_dollar Hs) as [_ Hid].
  simpl in Hid.
  apply list_elem_of_In, list_elem_of_lookup_1 in H1 as [i Hi].
  apply list_elem_of_In, list_elem_of_lookup_1 in H2 as [j Hj].
  pose proof (Hid i s1 Hi). pose proof (Hid j s2 Hj).
  assert (i = j) by congruence. subst j. congruence.
Qed.

Lemma rhsSymbol_not_start (symbol : jsstring) :
  rhsSymbol g symbol -> symbol <> Grammar.startSymbol g.
Proof.
  intros (p & Hp & Hin) E.
  destruct (parsed_rhs_good input g p Hg Hp) as [_ Hgood].
  rewrite List.Forall_forall in Hgood. apply Hgood in Hin.
  destruct (parsed_shape input g Hg) as (first & ps & _ & _ & Es & _).
  apply (goodSymbol_notin symbol 39%N Hin); [reflexivity | discriminate |].
  rewrite E, Es. apply in_or_app. right. now left.
Qed.

(** The only production of the start symbol has one symbol on its right. *)
Lemma start_production_rhs (p : Production) :
  In p (Grammar.productions g) -> Production.lhs p = Grammar.startSymbol g ->
  exists symbol, Production.rhs p = [symbol].
Proof.
  intros Hp El. apply (parsed_start_production input g p Hg Hp) in El.
  pose proof (parsed_production_at_id input g p Hg Hp) as Eat. rewrite El in Eat.
  destruct (parsed_shape input g Hg) as (first & ps & Eps & _).
  rewrite Eps in Eat. simpl in Eat. injection Eat as <-. simpl. now eexists.
Qed.

Lemma viable_itemKey (path : list jsstring) (item1 item2 : Item) :
  In (Item.production item1) (Grammar.productions g) ->
  In (Item.production item2) (Grammar.productions g) ->
  itemKey item1 = itemKey item2 -> viable g path item1 -> viable g path item2.
Proof.
  intros H1 H2 E. unfold itemKey in E. injection E as El Er Ed _.
  apply goodRhs_join_inj in Er;
    [|now apply (parsed_rhs_good input g) | now apply (parsed_rhs_good input g)].
  unfold viable. now rewrite El, Er, Ed.
Qed.

(** The items of the state on top of the stack fit the path. *)
Lemma viable_top (stack : list Value) (path word : list jsstring) :
  onPath g dfa stack path word ->
  forall state item,
    In state states -> hd VUndef stack = VNum (State.id state) ->
    In item (State.items state) -> viable g path item.
Proof.
  intros H. induction H as [|stack path word edge derived H IH Hhd Hedge Hder];
    intros state item Hstate Htop Hitem.
  - (* state 0: every item has the dot at the start *)
    simpl in Htop. injection Htop as E0.
    assert (Hdot : Item.dotPosition item = 0).
    { pose proof Hs as Hs'. unfold generateClrItems in Hs'.
      destruct (Grammar.productions g) as [|augmented rest] eqn:Ep; [discriminate|].
      apply bindRun_Ret in Hs' as (initialClosure & E1 & E2).
      assert (Hok0 : okItems g [Item.mk augmented 0 [dollar]]).
      { intros it [<- | []]. split; simpl; [rewrite Ep; now left|].
        exists dollar. split; [reflexivity | apply parsed_has_dollar]. }
      pose proof (closure_addedForRhs g fuel _ _ Hok0 E1) as Hadd.
      assert (E3 : exists more,
                 states = [State.mk 0 initialClosure [Item.mk augmented 0 [dollar]]] ++ more).
      { apply exploreStates_registered in E2 as [_ [more ->]]; [now exists more|].
        intros [|k] st0 Hk; simpl in Hk; [|discriminate]. injection Hk as <-. simpl.
        split; [reflexivity|]. split.
        - destruct (closure_facts g fuel _ _ E1) as [(extra & -> & _) _]. discriminate.
        - apply lookup_singleton_eq. }
      destruct E3 as [more E3].
      assert (Hin0 : In (State.mk 0 initialClosure [Item.mk augmented 0 [dollar]]) states).
      { rewrite E3. now left. }
      pose proof (state_by_id _ _ Hstate Hin0 (eq_sym E0)) as ->. simpl in Hitem.
      destruct (Hadd item Hitem) as [_ [[<- | []] | [H0 _]]]; [reflexivity | assumption]. }
    unfold viable. rewrite Hdot. simpl. split; [lia|]. split; [now exists []|auto].
  - simpl in Htop. injection Htop as Etarget.
    destruct (generateDfa_edges g states fuel' dfa
                (generateClrItems_ids_NoDup fuel g states Hs) Hd) as [Hjust _].
    destruct (Hjust edge Hedge)
      as (source & target & gotoItems & Hsource & Htarget & Es & Et' & _ & Egoto & _ & Hsame).
    assert (state = target).
    { apply state_by_id; [assumption | assumption | congruence]. }
    subst target.
    assert (Hdist : distinctItems g (State.items source)).
    { now apply (generateClrItems_distinct g fuel states source parsed_has_dollar Hs). }
    pose proof (goto_distinct g fuel' _ _ _ Hdist Egoto) as Hgd.
    destruct (sameItems_onto g gotoItems state Hgd (state_okItems state Hstate) Hsame
                item Hitem) as (x & Hx & Ex).
    assert (Hxp : In (Item.production x) (Grammar.productions g)).
    { destruct Hgd as [Hok _]. now destruct (Hok x Hx). }
    apply (viable_itemKey _ x item Hxp); [|assumption|].
    { now destruct (state_okItems state Hstate item Hitem). }
    unfold goto in Egoto.
    pose proof (closure_addedForRhs g fuel' _ _
                  (advance_ok g _ _ (state_okItems source Hsource)) Egoto x Hx)
      as [_ [Hadv | [H0 Hrhs]]].
    + apply advance_In in Hadv as (it & Hit & Hdb & ->).
      apply viable_advance; [|assumption].
      apply (IH source it Hsource); [now rewrite Hhd, Es | assumption].
    + unfold viable. rewrite H0. simpl. split; [lia|]. split.
      * exists (path ++ [Edge.label edge]). now rewrite app_nil_r.
      * intros El. exfalso. now apply (rhsSymbol_not_start _ Hrhs).
Qed.

Lemma lookupGoto_cell (newState : Value) (lhs : jsstring) :
  lookupGoto table newState lhs
  = cell (ParsingTable.gotos table) (valueString newState) lhs.
Proof. reflexivity. Qed.

(** One turn of the loop keeps the stack on a path, and an accept is on
    the end marker with a stack that holds the start production's
    right-hand side only. *)
Lemma turn_onTrack (text : jsstring) (c : Config) :
  onTrack g dfa text c ->
  match turn g table (splitWs text ++ [dollar]) c with
  | Ret (Next c') => onTrack g dfa text c'
  | Ret (Return r) =>
      ParseResult.isValid r = true ->
      (splitWs text ++ [dollar]) !! Config.pointer c = Some dollar
      /\ derives (nonEmptyPart g) [Grammar.startSymbol g]
           (firstn (Config.pointer c) (splitWs text))
  | _ => True
  end.
Proof.
  intros (Hptr & path & Hon & Hnd).
  destruct (generateParsingTable_justified g states dfa table Ht) as [Hact Hgoto].
  simpl in Hact, Hgoto.
  destruct (onPath_hd _ _ _ _ _ Hon) as [s Etop].
  assert (Htok : exists t, (splitWs text ++ [dollar]) !! Config.pointer c = Some t).
  { apply lookup_lt_is_Some_2. rewrite length_app. simpl. lia. }
  destruct Htok as [t Etok].
  unfold turn. rewrite Etok, Etop.
  destruct (lookupAction table (VNum s) (VStr t)) as [[k|n|]| |] eqn:Ea; try exact I.
  - (* shift *)
    apply lookupAction_Own, Hact in Ea.
    destruct Ea as (edge & Hedge & Erow & Ekey & Ek & Hterm).
    simpl in Erow, Ekey. apply natToString_inj in Erow.
    pose proof (pipeline_no_dollar_edge input g fuel fuel' states dfa edge Hg Hs Hd Hedge)
      as Hnodollar.
    assert (Hlt : Config.pointer c < List.length (splitWs text)).
    { destruct (decide (Config.pointer c = List.length (splitWs text))) as [E | Hne]; [|lia].
      exfalso. rewrite lookup_app_r in Etok by lia.
      rewrite E, Nat.sub_diag in Etok. simpl in Etok. congruence. }
    rewrite lookup_app_l in Etok by assumption.
    assert (Etake : firstn (Config.pointer c + 1) (splitWs text)
                    = firstn (Config.pointer c) (splitWs text) ++ [t]).
    { rewrite Nat.add_1_r. now apply take_S_r. }
    split; simpl; [lia|]. exists (path ++ [Edge.label edge]). rewrite Etake. split.
    + rewrite Ek, Ekey. apply onPath_push; try assumption.
      * now rewrite Etop, Erow.
      * constructor; [now apply includes_In | constructor].
    + intros Hin. apply in_app_or in Hin as [Hin | [E | []]]; [contradiction|].
      apply Hnodollar. congruence.
  - (* reduce *)
    apply lookupAction_Own, Hact in Ea.
    destruct Ea as (state & item & Hstate & Erow & Hitem & Hdot & _ & -> & _).
    simpl in Erow. apply natToString_inj in Erow.
    destruct (state_okItems state Hstate item Hitem) as [Hp _].
    rewrite (parsed_production_at_id input g _ Hg Hp).
    destruct (_ <? _); [discriminate|].
    assert (Hv : viable g path item).
    { apply (viable_top _ _ _ Hon state item Hstate); [now rewrite Etop, Erow | assumption]. }
    destruct Hv as (_ & (before & Epath) & _).
    rewrite Hdot, firstn_all in Epath.
    destruct (Production.rhs (Item.production item)) as [|x rhs] eqn:Erhs.
    + (* an empty right-hand side empties the stack *)
      simpl. rewrite lookupGoto_cell. simpl.
      destruct (cell (ParsingTable.gotos table) (js "undefined") _) as [k|] eqn:Ec;
        [|discriminate].
      exfalso. apply Hgoto in Ec. destruct Ec as (edge & _ & Erow' & _).
      symmetry in Erow'. now apply natToString_not_undefined in Erow'.
    + unfold spliceLast. change (List.length (x :: rhs) * 2 =? 0) with false. cbv iota.
      rewrite Epath in Hon.
      destruct (onPath_pop g dfa (x :: rhs) _ _ _ Hon) as (word0 & wordp & Hon0 & Ew & Hder).
      destruct (onPath_hd _ _ _ _ _ Hon0) as [s0 Etop0].
      rewrite Etop0.
      rewrite lookupGoto_cell. simpl valueString.
      destruct (cell (ParsingTable.gotos table) (natToString s0) _) as [k|] eqn:Ec;
        [|discriminate].
      apply Hgoto in Ec. destruct Ec as (edge & Hedge & Erow' & Ekey & Ek & _).
      apply natToString_inj in Erow'.
      split; simpl; [assumption|]. exists (before ++ [Edge.label edge]).
      split; [|assumption]. rewrite Ew, Ek, Ekey. apply onPath_push; try assumption.
      * rewrite <- Erow'. exact Etop0.
      * rewrite <- Ekey, <- (app_nil_r wordp).
        apply (derives_production (nonEmptyPart g));
          [|now rewrite Erhs | constructor].
        apply filter_In. split; [assumption | now rewrite Erhs].
  - (* accept *)
    intros _. apply lookupAction_Own, Hact in Ea.
    destruct Ea as (Ekey & state & item & Hstate & Erow & Hitem & Hacc).
    simpl in Ekey, Erow. apply natToString_inj in Erow. subst t.
    split; [reflexivity|].
    unfold acceptItem in Hacc. apply andb_prop in Hacc as [Hdot Hacc].
    apply andb_prop in Hacc as [Hlhs _].
    apply Nat.eqb_eq in Hdot. apply streq_eq in Hlhs.
    destruct (state_okItems state Hstate item Hitem) as [Hp _].
    assert (Hv : viable g path item).
    { apply (viable_top _ _ _ Hon state item Hstate); [now rewrite Etop, Erow | assumption]. }
    destruct Hv as (_ & _ & Hstart). pose proof (Hstart Hlhs) as Epath.
    rewrite Hdot, firstn_all in Epath.
    apply onPath_derives in Hon. rewrite Epath in Hon.
    rewrite <- Hlhs, <- (app_nil_r (firstn _ _)).
    apply (derives_production (nonEmptyPart g)); [|assumption | constructor].
    apply filter_In. split; [assumption|].
    destruct (start_production_rhs _ Hp Hlhs) as [symbol ->]. reflexivity.
  - discriminate.
Qed.

Lemma parseLoop_onTrack (text : jsstring) (turns : nat) :
  forall c r,
    onTrack g dfa text c ->
    parseLoop turns g table (splitWs text ++ [dollar]) c = Ret r ->
    ParseResult.isValid r = true ->
    exists pointer,
      pointer <= List.length (splitWs text)
      /\ (splitWs text ++ [dollar]) !! pointer = Some dollar
      /\ ~ In dollar (firstn pointer (splitWs text))
      /\ derives (nonEmptyPart g) [Grammar.startSymbol g] (firstn pointer (splitWs text)).
Proof.
  induction turns as [|turns IH]; intros c r Hc; simpl; [discriminate|].
  pose proof (turn_onTrack text c Hc) as Hturn.
  destruct (turn g table (splitWs text ++ [dollar]) c) as [[c'|r']| |]; simpl;
    try discriminate.
  - now apply IH.
  - intros E Hv. injection E as <-. destruct (Hturn Hv) as [H1 H2].
    destruct Hc as (Hptr & path & _ & Hnd). now exists (Config.pointer c).
Qed.

End Soundness.

(** X17: the recognizer is sound on the tables of the pipeline: when
    [parseString] returns [isValid: true], the tokens before the first [$]
    token are terminals that the start symbol of the grammar derives; they
    are all the tokens of the text when none of them is [$]. *)
Theorem parseString_accepts_only_sentences
    (input : jsstring) (g : Grammar) (fuel fuel' : nat) (states : list State) (dfa : Dfa)
    (table : ParsingTable) (text : jsstring) (turns : nat) (r : ParseResult) :
  parsed input g ->
  generateClrItems fuel g = Ret states -> generateDfa fuel' states g = Ret dfa ->
  generateParsingTable states dfa g = Ret table ->
  parseString turns g table text = Ret r -> ParseResult.isValid r = true ->
  exists word rest,
    splitWs text ++ [dollar] = word ++ dollar :: rest
    /\ ~ In dollar word
    /\ (forall t, In t word -> In t (Grammar.terminals g))
    /\ derives g [Grammar.startSymbol g] word
    /\ (~ In dollar (splitWs text) -> word = splitWs text).
Proof.
  intros Hg Hs Hd Ht E Hv. unfold parseString in E.
  assert (H0 : onTrack g dfa text (Config.mk [VNum 0] 0 [])).
  { split; simpl; [lia|]. exists []. split; [constructor | intros []]. }
  destruct (parseLoop_onTrack input g fuel fuel' states dfa table Hg Hs Hd Ht
              text turns _ r H0 E Hv) as (pointer & Hle & Etok & Hnd & Hder).
  apply derives_nonEmptyPart in Hder.
  exists (firstn pointer (splitWs text)), (skipn (S pointer) (splitWs text ++ [dollar])).
  split; [|split; [assumption|split; [|split; [assumption|]]]].
  - rewrite <- (take_app_le (splitWs text) [dollar] pointer Hle).
    symmetry. now apply take_drop_middle.
  - now apply (derives_terminals g _ _ Hder).
  - intros Hno. destruct (decide (pointer = List.length (splitWs text))) as [-> | Hne].
    + apply firstn_all.
    + exfalso. apply Hno. rewrite lookup_app_l in Etok by lia.
      apply list_elem_of_In. eapply list_elem_of_lookup_2, Etok.
Qed.

Lemma parseString_accepts_only_sentences_witness :
  exists word rest,
    splitWs (js "a b b") ++ [dollar] = word ++ dollar :: rest
    /\ ~ In dollar word
    /\ (forall t, In t word -> In t (Grammar.terminals sampleGrammar))
    /\ derives sampleGrammar [Grammar.startSymbol sampleGrammar] word
    /\ (~ In dollar (splitWs (js "a b b")) -> word = splitWs (js "a b b")).
Proof.
  assert (Hg : parsed (js "S -> A A" ++ nl ++ js "A -> a A" ++ nl ++ js "A -> b") sampleGrammar)
    by (right; vm_compute; reflexivity).
  assert (Hs : generateClrItems 50 sampleGrammar = Ret sampleStates)
    by (vm_compute; reflexivity).
  assert (Hd : generateDfa 50 sampleStates sampleGrammar = Ret sampleDfa)
    by (vm_compute; reflexivity).
  assert (Ht : generateParsingTable sampleStates sampleDfa sampleGrammar = Ret sampleTable)
    by (vm_compute; reflexivity).
  assert (Hr : parseString 50 sampleGrammar sampleTable (js "a b b")
               = Ret (retOr (ParseResult.mk false [])
                        (parseString 50 sampleGrammar sampleTable (js "a b b"))))
    by (vm_compute; reflexivity).
  apply (parseString_accepts_only_sentences _ sampleGrammar 50 50 sampleStates sampleDfa
           sampleTable (js "a b b") 50 _ Hg Hs Hd Ht Hr).
  vm_compute. reflexivity.
Defined.

(** X18: on the tables of the pipeline an accepted input is derived
    without any production whose right-hand side is the empty array: a
    reduce by such a production empties the stack and the call returns a
    rejection. *)
Theorem parseString_never_uses_an_empty_production
    (input : jsstring) (g : Grammar) (fuel fuel' : nat) (states : list State) (dfa : Dfa)
    (table : ParsingTable) (text : jsstring) (turns : nat) (r : ParseResult) :
  parsed input g ->
  generateClrItems fuel g = Ret states -> generateDfa fuel' states g = Ret dfa ->
  generateParsingTable states dfa g = Ret table ->
  parseString turns g table text = Ret r -> ParseResult.isValid r = true ->
  exists word rest,
    splitWs text ++ [dollar] = word ++ dollar :: rest
    /\ derives (nonEmptyPart g) [Grammar.startSymbol g] word.
Proof.
  intros Hg Hs Hd Ht E Hv. unfold parseString in E.
  assert (H0 : onTrack g dfa text (Config.mk [VNum 0] 0 [])).
  { split; simpl; [lia|]. exists []. split; [constructor | intros []]. }
  destruct (parseLoop_onTrack input g fuel fuel' states dfa table Hg Hs Hd Ht
              text turns _ r H0 E Hv) as (pointer & Hle & Etok & _ & Hder).
  exists (firstn pointer (splitWs text)), (skipn (S pointer) (splitWs text ++ [dollar])).
  split; [|assumption].
  rewrite <- (take_app_le (splitWs text) [dollar] pointer Hle).
  symmetry. now apply take_drop_middle.
Qed.

Lemma parseString_never_uses_an_empty_production_witness :
  exists word rest,
    splitWs (js "b b") ++ [dollar] = word ++ dollar :: rest
    /\ derives (nonEmptyPart sampleGrammar) [Grammar.startSymbol sampleGrammar] word.
Proof.
  assert (Hg : parsed (js "S -> A A" ++ nl ++ js "A -> a A" ++ nl ++ js "A -> b") sampleGrammar)
    by (right; vm_compute; reflexivity).
  assert (Hs : generateClrItems 50 sampleGrammar = Ret sampleStates)
    by (vm_compute; reflexivity).
  assert (Hd : generateDfa 50 sampleStates sampleGrammar = Ret sampleDfa)
    by (vm_compute; reflexivity).
  assert (Ht : generateParsingTable sampleStates sampleDfa sampleGrammar = Ret sampleTable)
    by (vm_compute; reflexivity).
  assert (Hr : parseString 50 sampleGrammar sampleTable (js "b b")
               = Ret (retOr (ParseResult.mk false [])
                        (parseString 50 sampleGrammar sampleTable (js "b b"))))
    by (vm_compute; reflexivity).
  apply (parseString_never_uses_an_empty_production _ sampleGrammar 50 50 sampleStates
           sampleDfa sampleTable (js "b b") 50 _ Hg Hs Hd Ht Hr).
  vm_compute. reflexivity.
Defined.

(** ** The trace of the recognizer *)

Lemma turn_steps (g : Grammar) (table : ParsingTable) (tokens : list jsstring) (c : Config) :
  match turn g table tokens c with
  | Ret (Next c') =>
      exists step, Config.steps c' = Config.steps c ++ [step] /\ isProgressStep step = true
  | Ret (Return r) =>
      exists step, ParseResult.steps r = Config.steps c ++ [step]
                   /\ isVerdictStep (ParseResult.isValid r) step
  | _ => True
  end.
Proof.
  unfold turn.
  destruct (lookupAction table _ _) as [[k|n|]| |]; try exact I.
  - eexists. split; reflexivity.
  - destruct (Grammar.productions g !! n) as [production|]; [|exact I].
    destruct (_ <? _); [eexists; split; reflexivity|].
    destruct (lookupGoto table _ _); eexists; split; reflexivity.
  - eexists. split; reflexivity.
  - eexists. split; reflexivity.
Qed.

(** X19: a returned trace is a sequence of steps that each report a shift
    or a reduce, followed by one last step that tells the verdict:
    [String accepted!] when [isValid] is true, an [Error: ...] message when
    it is false. *)
Theorem parseString_trace_shape
    (g : Grammar) (table : ParsingTable) (text : jsstring) (turns : nat) (r : ParseResult) :
  parseString turns g table text = Ret r ->
  exists body last,
    ParseResult.steps r = body ++ [last]
    /\ (forall step, In step body -> isProgressStep step = true)
    /\ isVerdictStep (ParseResult.isValid r) last.
Proof.
  unfold parseString.
  assert (H : forall turns c r,
             parseLoop turns g table (splitWs text ++ [dollar]) c = Ret r ->
             exists body last,
               ParseResult.steps r = Config.steps c ++ body ++ [last]
               /\ (forall step, In step body -> isProgressStep step = true)
               /\ isVerdictStep (ParseResult.isValid r) last).
  { clear turns r. induction turns as [|turns IH]; intros c r; simpl; [discriminate|].
    pose proof (turn_steps g table (splitWs text ++ [dollar]) c) as Hturn.
    destruct (turn g table (splitWs text ++ [dollar]) c) as [[c'|r']| |]; simpl;
      try discriminate.
    - intros E. destruct Hturn as (step & Es & Hp).
      destruct (IH _ _ E) as (body & last & Eb & Hb & Hl).
      exists (step :: body), last. split; [|split; [|assumption]].
      + rewrite Eb, Es, <- app_assoc. reflexivity.
      + intros s [<- | Hs]; auto.
    - intros E. injection E as <-. destruct Hturn as (step & Es & Hv).
      exists [], step. split; [assumption|]. split; [intros s []|assumption]. }
  intros E. destruct (H _ _ _ E) as (body & last & Eb & Hb & Hl).
  exists body, last. now split.
Qed.

Lemma parseString_trace_shape_witness :
  exists body last,
    ParseResult.steps
      (retOr (ParseResult.mk false []) (parseString 50 sampleGrammar sampleTable (js "b")))
    = body ++ [last]
    /\ (forall step, In step body -> isProgressStep step = true)
    /\ isVerdictStep
         (ParseResult.isValid
            (retOr (ParseResult.mk false [])
               (parseString 50 sampleGrammar sampleTable (js "b"))))
         last.
Proof.
  apply (parseString_trace_shape sampleGrammar sampleTable (js "b") 50).
  vm_compute. reflexivity.
Defined.

(** ** The parsing table holds every edge *)

Lemma addEdge_edgeWritten (g : Grammar) (t t' : Tables) (edge : Edge) :
  addEdge g t edge = Ret t' ->
  edgeWritten g t' edge
  /\ forall other, edgeKey other <> edgeKey edge -> edgeWritten g t other ->
       edgeWritten g t' other.
Proof.
  unfold addEdge, edgeWritten.
  destruct (includes (Edge.label edge) (Grammar.terminals g)) eqn:Et.
  - intros E. apply bindRun_Ret in E as (actions & E1 & E2). injection E2 as <-. simpl.
    split.
    + split; [|discriminate]. intros _. rewrite (setCell_cell _ _ _ _ _ E1).
      destruct (decide _) as [_ | Hne]; [reflexivity|]. exfalso. now apply Hne.
    + intros other Hk [H1 H2]. split; [|assumption]. intros Ho.
      rewrite (setCell_cell _ _ _ _ _ E1).
      destruct (decide _) as [[Er El] | _]; [|now apply H1].
      exfalso. apply Hk. apply natToString_inj in Er. unfold edgeKey. congruence.
  - destruct (includes (Edge.label edge) (Grammar.nonTerminals g)) eqn:En.
    + intros E. apply bindRun_Ret in E as (gotos & E1 & E2). injection E2 as <-. simpl.
      split.
      * split; [discriminate|]. intros _ _. rewrite (setCell_cell _ _ _ _ _ E1).
        destruct (decide _) as [_ | Hne]; [reflexivity|]. exfalso. now apply Hne.
      * intros other Hk [H1 H2]. split; [assumption|]. intros Ho Hn.
        rewrite (setCell_cell _ _ _ _ _ E1).
        destruct (decide _) as [[Er El] | _]; [|now apply H2].
        exfalso. apply Hk. apply natToString_inj in Er. unfold edgeKey. congruence.
    + intros E. injection E as <-. split; [|auto]. split; [discriminate|]. congruence.
Qed.

Lemma shiftPhase_edgeWritten (g : Grammar) (states : list State) (dfa : Dfa) (t : Tables) :
  NoDup (List.map edgeKey (Dfa.edges dfa)) ->
  shiftPhase states dfa g = Ret t ->
  forall edge, In edge (Dfa.edges dfa) -> edgeWritten g t edge.
Proof.
  unfold shiftPhase. generalize (initTables states). generalize (Dfa.edges dfa).
  intros edges. 
  assert (H : forall todo done t0 t1,
             NoDup (List.map edgeKey (done ++ todo)) ->
             (forall edge, In edge done -> edgeWritten g t0 edge) ->
             forEach (addEdge g) todo t0 = Ret t1 ->
             forall edge, In edge (done ++ todo) -> edgeWritten g t1 edge).
  { induction todo as [|e todo IH]; intros done t0 t1 Hn H0; simpl.
    - intros E. injection E as <-. now rewrite app_nil_r.
    - intros E. apply bindRun_Ret in E as (t2 & E1 & E2).
      replace (done ++ e :: todo) with ((done ++ [e]) ++ todo) in *
        by now rewrite <- app_assoc.
      apply (IH _ _ _ Hn) with (2 := E2).
      destruct (addEdge_edgeWritten g t0 t2 e E1) as [He Hother].
      intros edge Hin. apply in_app_or in Hin as [Hin | [<- | []]]; [|assumption].
      apply Hother; [|now apply H0].
      intros Hk. rewrite !map_app in Hn. apply NoDup_app in Hn as [Hn _].
      apply NoDup_app in Hn as (_ & Hn & _). apply (Hn (edgeKey edge)).
      + apply list_elem_of_In, in_map_iff. now exists edge.
      + rewrite Hk. simpl. apply list_elem_of_In. now left. }
  intros t0 Hn E. apply (H edges [] t0 t Hn); [intros e [] | assumption].
Qed.

(** X20: every edge of the automaton is in the returned table: an edge on a
    terminal as the shift to its target in the action cell of its source
    and label, whatever reduces the state calls for; an edge on a
    nonterminal as its target in the goto cell of its source and label. *)
Theorem generateParsingTable_holds_every_edge
    (input : jsstring) (g : Grammar) (fuel fuel' : nat) (states : list State) (dfa : Dfa)
    (table : ParsingTable) (edge : Edge) :
  parsed input g ->
  generateClrItems fuel g = Ret states -> generateDfa fuel' states g = Ret dfa ->
  generateParsingTable states dfa g = Ret table ->
  In edge (Dfa.edges dfa) ->
  edgeWritten g (ParsingTable.actions table, ParsingTable.gotos table) edge.
Proof.
  intros Hg Hs Hd Ht Hedge.
  destruct (generateDfa_edges g states fuel' dfa
              (generateClrItems_ids_NoDup fuel g states Hs) Hd) as [_ Hn].
  unfold generateParsingTable in Ht.
  apply bindRun_Ret in Ht as (t & Et & Ht). apply bindRun_Ret in Ht as (actions & Ea & Ht).
  injection Ht as <-. simpl.
  destruct (shiftPhase_edgeWritten g states dfa t Hn Et edge Hedge) as [H1 H2].
  split; [|exact H2]. simpl. intros Hterm.
  eapply reducePhase_keeps_shift; [|exact (H1 Hterm) | exact Ea].
  eapply pipeline_no_dollar_edge; eassumption.
Qed.

Lemma generateParsingTable_holds_every_edge_witness :
  edgeWritten sampleGrammar
    (ParsingTable.actions sampleTable, ParsingTable.gotos sampleTable)
    (nth 0 (Dfa.edges sampleDfa) (Edge.mk 0 0 [])).
Proof.
  assert (Hg : parsed (js "S -> A A" ++ nl ++ js "A -> a A" ++ nl ++ js "A -> b") sampleGrammar)
    by (right; vm_compute; reflexivity).
  assert (Hs : generateClrItems 50 sampleGrammar = Ret sampleStates)
    by (vm_compute; reflexivity).
  assert (Hd : generateDfa 50 sampleStates sampleGrammar = Ret sampleDfa)
    by (vm_compute; reflexivity).
  assert (Ht : generateParsingTable sampleStates sampleDfa sampleGrammar = Ret sampleTable)
    by (vm_compute; reflexivity).
  apply (generateParsingTable_holds_every_edge _ sampleGrammar 50 50 sampleStates sampleDfa
           sampleTable _ Hg Hs Hd Ht).
  vm_compute. left. reflexivity.
Defined.

(** ** The parsing table has an action for every complete item *)

Lemma setCell_defined {V} (table table' : gmap jsstring (gmap jsstring V))
    (row key : jsstring) (v : V) (row' key' : jsstring) :
  setCell table row key v = Ret table' ->
  is_Some (cell table row' key') -> is_Some (cell table' row' key').
Proof.
  intros E H. rewrite (setCell_cell _ _ _ _ _ E).
  destruct (decide _); [now eexists | assumption].
Qed.

Lemma addReduce_defined (row : jsstring) (productionId : nat)
    (actions actions' : gmap jsstring (gmap jsstring Action))
    (lookahead row' key' : jsstring) :
  addReduce row productionId actions lookahead = Ret actions' ->
  is_Some (cell actions row' key') -> is_Some (cell actions' row' key').
Proof.
  unfold addReduce. destruct (actions !! row) as [r|]; [|discriminate].
  destruct (getProperty r lookahead) as [a| |]; [|discriminate|apply setCell_defined].
  destruct (negb (isShift a)); [apply setCell_defined|].
  intros E. now injection E as <-.
Qed.

Lemma addReduce_writes (row : jsstring) (productionId : nat)
    (actions actions' : gmap jsstring (gmap jsstring Action)) (lookahead : jsstring) :
  addReduce row productionId actions lookahead = Ret actions' ->
  is_Some (cell actions' row lookahead).
Proof.
  unfold addReduce. destruct (actions !! row) as [r|] eqn:Er; [|discriminate].
  pose proof (cell_getProperty actions row lookahead r Er) as Hc.
  assert (Hset : forall a, setCell actions row lookahead a = Ret actions' ->
                           is_Some (cell actions' row lookahead)).
  { intros a E. rewrite (setCell_cell _ _ _ _ _ E).
    destruct (decide _) as [_ | Hne]; [now eexists|]. exfalso. now apply Hne. }
  destruct (getProperty r lookahead) as [a| |]; [|discriminate|apply Hset].
  destruct (negb (isShift a)); [apply Hset|].
  intros E. injection E as <-. rewrite Hc. now eexists.
Qed.

Lemma addItemActions_defined (g : Grammar) (stateId : nat)
    (actions actions' : gmap jsstring (gmap jsstring Action)) (item : Item)
    (row' key' : jsstring) :
  addItemActions g stateId actions item = Ret actions' ->
  is_Some (cell actions row' key') -> is_Some (cell actions' row' key').
Proof.
  unfold addItemActions. destruct (_ =? _); [|intros E; now injection E as <-].
  destruct (_ && _); [apply setCell_defined|].
  intros E H. revert E.
  apply (forEach_invariant (fun a => is_Some (cell a row' key'))); [|assumption].
  intros a l a' _ Ha E. eapply addReduce_defined; eassumption.
Qed.

Lemma addItemActions_writes (g : Grammar) (stateId : nat)
    (actions actions' : gmap jsstring (gmap jsstring Action)) (item : Item)
    (lookahead : jsstring) :
  Item.dotPosition item = List.length (Production.rhs (Item.production item)) ->
  Item.lookahead item = [lookahead] ->
  addItemActions g stateId actions item = Ret actions' ->
  is_Some (cell actions' (natToString stateId) lookahead).
Proof.
  intros Hdot El. unfold addItemActions. rewrite Hdot, Nat.eqb_refl, El.
  destruct (_ && _) eqn:Es.
  - apply andb_prop in Es as [_ Es]. apply includes_In in Es as [<- | []].
    intros E. rewrite (setCell_cell _ _ _ _ _ E).
    destruct (decide _) as [_ | Hne]; [now eexists|]. exfalso. now apply Hne.
  - simpl. intros E. apply bindRun_Ret in E as (a & E1 & E2). injection E2 as <-.
    eapply addReduce_writes, E1.
Qed.

Lemma addStateActions_defined (g : Grammar)
    (actions actions' : gmap jsstring (gmap jsstring Action)) (state : State)
    (row' key' : jsstring) :
  addStateActions g actions state = Ret actions' ->
  is_Some (cell actions row' key') -> is_Some (cell actions' row' key').
Proof.
  unfold addStateActions. intros E H. revert E.
  apply (forEach_invariant (fun a => is_Some (cell a row' key'))); [|assumption].
  intros a item a' _ Ha E. eapply addItemActions_defined; eassumption.
Qed.

(** X21: in the table of the pipeline every complete item of a state has
    left an action in the cell of the state and of its lookahead: the
    reduce or the accept of the item, the shift that was there, or what a
    later item of the state wrote over it. *)
Theorem generateParsingTable_acts_on_every_complete_item
    (input : jsstring) (g : Grammar) (fuel fuel' : nat) (states : list State) (dfa : Dfa)
    (table : ParsingTable) (state : State) (item : Item) (lookahead : jsstring) :
  parsed input g ->
  generateClrItems fuel g = Ret states -> generateDfa fuel' states g = Ret dfa ->
  generateParsingTable states dfa g = Ret table ->
  In state states -> In item (State.items state) ->
  Item.dotPosition item = List.length (Production.rhs (Item.production item)) ->
  In lookahead (Item.lookahead item) ->
  exists action,
    cell (ParsingTable.actions table) (natToString (State.id state)) lookahead
    = Some action.
Proof.
  intros Hg Hs Hd Ht Hstate Hitem Hdot Hl.
  assert (El : Item.lookahead item = [lookahead]).
  { destruct (state_okItems input g fuel states Hg Hs state Hstate item Hitem)
      as [_ (l & El & _)].
    rewrite El in Hl. destruct Hl as [<- | []]. assumption. }
  unfold generateParsingTable in Ht.
  apply bindRun_Ret in Ht as (t & _ & Ht). apply bindRun_Ret in Ht as (actions & Ea & Ht).
  injection Ht as <-. simpl.
  apply in_split in Hstate as (s1 & s2 & ->).
  rewrite forEach_app in Ea. apply bindRun_Ret in Ea as (a1 & _ & Ea).
  simpl in Ea. apply bindRun_Ret in Ea as (a2 & E2 & Ea).
  assert (H2 : is_Some (cell a2 (natToString (State.id state)) lookahead)).
  { unfold addStateActions in E2.
    apply in_split in Hitem as (i1 & i2 & Ei). rewrite Ei in E2.
    rewrite forEach_app in E2. apply bindRun_Ret in E2 as (b1 & _ & E2).
    simpl in E2. apply bindRun_Ret in E2 as (b2 & E3 & E2).
    revert E2.
    apply (forEach_invariant
             (fun a => is_Some (cell a (natToString (State.id state)) lookahead))).
    - intros a it a' _ Ha E. eapply addItemActions_defined; eassumption.
    - eapply addItemActions_writes; eassumption. }
  revert Ea.
  apply (forEach_invariant
           (fun a => is_Some (cell a (natToString (State.id state)) lookahead)));
    [|assumption].
  intros a st a' _ Ha E. eapply addStateActions_defined; eassumption.
Qed.

Lemma generateParsingTable_acts_on_every_complete_item_witness :
  let state := nth 4 sampleStates (State.mk 0 [] []) in
  exists action,
    cell (ParsingTable.actions sampleTable) (natToString (State.id state)) (js "a")
    = Some action.
Proof.
  assert (Hg : parsed (js "S -> A A" ++ nl ++ js "A -> a A" ++ nl ++ js "A -> b") sampleGrammar)
    by (right; vm_compute; reflexivity).
  assert (Hs : generateClrItems 50 sampleGrammar = Ret sampleStates)
    by (vm_compute; reflexivity).
  assert (Hd : generateDfa 50 sampleStates sampleGrammar = Ret sampleDfa)
    by (vm_compute; reflexivity).
  assert (Ht : generateParsingTable sampleStates sampleDfa sampleGrammar = Ret sampleTable)
    by (vm_compute; reflexivity).
  apply (generateParsingTable_acts_on_every_complete_item _ sampleGrammar 50 50 sampleStates
           sampleDfa sampleTable (nth 4 sampleStates (State.mk 0 [] []))
           (nth 0 (State.items (nth 4 sampleStates (State.mk 0 [] [])))
              (startItem sampleGrammar 0 dollar))
           (js "a") Hg Hs Hd Ht).
  - vm_compute. do 4 right. left. reflexivity.
  - vm_compute. left. reflexivity.
  - vm_compute. reflexivity.
  - vm_compute. left. reflexivity.
Defined.

(** ** FIRST sets and derivations *)

Lemma parsed_lhs_upper (input : jsstring) (g : Grammar) (p : Production) :
  parsed input g -> In p (Grammar.productions g) ->
  exists c s, Production.lhs p = c :: s /\ isUpper c = true.
Proof.
  intros Hg Hp. apply parsed_shape in Hg as (first & ps & Eps & Hgood & _ & _).
  rewrite Eps in Hp. rewrite List.Forall_forall in Hgood.
  assert (Hname : forall q, In q (first :: ps) ->
            exists c s, Production.lhs q = c :: s /\ isUpper c = true).
  { intros q Hq. apply Hgood in Hq as (Hl & _).
    destruct (Production.lhs q) as [|c s]; [discriminate|].
    simpl in Hl. apply andb_prop in Hl as [Hc _]. now exists c, s. }
  destruct Hp as [<- | Hp]; [|now apply Hname].
  destruct (Hname first (or_introl eq_refl)) as (c & s & E & Hc).
  simpl. rewrite E. now exists c, (s ++ js "'").
Qed.

Lemma parsed_terminal_not_upper (input : jsstring) (g : Grammar) (t : jsstring) :
  parsed input g -> In t (Grammar.terminals g) ->
  exists c s, t = c :: s /\ isUpper c = false /\ c <> 949%N.
Proof.
  intros Hg Ht. apply parsed_sets in Hg as (first & ps & ts & nts & _ & Et & _ & _ & Hinv).
  destruct Hinv as (_ & _ & Hts & _).
  rewrite Et in Ht. apply In_setAdd in Ht as [-> | Ht].
  - exists 36%N, []. split; [reflexivity|]. split; [reflexivity | discriminate].
  - apply Hts in Ht. destruct t as [|c s]; [discriminate|]. exists c, s.
    split; [reflexivity|]. simpl in Ht. apply andb_prop in Ht as [Hc _].
    unfold isUpper, isLower, isDigit in *. split; [|intros ->; discriminate].
    apply orb_prop in Hc as [Hc | Hc]; apply andb_prop in Hc as [H1 H2];
      apply N.leb_le in H1, H2; apply andb_false_iff.
    + right. apply N.leb_gt. lia.
    + left. apply N.leb_gt. lia.
Qed.

Lemma firstOfProductions_collects (rec : list jsstring -> Run (list jsstring))
    (firstSymbol : jsstring) (rest : list jsstring) (p : Production) :
  forall prods first r,
    firstOfProductions rec firstSymbol rest prods first = Ret r ->
    (forall x, In x first -> In x r)
    /\ (In p prods -> Production.lhs p = firstSymbol ->
        isEpsilonRhs (Production.rhs p) = false ->
        exists rhsFirst, rec (Production.rhs p) = Ret rhsFirst
          /\ forall x, In x rhsFirst -> x <> eps -> In x r).
Proof.
  induction prods as [|production prods IH]; intros first r; simpl.
  - intros E. injection E as <-. split; [auto | intros []].
  - destruct (streq (Production.lhs production) firstSymbol) eqn:El.
    + destruct (isEpsilonRhs (Production.rhs production)) eqn:Ee.
      * assert (Hnext : forall first1,
                   (forall x, In x first -> In x first1) ->
                   firstOfProductions rec firstSymbol rest prods first1 = Ret r ->
                   (forall x, In x first -> In x r)
                   /\ (production = p \/ In p prods -> Production.lhs p = firstSymbol ->
                       isEpsilonRhs (Production.rhs p) = false ->
                       exists rhsFirst, rec (Production.rhs p) = Ret rhsFirst
                         /\ forall x, In x rhsFirst -> x <> eps -> In x r)).
        { intros first1 Hsub E. destruct (IH _ _ E) as [H1 H2]. split; [auto|].
          intros [<- | Hp] Hl He; [congruence | now apply H2]. }
        destruct (0 <? List.length rest).
        -- intros E. apply bindRun_Ret in E as (restFirst & _ & E).
           apply (Hnext _) in E; [assumption|].
           intros x Hx. apply In_setAddAll. right. apply In_setAdd. now right.
        -- apply Hnext. intros x Hx. apply In_setAdd. now right.
      * intros E. apply bindRun_Ret in E as (rhsFirst & E1 & E).
        assert (Hnext : forall first1,
                   (forall x, In x first -> In x first1) ->
                   (forall x, In x rhsFirst -> x <> eps -> In x first1) ->
                   firstOfProductions rec firstSymbol rest prods first1 = Ret r ->
                   (forall x, In x first -> In x r)
                   /\ (production = p \/ In p prods -> Production.lhs p = firstSymbol ->
                       isEpsilonRhs (Production.rhs p) = false ->
                       exists rhsFirst, rec (Production.rhs p) = Ret rhsFirst
                         /\ forall x, In x rhsFirst -> x <> eps -> In x r)).
        { intros first1 Hsub Hrhs E'. destruct (IH _ _ E') as [H1 H2]. split; [auto|].
          intros [<- | Hp] Hl He; [|now apply H2].
          exists rhsFirst. split; [assumption | auto]. }
        assert (Hacc : forall x, In x rhsFirst -> x <> eps ->
                  In x (setAddAll
                          (List.filter (fun symbol => negb (streq symbol eps)) rhsFirst)
                          first)).
        { intros x Hx Hne. apply In_setAddAll. left. apply filter_In.
          split; [assumption|]. apply negb_true_iff. now apply streq_neq. }
        destruct (includes eps rhsFirst && (0 <? List.length rest)).
        -- apply bindRun_Ret in E as (restFirst & _ & E).
           apply (Hnext _) in E; [assumption| |].
           ++ intros x Hx. apply In_setAddAll. right. apply In_setAddAll. now right.
           ++ intros x Hx Hne. apply In_setAddAll. right. now apply Hacc.
        -- apply (Hnext _) in E; [assumption| |assumption].
           intros x Hx. apply In_setAddAll. now right.
    + intros E. destruct (IH _ _ E) as [H1 H2]. split; [assumption|].
      intros [<- | Hp] Hl He; [|now apply H2].
      apply streq_neq in El. contradiction.
Qed.

Lemma derives_nonEmpty_word (g : Grammar) (form word : list jsstring) :
  derives (nonEmptyPart g) form word -> form <> [] -> word <> [].
Proof.
  intros H. induction H as [|t form word Ht H IH|p form w1 w2 Hp Hr IHr H IH];
    intros Hne; [contradiction | discriminate |].
  apply filter_In in Hp as [_ Hp].
  assert (Hrhs : Production.rhs p <> []).
  { intros E. rewrite E in Hp. discriminate. }
  apply IHr in Hrhs. destruct w1; [contradiction | discriminate].
Qed.

(** X22: [computeFirst] finds every terminal that starts a word derived
    from the sequence with productions whose right-hand side is not empty:
    when it returns, the set holds the first terminal of every such
    word. *)
Theorem computeFirst_holds_first_terminals
    (input : jsstring) (g : Grammar) (symbols word : list jsstring) :
  parsed input g ->
  derives (nonEmptyPart g) symbols word ->
  forall fuel first terminal rest,
    computeFirst fuel g symbols = Ret first ->
    word = terminal :: rest -> In terminal first.
Proof.
  intros Hg H.
  induction H as [|t form word Ht H IH|p form w1 w2 Hp Hr IHr H IH];
    intros fuel first terminal rest E Ew; [discriminate| |].
  - destruct fuel as [|fuel]; [discriminate|]. simpl in E.
    apply includes_In in Ht. simpl in Ht. rewrite Ht in E.
    injection E as <-. injection Ew as <- _. now left.
  - destruct fuel as [|fuel]; [discriminate|]. simpl in E.
    pose proof Hp as Hp'. apply filter_In in Hp' as [Hpg Hlen].
    destruct (includes (Production.lhs p) (Grammar.terminals g)) eqn:Et.
    { exfalso. apply includes_In in Et.
      destruct (parsed_lhs_upper input g p Hg Hpg) as (c & s & El & Hc).
      destruct (parsed_terminal_not_upper input g _ Hg Et) as (c' & s' & El' & Hc' & _).
      congruence. }
    assert (Hne : Production.rhs p <> []).
    { intros E0. rewrite E0 in Hlen. discriminate. }
    assert (Hw1 : w1 <> []) by (eapply derives_nonEmpty_word; eassumption).
    destruct w1 as [|t1 w1]; [contradiction|]. injection Ew as <- _.
    assert (Heps : isEpsilonRhs (Production.rhs p) = false).
    { destruct (Production.rhs p) as [|x rhs] eqn:Erhs; [contradiction|]. simpl.
      apply streq_neq. intros ->.
      inversion Hr as [|t0 form0 word0 Ht0 _ E1 E2|p0 form0 w0 w0' Hp0 _ _ E1 E2].
      - destruct (parsed_terminal_not_upper input g _ Hg Ht0) as (c & s & E0 & _ & Hc).
        injection E0 as <- _. now apply Hc.
      - apply filter_In in Hp0 as [Hp0 _].
        destruct (parsed_lhs_upper input g p0 Hg Hp0) as (c & s & E0 & Hc).
        rewrite E0 in E1. injection E1 as -> _. discriminate. }
    destruct (firstOfProductions_collects (computeFirst fuel g) (Production.lhs p) form p
                _ _ _ E) as [_ Hcollect].
    destruct (Hcollect Hpg eq_refl Heps) as (rhsFirst & Erhs & Hin).
    apply Hin.
    + eapply IHr; [exact Erhs | reflexivity].
    + intros ->. 
      pose proof (derives_terminals _ _ _ Hr eps (or_introl eq_refl)) as Hterm.
      destruct (parsed_terminal_not_upper input g _ Hg Hterm) as (c & s & E0 & _ & Hc).
      injection E0 as <- _. now apply Hc.
Qed.

Lemma computeFirst_holds_first_terminals_witness :
  In (js "a") (retOr [] (computeFirst 10 sampleGrammar [js "A"; js "A"])).
Proof.
  assert (Hg : parsed (js "S -> A A" ++ nl ++ js "A -> a A" ++ nl ++ js "A -> b") sampleGrammar)
    by (right; vm_compute; reflexivity).
  assert (Hd : derives (nonEmptyPart sampleGrammar) [js "A"; js "A"]
                 ((js "a" :: [js "b"]) ++ [js "b"])).
  { apply (derives_production (nonEmptyPart sampleGrammar)
             (Production.mk (js "A") [js "a"; js "A"] 2) [js "A"]).
    - vm_compute. do 2 right. left. reflexivity.
    - apply derives_terminal; [vm_compute; left; reflexivity|].
      apply (derives_production (nonEmptyPart sampleGrammar)
               (Production.mk (js "A") [js "b"] 3) [] [js "b"] []).
      + vm_compute. do 3 right. left. reflexivity.
      + apply derives_terminal; [vm_compute; right; left; reflexivity | constructor].
      + constructor.
    - apply (derives_production (nonEmptyPart sampleGrammar)
               (Production.mk (js "A") [js "b"] 3) [] [js "b"] []).
      + vm_compute. do 3 right. left. reflexivity.
      + apply derives_terminal; [vm_compute; right; left; reflexivity | constructor].
      + constructor. }
  apply (computeFirst_holds_first_terminals _ sampleGrammar [js "A"; js "A"] _ Hg Hd 10
           _ (js "a") ([js "b"] ++ [js "b"])).
  - vm_compute. reflexivity.
  - reflexivity.
Defined.

(** ** The grammar form *)

Lemma dropWhile_rev_last (p : N -> bool) (s : jsstring) :
  s <> [] -> p (List.last s 32%N) = false -> dropWhile p (rev s) = rev s.
Proof.
  intros Hne Hl. destruct (exists_last Hne) as (s' & c & ->).
  rewrite last_last in Hl. rewrite rev_unit. simpl. now rewrite Hl.
Qed.

(** A string with no white space at either end is its own trim. *)
Lemma trim_fixed (s : jsstring) :
  s <> [] -> isWhiteSpace (hd 32%N s) = false -> isWhiteSpace (List.last s 32%N) = false ->
  trim s = s.
Proof.
  intros Hne Hh Hl. unfold trim.
  assert (E : dropWhile isWhiteSpace s = s).
  { destruct s as [|c s]; [contradiction|]. simpl in Hh. simpl. now rewrite Hh. }
  rewrite E, (dropWhile_rev_last _ s Hne Hl). apply rev_involutive.
Qed.

Lemma trim_idempotent (s : jsstring) : trim (trim s) = trim s.
Proof.
  destruct (trim s) as [|c t] eqn:E; [reflexivity|]. rewrite <- E.
  assert (Hne : trim s <> []) by (rewrite E; discriminate).
  destruct (trim_ends s Hne) as [Hh Hl]. now apply trim_fixed.
Qed.

Lemma splitRhs_trim (rhsStr : jsstring) : splitRhs (trim rhsStr) = splitRhs rhsStr.
Proof. unfold splitRhs. now rewrite trim_idempotent. Qed.

Lemma Lib_keepsOrEmptiesEps : keepsOrEmptiesEps Lib.storeRhs.
Proof. intros rhs. now left. Qed.

Lemma Part1_keepsOrEmptiesEps : keepsOrEmptiesEps Part1.storeRhs.
Proof.
  intros rhs. unfold Part1.storeRhs.
  destruct (_ && _) eqn:E; [|now left]. right. split; [reflexivity|].
  apply andb_prop in E as [El Ee]. apply Nat.eqb_eq in El. apply streq_eq in Ee.
  destruct rhs as [|x [|y rhs]]; try discriminate. simpl in Ee. now subst.
Qed.

Section FormAgrees.
Variable storeRhs : list jsstring -> list jsstring.
Hypothesis Hstore : keepsOrEmptiesEps storeRhs.

Lemma parseLines_rules (lines : list jsstring) :
  forall i productions terminals nonTerminals ps ts nts,
    parseLines storeRhs lines i productions terminals nonTerminals = inr (ps, ts, nts) ->
    exists added,
      ps = productions ++ added
      /\ Forall2 sameRule
           (flat_map (fun line =>
                match matchProduction line with
                | Some (lhs, rhs) => [Rule.mk lhs (trim rhs)]
                | None => []
                end) lines)
           added.
Proof.
  induction lines as [|line lines IH]; intros i productions terminals nonTerminals ps ts nts;
    simpl.
  - intros E. injection E as <- _ _. exists []. rewrite app_nil_r. split; [reflexivity|].
    constructor.
  - destruct (matchProduction line) as [[lhs rhsStr]|]; [|discriminate].
    destruct (classifySymbols _ _ _) as [e|[terminals2 nonTerminals2]]; [discriminate|].
    intros E. apply IH in E as (added & -> & Hadded).
    exists (Production.mk lhs (storeRhs (splitRhs rhsStr)) (i + 1) :: added).
    split; [now rewrite <- app_assoc|]. simpl. constructor; [|assumption].
    split; [reflexivity|]. simpl. rewrite splitRhs_trim.
    destruct (Hstore (splitRhs rhsStr)) as [-> | [-> E]]; [now left | now right].
Qed.

Lemma parseGrammarWith_rules (input : jsstring) (g : Grammar) :
  parseGrammarWith storeRhs input = inr g ->
  Forall2 sameRule (parseExistingGrammar input) (tl (Grammar.productions g)).
Proof.
  destruct input as [|c input]; [discriminate|].
  unfold parseGrammarWith, parseExistingGrammar.
  destruct (List.length _ =? 0); [discriminate|].
  destruct (parseLines storeRhs _ 0 [] [] []) as [e|[[ps ts] nts]] eqn:Ep; [discriminate|].
  destruct ps as [|first ps]; [discriminate|].
  intros E. injection E as <-. simpl.
  apply parseLines_rules in Ep as (added & Ea & H). simpl in Ea. now subst added.
Qed.

End FormAgrees.

(** X23: the form reads a grammar text as [parseGrammar] does: when
    [parseGrammar] returns a grammar for the text, the rows that
    [parseExistingGrammar] returns are its productions after the augmented
    one, in order, each with the same left-hand side and with a right-hand
    side whose split is the production's (or the epsilon marker alone where
    the production's is the empty array). *)
Theorem parseExistingGrammar_agrees_with_parseGrammar (input : jsstring) (g : Grammar) :
  parsed input g ->
  Forall2 sameRule (parseExistingGrammar input) (tl (Grammar.productions g)).
Proof.
  intros [H | H].
  - now apply (parseGrammarWith_rules Lib.storeRhs Lib_keepsOrEmptiesEps).
  - now apply (parseGrammarWith_rules Part1.storeRhs Part1_keepsOrEmptiesEps).
Qed.

Lemma parseExistingGrammar_agrees_with_parseGrammar_witness :
  Forall2 sameRule
    (parseExistingGrammar (js "S -> A A" ++ nl ++ js "A -> a A" ++ nl ++ js "A -> b"))
    (tl (Grammar.productions sampleGrammar)).
Proof.
  apply (parseExistingGrammar_agrees_with_parseGrammar
           (js "S -> A A" ++ nl ++ js "A -> a A" ++ nl ++ js "A -> b") sampleGrammar).
  right. vm_compute. reflexivity.
Defined.

Lemma greedy_first {A} (f : nat -> option A) (lo k : nat) (r : A) :
  f k = Some r -> greedy f lo k = Some r.
Proof. intros H. destruct k; simpl; now rewrite H. Qed.

Lemma takeWhile_all (p : N -> bool) (s : jsstring) :
  forallb p s = true -> takeWhile p s = s.
Proof.
  induction s as [|c s IH]; simpl; [reflexivity|].
  intros H. apply andb_prop in H as [-> H]. now rewrite IH.
Qed.

(** After the arrow and one space, a text on one line that does not start
    with white space is the second group of the pattern. *)
Lemma matchRhs_after_space (rhs : jsstring) :
  rhs <> [] -> isWhiteSpace (hd 32%N rhs) = false ->
  forallb (fun c => negb (isLineTerminator c)) rhs = true ->
  matchRhs (32%N :: rhs) = Some rhs.
Proof.
  intros Hne Hh Hl. unfold matchRhs.
  assert (Ew : takeWhile isWhiteSpace (32%N :: rhs) = [32%N]).
  { destruct rhs as [|c rhs]; [contradiction|]. simpl in Hh. simpl.
    change (isWhiteSpace 32) with true. cbv iota. now rewrite Hh. }
  rewrite Ew. apply greedy_first. cbv beta zeta.
  change (skipn (List.length [32%N]) (32%N :: rhs)) with rhs.
  rewrite (takeWhile_all _ rhs Hl).
  destruct (List.length rhs =? 0) eqn:E0.
  { apply Nat.eqb_eq in E0. destruct rhs; [contradiction | discriminate]. }
  apply greedy_first. cbv beta. rewrite skipn_all, firstn_all. reflexivity.
Qed.

Lemma matchProduction_formRule (rule : Rule) :
  formRule rule ->
  matchProduction (Rule.lhs rule ++ js " -> " ++ Rule.rhs rule)
  = Some (Rule.lhs rule, Rule.rhs rule).
Proof.
  intros (Hlhs & Hne & Hh & _ & Hl).
  destruct (Rule.lhs rule) as [|c name]; [discriminate|]. simpl in Hlhs.
  apply andb_prop in Hlhs as [Hc Hn]. unfold matchProduction.
  change ((c :: name) ++ js " -> " ++ Rule.rhs rule)
    with (c :: name ++ js " -> " ++ Rule.rhs rule).
  rewrite (dropWhile_stop isWhiteSpace c _ (isUpper_not_space c Hc)), Hc.
  rewrite (dropWhile_app isAlnum name _ Hn), (takeWhile_app isAlnum name _ Hn).
  change (js " -> " ++ Rule.rhs rule) with (32%N :: 45%N :: 62%N :: 32%N :: Rule.rhs rule).
  simpl dropWhile. simpl takeWhile. rewrite app_nil_r.
  change (N.eqb 45 45 && N.eqb 62 62) with true. cbv iota.
  now rewrite (matchRhs_after_space _ Hne Hh Hl).
Qed.

Lemma splitOn_app_separator (sep : N) (a b : jsstring) :
  ~ In sep a -> splitOn sep (a ++ sep :: b) = a :: splitOn sep b.
Proof.
  induction a as [|c a IH]; intros Ha; simpl.
  - now rewrite N.eqb_refl.
  - destruct (N.eqb c sep) eqn:E.
    + apply N.eqb_eq in E. exfalso. apply Ha. now left.
    + rewrite IH; [reflexivity|]. intros H. apply Ha. now right.
Qed.

Lemma splitOn_join (lines : list jsstring) :
  lines <> [] -> (forall line, In line lines -> ~ In 10%N line) ->
  splitOn 10%N (join nl lines) = lines.
Proof.
  induction lines as [|line lines IH]; intros Hne Hno; [contradiction|].
  destruct lines as [|line2 lines].
  - simpl. apply splitOn_no_separator. apply Hno. now left.
  - change (join nl (line :: line2 :: lines))
      with (line ++ 10%N :: join nl (line2 :: lines)).
    rewrite splitOn_app_separator by (apply Hno; now left).
    f_equal. apply IH; [discriminate|]. intros l Hl. apply Hno. now right.
Qed.

Lemma join_hd (lines : list jsstring) (line : jsstring) :
  line <> [] -> hd 32%N (join nl (line :: lines)) = hd 32%N line.
Proof.
  intros Hne. destruct line as [|c line]; [contradiction|].
  destruct lines; reflexivity.
Qed.

Lemma last_app_nonempty {A} (a b : list A) (d : A) :
  b <> [] -> List.last (a ++ b) d = List.last b d.
Proof.
  intros Hb. induction a as [|x a IH]; [reflexivity|].
  simpl. destruct (a ++ b) eqn:E; [|assumption].
  apply app_eq_nil in E as [_ E]. contradiction.
Qed.

Lemma join_last (lines : list jsstring) :
  lines <> [] -> List.last lines [] <> [] ->
  List.last (join nl lines) 32%N = List.last (List.last lines []) 32%N.
Proof.
  induction lines as [|line lines IH]; intros Hne Hl; [contradiction|].
  destruct lines as [|line2 lines]; [reflexivity|].
  change (join nl (line :: line2 :: lines))
    with (line ++ 10%N :: join nl (line2 :: lines)).
  change (List.last (line :: line2 :: lines) []) with (List.last (line2 :: lines) []) in *.
  rewrite <- IH by (assumption || discriminate).
  assert (Hj : join nl (line2 :: lines) <> []).
  { intros E. remember (line2 :: lines) as l eqn:El. clear El line2 lines IH Hne.
    induction l as [|x l IHl]; [contradiction|].
    destruct l as [|y l]; [simpl in E, Hl; congruence|].
    change (join nl (x :: y :: l)) with (x ++ 10%N :: join nl (y :: l)) in E.
    destruct x; discriminate. }
  rewrite (last_app_nonempty line (10%N :: join nl (line2 :: lines))) by discriminate.
  destruct (join nl (line2 :: lines)) as [|c j]; [contradiction|]. reflexivity.
Qed.

Lemma formRule_line (rule : Rule) :
  formRule rule ->
  let line := Rule.lhs rule ++ js " -> " ++ Rule.rhs rule in
  line <> []
  /\ isWhiteSpace (hd 32%N line) = false
  /\ isWhiteSpace (List.last line 32%N) = false
  /\ ~ In 10%N line.
Proof.
  intros (Hlhs & Hne & Hh & Hlast & Hl). cbv zeta.
  destruct (Rule.lhs rule) as [|c name] eqn:El; [discriminate|]. simpl in Hlhs.
  apply andb_prop in Hlhs as [Hc Hn].
  split; [discriminate|]. split; [simpl; now apply isUpper_not_space|]. split.
  - rewrite app_assoc, last_app_nonempty by assumption. assumption.
  - intros Hin. apply in_app_or in Hin as [Hin | Hin].
    + destruct Hin as [E | Hin]; [rewrite E in Hc; discriminate|].
      now apply (forallb_alnum_notin name 10%N Hn).
    + apply in_app_or in Hin as [Hin | Hin].
      * vm_compute in Hin. intuition discriminate.
      * rewrite forallb_forall in Hl. apply Hl in Hin. discriminate.
Qed.

Lemma formRule_kept (rule : Rule) :
  formRule rule -> negb (streq (trim (Rule.lhs rule)) []) = true.
Proof.
  intros (Hlhs & _). apply negb_true_iff, streq_neq.
  destruct (Rule.lhs rule) as [|c name]; [discriminate|]. simpl in Hlhs.
  apply andb_prop in Hlhs as [Hc _]. unfold trim.
  rewrite (dropWhile_stop isWhiteSpace c _ (isUpper_not_space c Hc)).
  intros E. apply (f_equal (@rev N)) in E. rewrite rev_involutive in E. simpl in E.
  assert (H : forall s, dropWhile isWhiteSpace (s ++ [c]) <> []).
  { induction s as [|d s IH]; simpl.
    - rewrite (isUpper_not_space c Hc). discriminate.
    - destruct (isWhiteSpace d); [assumption | discriminate]. }
  now apply (H (rev name)).
Qed.

(** X24: what the form writes it reads back: for rows that each have a
    nonterminal name on the left and, on the right, a non-empty text on one
    line with no white space at either end, [parseExistingGrammar] on the
    text of [updateGrammar] returns the rows. *)
Theorem parseExistingGrammar_reads_back_updateGrammar (rules : list Rule) :
  rules <> [] -> (forall rule, In rule rules -> formRule rule) ->
  parseExistingGrammar (updateGrammar rules) = rules.
Proof.
  intros Hne Hform. unfold updateGrammar.
  assert (Ef : List.filter (fun rule => negb (streq (trim (Rule.lhs rule)) [])) rules = rules).
  { clear Hne. induction rules as [|rule rules IH]; [reflexivity|]. simpl.
    rewrite (formRule_kept rule) by (apply Hform; now left).
    f_equal. apply IH. intros r Hr. apply Hform. now right. }
  rewrite Ef.
  set (line := fun rule => Rule.lhs rule ++ js " -> " ++ Rule.rhs rule).
  assert (Hlines : List.map line rules <> []).
  { destruct rules; [contradiction | discriminate]. }
  assert (Hno : forall l, In l (List.map line rules) -> ~ In 10%N l).
  { intros l Hl. apply in_map_iff in Hl as (rule & <- & Hr).
    now destruct (formRule_line rule (Hform rule Hr)) as (_ & _ & _ & H). }
  assert (Etrim : trim (join nl (List.map line rules)) = join nl (List.map line rules)).
  { destruct rules as [|first rest] eqn:Er; [contradiction|]. rewrite <- Er in *.
    assert (Hlast : List.last (List.map line rules) [] <> []
                    /\ isWhiteSpace (List.last (List.last (List.map line rules) []) 32%N)
                       = false).
    { destruct (exists_last Hne) as (init & final & Einit). rewrite Einit.
      rewrite map_app. simpl. rewrite last_last.
      destruct (formRule_line final) as (H1 & _ & H3 & _);
        [apply Hform; rewrite Einit; apply in_or_app; right; now left|].
      now split. }
    destruct Hlast as [Hl1 Hl2].
    destruct (formRule_line first) as (H1 & H2 & _); [apply Hform; rewrite Er; now left|].
    apply trim_fixed.
    - rewrite Er. simpl List.map. fold (line first).
      destruct (line first) as [|c l] eqn:El; [contradiction|].
      destruct (List.map line rest); discriminate.
    - rewrite Er. simpl List.map. now rewrite join_hd.
    - now rewrite join_last. }
  unfold parseExistingGrammar.
  destruct (join nl (List.map line rules)) as [|c text] eqn:Etext.
  { exfalso. destruct rules as [|first rest]; [contradiction|]. simpl List.map in Etext.
    destruct (formRule_line first) as (H1 & _); [apply Hform; now left|].
    fold (line first) in H1. destruct (line first) as [|d l]; [contradiction|].
    destruct (List.map line rest); discriminate. }
  rewrite Etrim, <- Etext, (splitOn_join _ Hlines Hno).
  clear Etext Etrim Hno Hlines Ef Hne.
  induction rules as [|rule rules IH]; [reflexivity|].
  simpl. unfold line at 1.
  assert (Hr : formRule rule) by (apply Hform; now left).
  rewrite (matchProduction_formRule rule Hr).
  destruct Hr as (_ & Hn & Hh & Hl & _). rewrite (trim_fixed _ Hn Hh Hl).
  simpl. f_equal; [now destruct rule|]. apply IH. intros r Hin. apply Hform. now right.
Qed.

Lemma parseExistingGrammar_reads_back_updateGrammar_witness :
  let rules := [Rule.mk (js "S") (js "A A"); Rule.mk (js "A") (js "a  A");
                Rule.mk (js "A") (js "b")] in
  parseExistingGrammar (updateGrammar rules) = rules.
Proof.
  apply (parseExistingGrammar_reads_back_updateGrammar
           [Rule.mk (js "S") (js "A A"); Rule.mk (js "A") (js "a  A");
            Rule.mk (js "A") (js "b")]).
  - discriminate.
  - intros rule [<- | [<- | [<- | []]]]; vm_compute; intuition discriminate.
Defined.

Lemma join_cons_nonempty (sep p : jsstring) (rest : list jsstring) :
  rest <> [] -> join sep (p :: rest) = p ++ sep ++ join sep rest.
Proof. destruct rest; [contradiction | reflexivity]. Qed.

Lemma join_snoc_app (lines : list jsstring) (a w : jsstring) :
  join nl (lines ++ [a ++ w]) = join nl (lines ++ [a]) ++ w.
Proof.
  induction lines as [|x lines IH]; [reflexivity|].
  change ((x :: lines) ++ [a ++ w]) with (x :: (lines ++ [a ++ w])).
  change ((x :: lines) ++ [a]) with (x :: (lines ++ [a])).
  rewrite !join_cons_nonempty by (destruct lines; discriminate).
  now rewrite IH, <- !app_assoc.
Qed.

Lemma trim_trailing (s w : jsstring) :
  s <> [] -> isWhiteSpace (hd 32%N s) = false -> isWhiteSpace (List.last s 32%N) = false ->
  forallb isWhiteSpace w = true -> trim (s ++ w) = s.
Proof.
  intros Hne Hh Hl Hw. unfold trim.
  assert (E : dropWhile isWhiteSpace (s ++ w) = s ++ w).
  { destruct s as [|c s]; [contradiction|]. simpl in Hh. simpl. now rewrite Hh. }
  rewrite E, rev_app_distr, dropWhile_app.
  - rewrite (dropWhile_rev_last _ s Hne Hl). apply rev_involutive.
  - rewrite forallb_forall in *. intros c Hc. apply Hw. now apply in_rev.
Qed.

Lemma nonTerminalName_kept (lhs : jsstring) :
  isNonTerminalName lhs = true -> negb (streq (trim lhs) []) = true.
Proof.
  intros H. apply (formRule_kept (Rule.mk lhs [0%N])).
  split; [assumption|]. split; [discriminate|]. now split.
Qed.

Section EmptyLastRow.
Variable storeRhs : list jsstring -> list jsstring.

Lemma parseLines_unmatched (lines : list jsstring) (line : jsstring) :
  In line lines -> matchProduction line = None ->
  forall i productions terminals nonTerminals,
    exists e, parseLines storeRhs lines i productions terminals nonTerminals = inl e.
Proof.
  intros Hin Hno. induction lines as [|x lines IH]; [destruct Hin|].
  intros i productions terminals nonTerminals. simpl.
  destruct Hin as [-> | Hin]; [rewrite Hno; now eexists|].
  destruct (matchProduction x) as [[lhs rhsStr]|]; [|now eexists].
  destruct (classifySymbols _ _ _) as [e|[ts nts]]; [now eexists|].
  now apply IH.
Qed.

Lemma empty_last_row_rejected (rules : list Rule) (last : Rule) :
  (forall rule, In rule rules -> formRule rule) ->
  isNonTerminalName (Rule.lhs last) = true ->
  forallb isWhiteSpace (Rule.rhs last) = true ->
  exists e, parseGrammarWith storeRhs (updateGrammar (rules ++ [last])) = inl e.
Proof.
  intros Hform Hlhs Hrhs. unfold updateGrammar.
  set (line := fun rule => Rule.lhs rule ++ js " -> " ++ Rule.rhs rule).
  assert (Ef : List.filter (fun rule => negb (streq (trim (Rule.lhs rule)) []))
                 (rules ++ [last]) = rules ++ [last]).
  { rewrite List.filter_app. simpl. rewrite (nonTerminalName_kept _ Hlhs). f_equal.
    induction rules as [|rule rules IH]; [reflexivity|]. simpl.
    rewrite (formRule_kept rule) by (apply Hform; now left).
    f_equal. apply IH. intros r Hr. apply Hform. now right. }
  rewrite Ef, map_app. simpl List.map.
  set (bare := Rule.lhs last ++ js " ->").
  assert (El : line last = bare ++ 32%N :: Rule.rhs last).
  { unfold line, bare. now rewrite <- app_assoc. }
  rewrite El, join_snoc_app.
  match goal with |- context [join nl ?l ++ _] => set (lines := l) end.
  assert (Hbare : bare <> [] /\ isWhiteSpace (hd 32%N bare) = false
                  /\ isWhiteSpace (List.last bare 32%N) = false /\ ~ In 10%N bare).
  { unfold bare. destruct (Rule.lhs last) as [|c name] eqn:En; [discriminate|].
    simpl in Hlhs. apply andb_prop in Hlhs as [Hc Hn].
    split; [discriminate|]. split; [simpl; now apply isUpper_not_space|]. split.
    - now rewrite last_app_nonempty by discriminate.
    - intros Hin. apply in_app_or in Hin as [[E | Hin] | Hin].
      + rewrite E in Hc. discriminate.
      + now apply (forallb_alnum_notin name 10%N Hn).
      + vm_compute in Hin. intuition discriminate. }
  destruct Hbare as (Hb1 & Hb2 & Hb3 & Hb4).
  assert (Hno : forall l, In l lines -> ~ In 10%N l).
  { intros l Hl. apply in_app_or in Hl as [Hl | [<- | []]]; [|assumption].
    apply in_map_iff in Hl as (rule & <- & Hr).
    now destruct (formRule_line rule (Hform rule Hr)) as (_ & _ & _ & H). }
  assert (Hlines : lines <> []) by (unfold lines; destruct (List.map line rules); discriminate).
  assert (Etrim : trim (join nl lines ++ 32%N :: Rule.rhs last) = join nl lines).
  { apply trim_trailing.
    - unfold lines. destruct rules as [|first rest]; [assumption|]. simpl List.map.
      destruct (formRule_line first) as (H1 & _); [apply Hform; now left|].
      fold (line first) in H1.
      change ((line first :: List.map line rest) ++ [bare])
        with (line first :: (List.map line rest ++ [bare])).
      rewrite join_cons_nonempty by (destruct (List.map line rest); discriminate).
      destruct (line first); [contradiction | discriminate].
    - unfold lines. destruct rules as [|first rest]; [assumption|]. simpl List.map.
      destruct (formRule_line first) as (H1 & H2 & _); [apply Hform; now left|].
      change ((line first :: List.map line rest) ++ [bare])
        with (line first :: (List.map line rest ++ [bare])).
      now rewrite join_hd.
    - rewrite join_last; unfold lines; rewrite ?last_last; assumption.
    - assumption. }
  unfold parseGrammarWith. rewrite Etrim, (splitOn_join _ Hlines Hno).
  destruct (List.length lines =? 0) eqn:E0.
  { apply Nat.eqb_eq in E0. destruct lines; [contradiction | discriminate]. }
  destruct (parseLines_unmatched lines bare) with (i := 0) (productions := @nil Production)
    (terminals := @nil jsstring) (nonTerminals := @nil jsstring) as [e Ee].
  - unfold lines. apply in_or_app. right. now left.
  - now apply bare_arrow_no_match.
  - rewrite Ee. now exists e.
Qed.

End EmptyLastRow.

(** X25: a form whose last row has a nonterminal name on the left and
    nothing but white space on the right gives a text that [parseGrammar]
    rejects: the text is trimmed, the last line ends with the arrow and
    fails the production pattern. *)
Theorem updateGrammar_empty_last_row_is_rejected (rules : list Rule) (last : Rule) :
  (forall rule, In rule rules -> formRule rule) ->
  isNonTerminalName (Rule.lhs last) = true ->
  forallb isWhiteSpace (Rule.rhs last) = true ->
  (exists e, Lib.parseGrammar (updateGrammar (rules ++ [last])) = inl e)
  /\ (exists e, Part1.parseGrammar (updateGrammar (rules ++ [last])) = inl e).
Proof.
  intros Hform Hlhs Hrhs. split; now apply empty_last_row_rejected.
Qed.

Lemma updateGrammar_empty_last_row_is_rejected_witness :
  let rules := [Rule.mk (js "S") (js "a A")] ++ [Rule.mk (js "A") []] in
  (exists e, Lib.parseGrammar (updateGrammar rules) = inl e)
  /\ (exists e, Part1.parseGrammar (updateGrammar rules) = inl e).
Proof.
  apply (updateGrammar_empty_last_row_is_rejected
           [Rule.mk (js "S") (js "a A")] (Rule.mk (js "A") [])).
  - intros rule [<- | []]. vm_compute. intuition discriminate.
  - reflexivity.
  - reflexivity.
Defined.

(** ** The content of the action table *)









(** ** The texts that parseGrammar lets through *)

Lemma classifySymbols_returns (rhs : list jsstring) :
  Forall goodSymbol rhs ->
  forall terminals nonTerminals, exists r, classifySymbols rhs terminals nonTerminals = inr r.
Proof.
  induction rhs as [|symbol rest IH]; intros H terminals nonTerminals; simpl;
    [now eexists|].
  inversion H as [|? ? Hs Hrest]; subst.
  destruct (streq symbol eps) eqn:E1; [now apply IH|].
  destruct (isTerminalName symbol) eqn:E2; [now apply IH|].
  destruct (isNonTerminalName symbol) eqn:E3; [now apply IH|].
  destruct Hs as [-> | [Hs | [Hs | ->]]]; try congruence.
  - rewrite streq_refl in E1. discriminate.
  - simpl. now apply IH.
Qed.

Section ReturnsIff.
Variable storeRhs : list jsstring -> list jsstring.

Lemma parseLines_returns_iff (lines : list jsstring) :
  forall i productions terminals nonTerminals,
    (exists r, parseLines storeRhs lines i productions terminals nonTerminals = inr r)
    <-> forall line, In line lines -> goodLine line.
Proof.
  induction lines as [|line lines IH]; intros i productions terminals nonTerminals; simpl.
  - split; [intros _ l [] | intros _; now eexists].
  - destruct (matchProduction line) as [[lhs rhsStr]|] eqn:Em.
    + destruct (classifySymbols _ _ _) as [e|[ts nts]] eqn:Ec.
      * split; [intros [r Hr]; discriminate|]. intros H. exfalso.
        destruct (H line (or_introl eq_refl)) as (lhs' & rhsStr' & Em' & Hgood).
        rewrite Em in Em'. injection Em' as <- <-.
        destruct (classifySymbols_returns _ Hgood terminals (setAdd lhs nonTerminals))
          as [r Hr].
        congruence.
      * rewrite IH. split.
        -- intros H l [<- | Hl]; [|now apply H].
           exists lhs, rhsStr. split; [assumption|]. eapply classifySymbols_good, Ec.
        -- intros H l Hl. apply H. now right.
    + split; [intros [r Hr]; discriminate|]. intros H. exfalso.
      destruct (H line (or_introl eq_refl)) as (lhs' & rhsStr' & Em' & _). congruence.
Qed.

Lemma parseLines_length (lines : list jsstring) :
  forall i productions terminals nonTerminals ps ts nts,
    parseLines storeRhs lines i productions terminals nonTerminals = inr (ps, ts, nts) ->
    List.length ps = List.length productions + List.length lines.
Proof.
  induction lines as [|line lines IH]; intros i productions terminals nonTerminals ps ts nts;
    simpl.
  - intros E. injection E as <- _ _. lia.
  - destruct (matchProduction line) as [[lhs rhsStr]|]; [|discriminate].
    destruct (classifySymbols _ _ _) as [e|[ts2 nts2]]; [discriminate|].
    intros E. apply IH in E. rewrite E, length_app. simpl. lia.
Qed.

Lemma parseGrammarWith_returns_iff (input : jsstring) :
  (exists g, parseGrammarWith storeRhs input = inr g)
  <-> forall line, In line (splitOn 10%N (trim input)) -> goodLine line.
Proof.
  rewrite <- (parseLines_returns_iff _ 0 [] [] []). unfold parseGrammarWith.
  pose proof (splitOn_nonempty 10%N (trim input)) as Hne.
  destruct (List.length (splitOn 10%N (trim input)) =? 0) eqn:E0.
  { apply Nat.eqb_eq in E0. destruct (splitOn 10%N (trim input)); [contradiction | discriminate]. }
  destruct (parseLines storeRhs _ 0 [] [] []) as [e|[[ps ts] nts]] eqn:Ep.
  - split; intros [r Hr]; discriminate.
  - apply parseLines_length in Ep. simpl in Ep.
    destruct ps as [|first ps].
    + exfalso. simpl in Ep. destruct (splitOn 10%N (trim input)); [contradiction | discriminate].
    + split; intros _; now eexists.
Qed.

End ReturnsIff.

(** X27: each copy of [parseGrammar] returns a grammar exactly when every
    line of the trimmed text matches the production pattern and every
    symbol of its right-hand side is the epsilon marker, a terminal name,
    a nonterminal name or the empty string; otherwise it throws. *)
Theorem parseGrammar_returns_iff (input : jsstring) :
  ((exists g, Lib.parseGrammar input = inr g)
   <-> forall line, In line (splitOn 10%N (trim input)) -> goodLine line)
  /\ ((exists g, Part1.parseGrammar input = inr g)
      <-> forall line, In line (splitOn 10%N (trim input)) -> goodLine line).
Proof. split; apply parseGrammarWith_returns_iff. Qed.

(** ** The canonical collection is closed under GOTO *)

Lemma goto_nonempty (fuel : nat) (g : Grammar) (items r : list Item) (symbol : jsstring) :
  In symbol (symbolsAfterDot items) -> goto fuel g items symbol = Ret r -> r <> [].
Proof.
  intros Hs E. apply symbolsAfterDot_In in Hs as (item & Hitem & Hlt & Es).
  unfold goto in E. destruct (closure_facts g fuel _ _ E) as [(extra & -> & _) _].
  assert (Hin : In (Item.mk (Item.production item) (Item.dotPosition item + 1)
                      (Item.lookahead item)) (advance items symbol)).
  { apply advance_In. exists item. split; [assumption|]. split; [|reflexivity].
    split; [assumption | now symmetry]. }
  intros E0. apply app_eq_nil in E0 as [E0 _]. rewrite E0 in Hin. destruct Hin.
Qed.

Lemma gotoRegistered_more (g : Grammar) (states more : list State) (state : State)
    (symbol : jsstring) :
  gotoRegistered g states state symbol -> gotoRegistered g (states ++ more) state symbol.
Proof.
  intros (fuel & gotoItems & E & Hne & target & Ht & Es).
  exists fuel, gotoItems. split; [assumption|]. split; [assumption|].
  exists target. split; [apply in_or_app; now left | assumption].
Qed.

Section ClosedUnderGoto.
Variable g : Grammar.

Lemma exploreSymbol_closed (fuel : nat) (state : State) (acc acc' : Collection)
    (symbol : jsstring) :
  mapped acc -> In symbol (symbolsAfterDot (State.items state)) ->
  exploreSymbol fuel g state acc symbol = Ret acc' ->
  mapped acc' /\ (exists more, fst acc' = fst acc ++ more)
  /\ gotoRegistered g (fst acc') state symbol.
Proof.
  intros Hm Hs. unfold exploreSymbol. intros E.
  apply bindRun_Ret in E as (gotoItems & Eg & E).
  pose proof (goto_nonempty fuel g _ _ _ Hs Eg) as Hne.
  destruct (0 <? List.length gotoItems) eqn:El.
  2:{ apply Nat.ltb_ge in El. destruct gotoItems; [contradiction | simpl in El; lia]. }
  destruct (snd acc !! getStateSignature gotoItems) as [k|] eqn:Ek; injection E as <-.
  - split; [assumption|]. split; [exists []; now rewrite app_nil_r|].
    destruct (Hm _ _ Ek) as (target & Ht & Es).
    exists fuel, gotoItems. split; [assumption|]. split; [assumption|].
    exists target. split; [|assumption].
    apply list_elem_of_In. eapply list_elem_of_lookup_2, Ht.
  - cbn [fst snd]. split; [|split; [now eexists|]].
    + intros signature k Hk. cbn [fst snd] in Hk |- *.
      destruct (decide (signature = getStateSignature gotoItems)) as [-> | Hne'].
      * rewrite lookup_insert_eq in Hk. injection Hk as <-.
        exists (State.mk (List.length (fst acc)) gotoItems (kernelOf state symbol gotoItems)).
        split; [|reflexivity].
        rewrite lookup_app_r by lia. now rewrite Nat.sub_diag.
      * rewrite lookup_insert_ne in Hk by congruence.
        destruct (Hm _ _ Hk) as (target & Ht & Es). exists target. split; [|assumption].
        rewrite lookup_app_l; [assumption|]. eapply lookup_lt_Some, Ht.
    + exists fuel, gotoItems. split; [assumption|]. split; [assumption|].
      exists (State.mk (List.length (fst acc)) gotoItems (kernelOf state symbol gotoItems)).
      split; [apply in_or_app; right; now left | reflexivity].
Qed.

Lemma exploreSymbols_closed (fuel : nat) (state : State) (symbols : list jsstring) :
  forall acc acc',
    mapped acc ->
    (forall symbol, In symbol symbols -> In symbol (symbolsAfterDot (State.items state))) ->
    forEach (exploreSymbol fuel g state) symbols acc = Ret acc' ->
    mapped acc' /\ (exists more, fst acc' = fst acc ++ more)
    /\ forall symbol, In symbol symbols -> gotoRegistered g (fst acc') state symbol.
Proof.
  induction symbols as [|symbol symbols IH]; intros acc acc' Hm Hs; simpl.
  - intros E. injection E as <-. split; [assumption|].
    split; [exists []; now rewrite app_nil_r | intros s []].
  - intros E. apply bindRun_Ret in E as (acc1 & E1 & E2).
    destruct (exploreSymbol_closed _ _ _ _ _ Hm (Hs symbol (or_introl eq_refl)) E1)
      as (Hm1 & [m1 Em1] & Hr1).
    destruct (IH _ _ Hm1 (fun s H => Hs s (or_intror H)) E2) as (Hm2 & [m2 Em2] & Hr2).
    split; [assumption|]. split; [exists (m1 ++ m2); now rewrite Em2, Em1, app_assoc|].
    intros s [<- | Hin]; [|now apply Hr2].
    rewrite Em2. now apply gotoRegistered_more.
Qed.

Lemma exploreStates_closed (fuel : nat) :
  forall i acc states,
    mapped acc ->
    (forall j state symbol, j < i -> fst acc !! j = Some state ->
       In symbol (symbolsAfterDot (State.items state)) ->
       gotoRegistered g (fst acc) state symbol) ->
    exploreStates fuel g i acc = Ret states ->
    forall state symbol, In state states ->
      In symbol (symbolsAfterDot (State.items state)) ->
      gotoRegistered g states state symbol.
Proof.
  induction fuel as [|fuel IH]; intros i acc states Hm Hdone; simpl; [discriminate|].
  destruct (fst acc !! i) as [state|] eqn:Ei.
  - intros E. apply bindRun_Ret in E as (acc1 & E1 & E2).
    destruct (exploreSymbols_closed _ _ _ _ _ Hm (fun s H => H) E1) as (Hm1 & [m1 Em1] & Hr1).
    apply (IH _ _ _ Hm1) with (2 := E2).
    intros j st symbol Hj Hst Hs.
    destruct (decide (j = i)) as [-> | Hne].
    + assert (st = state).
      { rewrite Em1, lookup_app_l in Hst by (eapply lookup_lt_Some, Ei). congruence. }
      subst st. now apply Hr1.
    + assert (Hlt : j < i) by lia.
      assert (Hj' : j < List.length (fst acc)).
      { apply lookup_lt_Some in Ei. lia. }
      rewrite Em1, lookup_app_l in Hst by assumption.
      rewrite Em1. apply gotoRegistered_more. now apply (Hdone j).
  - intros E. injection E as <-. intros state symbol Hstate Hs.
    apply list_elem_of_In, list_elem_of_lookup_1 in Hstate as [j Hj].
    apply (Hdone j); [|assumption|assumption].
    apply lookup_ge_None_1 in Ei. apply lookup_lt_Some in Hj. lia.
Qed.

Lemma generateClrItems_closed (fuel : nat) (states : list State) (state : State)
    (symbol : jsstring) :
  generateClrItems fuel g = Ret states ->
  In state states -> In symbol (symbolsAfterDot (State.items state)) ->
  gotoRegistered g states state symbol.
Proof.
  unfold generateClrItems.
  destruct (Grammar.productions g) as [|augmented rest]; [discriminate|].
  intros E. apply bindRun_Ret in E as (initialClosure & E1 & E2).
  apply (exploreStates_closed _ _ _ _) with (3 := E2).
  - intros signature k Hk. simpl in Hk.
    destruct (decide (signature = getStateSignature initialClosure)) as [-> | Hne].
    + rewrite lookup_singleton_eq in Hk. injection Hk as <-. now eexists.
    + rewrite lookup_singleton_ne in Hk by congruence. discriminate.
  - intros j st s Hj. lia.
Qed.

End ClosedUnderGoto.

(** X28: the collection returned by [generateClrItems] is closed under
    GOTO: for every state of it and every symbol after a dot in the state,
    the GOTO set of the state on the symbol returns, is not empty, and has
    the signature of a state of the collection. *)
Theorem generateClrItems_closed_under_goto
    (fuel : nat) (g : Grammar) (states : list State) (state : State) (symbol : jsstring) :
  generateClrItems fuel g = Ret states ->
  In state states -> In symbol (symbolsAfterDot (State.items state)) ->
  gotoRegistered g states state symbol.
Proof. apply generateClrItems_closed. Qed.

Lemma generateClrItems_closed_under_goto_witness :
  gotoRegistered sampleGrammar sampleStates (nth 2 sampleStates (State.mk 0 [] [])) (js "A").
Proof.
  apply (generateClrItems_closed_under_goto 50 sampleGrammar sampleStates).
  - vm_compute. reflexivity.
  - vm_compute. do 2 right. left. reflexivity.
  - vm_compute. left. reflexivity.
Defined.

(** ** Equal signatures, equal item sets *)

Lemma split_at_first {A} (c : A) (a b x y : list A) :
  a ++ c :: x = b ++ c :: y -> ~ In c a -> ~ In c b -> a = b /\ x = y.
Proof.
  revert b. induction a as [|d a IH]; intros [|e b]; simpl; intros E Ha Hb.
  - injection E as ->. now split.
  - injection E as <- _. exfalso. apply Hb. now left.
  - injection E as -> _. exfalso. apply Ha. now left.
  - injection E as -> E. apply IH in E as [-> ->]; [now split | tauto | tauto].
Qed.

Lemma join_cons_cons (c : N) (p q : jsstring) (rest : list jsstring) :
  join [c] (p :: q :: rest) = p ++ c :: join [c] (q :: rest).
Proof. reflexivity. Qed.

Lemma join_char_inj (c : N) (l1 l2 : list jsstring) :
  Forall (fun s => ~ In c s) l1 -> Forall (fun s => ~ In c s) l2 ->
  join [c] l1 = join [c] l2 ->
  l1 = l2 \/ (l1 = [] /\ l2 = [[]]) \/ (l1 = [[]] /\ l2 = []).
Proof.
  revert l2. induction l1 as [|a l1 IH]; intros l2 H1 H2 E.
  - rewrite join_nil in E. destruct l2 as [|b [|d r]].
    + now left.
    + rewrite join_one in E. subst b. right. now left.
    + rewrite join_cons_cons in E. symmetry in E.
      apply app_eq_nil in E as [_ E]. discriminate.
  - inversion H1 as [|? ? Ha H1']; subst.
    destruct l2 as [|b l2].
    + rewrite join_nil in E. destruct l1 as [|d r].
      * rewrite join_one in E. subst a. right. now right.
      * rewrite join_cons_cons in E. apply app_eq_nil in E as [_ E]. discriminate.
    + inversion H2 as [|? ? Hb H2']; subst.
      destruct l1 as [|d r], l2 as [|d' r'].
      * rewrite !join_one in E. subst. now left.
      * rewrite join_one, join_cons_cons in E. exfalso. apply Ha. rewrite E.
        apply in_or_app. right. now left.
      * rewrite join_one, join_cons_cons in E. exfalso. apply Hb. rewrite <- E.
        apply in_or_app. right. now left.
      * rewrite !join_cons_cons in E.
        apply split_at_first in E as [-> E]; [|assumption|assumption].
        apply IH in E as [-> | [[E _] | [_ E]]]; try assumption; try discriminate.
        now left.
Qed.

Lemma notin_join (c sep : N) (parts : list jsstring) :
  c <> sep -> (forall part, In part parts -> ~ In c part) -> ~ In c (join [sep] parts).
Proof.
  intros Hsep. induction parts as [|p parts IH]; intros Hparts; [intros []|].
  destruct parts as [|q parts].
  - rewrite join_one. apply Hparts. now left.
  - rewrite join_cons_cons. intros Hin. apply in_app_or in Hin as [Hin | [E | Hin]].
    + now apply (Hparts p (or_introl eq_refl)).
    + congruence.
    + apply IH; [|assumption]. intros part Hp. apply Hparts. now right.
Qed.

Lemma insertSorted_Permutation (x : jsstring) (l : list jsstring) :
  Permutation (insertSorted x l) (x :: l).
Proof.
  induction l as [|y l IH]; simpl; [reflexivity|].
  destruct (strle x y); [reflexivity|].
  rewrite IH. apply perm_swap.
Qed.

Lemma sortStrings_sorted_Permutation (l : list jsstring) : Permutation (sortStrings l) l.
Proof.
  induction l as [|x l IH]; simpl; [reflexivity|].
  rewrite insertSorted_Permutation. now constructor.
Qed.

Lemma getStateSignature_itemString (items : list Item) :
  getStateSignature items = join (js "|") (sortStrings (List.map itemString items)).
Proof. reflexivity. Qed.

Lemma In_firstn_list {A} (x : A) (n : nat) (l : list A) : In x (firstn n l) -> In x l.
Proof. intros H. rewrite <- (firstn_skipn n l). apply in_or_app. now left. Qed.

Lemma In_skipn_list {A} (x : A) (n : nat) (l : list A) : In x (skipn n l) -> In x l.
Proof. intros H. rewrite <- (firstn_skipn n l). apply in_or_app. now right. Qed.

Lemma itemString_nonempty (item : Item) : itemString item <> [].
Proof.
  unfold itemString. intros E. apply app_eq_nil in E as [_ E]. discriminate.
Qed.

Section SignatureFacts.
Variable input : jsstring.
Variable g : Grammar.
Hypothesis Hg : parsed input g.

Lemma lhs_chars (p : Production) (c : N) :
  In p (Grammar.productions g) -> isAlnum c = false -> c <> 39%N ->
  ~ In c (Production.lhs p).
Proof.
  intros Hp Hc Hq. destruct (parsed_shape input g Hg) as (first & ps & Eps & Hgood & _).
  rewrite Eps in Hp. rewrite List.Forall_forall in Hgood.
  assert (Hname : forall q, In q (first :: ps) -> ~ In c (Production.lhs q)).
  { intros q Hin. apply Hgood in Hin as (Hl & _).
    apply forallb_alnum_notin; [now apply nonTerminalName_alnum | assumption]. }
  destruct Hp as [<- | Hp]; [|now apply Hname]. simpl.
  intros Hin. apply in_app_or in Hin as [Hin | [E | []]].
  - now apply (Hname first (or_introl eq_refl)).
  - now apply Hq.
Qed.

Lemma terminal_chars (t : jsstring) (c : N) :
  In t (Grammar.terminals g) -> isAlnum c = false -> c <> 36%N -> ~ In c t.
Proof.
  intros Ht Hc Hd.
  pose proof Hg as Hg'.
  apply parsed_sets in Hg' as (first & ps & ts & nts & _ & Et & _ & _ & Hinv).
  destruct Hinv as (_ & _ & Hts & _).
  rewrite Et in Ht. apply In_setAdd in Ht as [-> | Ht].
  - intros [E | []]. now apply Hd.
  - apply forallb_alnum_notin; [|assumption]. now apply terminalName_alnum, Hts.
Qed.

Lemma withDot_chars (item : Item) (c : N) (s : jsstring) :
  In (Item.production item) (Grammar.productions g) ->
  isAlnum c = false -> c <> 949%N -> c <> 8226%N ->
  In s (withDot item) -> ~ In c s.
Proof.
  intros Hp Hc He Hb Hs.
  destruct (parsed_rhs_good input g _ Hg Hp) as [_ Hgood].
  rewrite List.Forall_forall in Hgood.
  unfold withDot in Hs. apply in_app_or in Hs as [Hs | Hs].
  - apply goodSymbol_notin; [|assumption|assumption].
    apply Hgood. eapply In_firstn_list, Hs.
  - apply in_app_or in Hs as [[<- | []] | Hs].
    + intros [E | []]. now apply Hb.
    + apply goodSymbol_notin; [|assumption|assumption].
      apply Hgood. eapply In_skipn_list, Hs.
Qed.

Lemma rhs_no_bullet (p : Production) :
  In p (Grammar.productions g) -> ~ In bullet (Production.rhs p).
Proof.
  intros Hp Hin. destruct (parsed_rhs_good input g _ Hg Hp) as [_ Hgood].
  rewrite List.Forall_forall in Hgood. apply Hgood in Hin.
  apply (goodSymbol_notin bullet 8226%N Hin); [reflexivity | discriminate | now left].
Qed.

(** Two items of the grammar with the same text are equal for
    [itemsEqual]. *)
Lemma itemString_inj (item1 item2 : Item) :
  okItem g item1 -> okItem g item2 ->
  Item.dotPosition item1 <= List.length (Production.rhs (Item.production item1)) ->
  Item.dotPosition item2 <= List.length (Production.rhs (Item.production item2)) ->
  itemString item1 = itemString item2 -> itemKey item1 = itemKey item2.
Proof.
  intros [Hp1 (l1 & El1 & Hl1)] [Hp2 (l2 & El2 & Hl2)] Hd1 Hd2 E.
  unfold itemString in E. rewrite El1, El2, !join_one in E.
  change (js "->") with [45%N; 62%N] in E. change (js ",") with [44%N] in E.
  change (js " ") with [32%N] in E.
  simpl app in E.
  apply split_at_first in E as [Elhs E];
    [|apply lhs_chars; [assumption | reflexivity | discriminate]
     |apply lhs_chars; [assumption | reflexivity | discriminate]].
  injection E as E.
  assert (Hw : forall item, In (Item.production item) (Grammar.productions g) ->
             ~ In 44%N (join [32%N] (withDot item))).
  { intros item Hp. apply notin_join; [discriminate|]. intros part Hpart.
    apply (withDot_chars item); [assumption | reflexivity | discriminate | discriminate
                                | assumption]. }
  apply split_at_first in E as [Ew El]; [|now apply Hw | now apply Hw].
  assert (Hs : forall item, In (Item.production item) (Grammar.productions g) ->
             Forall (fun s => ~ In 32%N s) (withDot item)).
  { intros item Hp. apply List.Forall_forall. intros s Hin.
    apply (withDot_chars item); [assumption | reflexivity | discriminate | discriminate
                                | assumption]. }
  apply join_char_inj in Ew as [Ew | [[Ew _] | [Ew _]]]; [|
    |
    |now apply Hs | now apply Hs].
  2:{ unfold withDot in Ew. destruct (firstn _ _); discriminate. }
  2:{ unfold withDot in Ew. destruct (firstn _ _) as [|a [|b r]]; discriminate. }
  unfold withDot in Ew. simpl app in Ew.
  apply split_at_first in Ew as [Ef Es].
  - assert (Erhs : Production.rhs (Item.production item1)
                   = Production.rhs (Item.production item2)).
    { rewrite <- (firstn_skipn (Item.dotPosition item1) (Production.rhs (Item.production item1))).
      rewrite <- (firstn_skipn (Item.dotPosition item2) (Production.rhs (Item.production item2))).
      now rewrite Ef, Es. }
    assert (Edot : Item.dotPosition item1 = Item.dotPosition item2).
    { apply (f_equal (@List.length jsstring)) in Ef.
      rewrite !length_firstn in Ef. lia. }
    unfold itemKey. now rewrite Elhs, Erhs, Edot, El1, El2, El.
  - intros Hin. apply (rhs_no_bullet _ Hp1). eapply In_firstn_list, Hin.
  - intros Hin. apply (rhs_no_bullet _ Hp2). eapply In_firstn_list, Hin.
Qed.

Lemma itemString_no_bar (item : Item) :
  okItem g item -> ~ In 124%N (itemString item).
Proof.
  intros [Hp (l & El & Hl)]. unfold itemString. rewrite El, join_one.
  intros Hin. apply in_app_or in Hin as [Hin | Hin].
  { revert Hin. apply lhs_chars; [assumption | reflexivity | discriminate]. }
  apply in_app_or in Hin as [Hin | Hin].
  { vm_compute in Hin. intuition discriminate. }
  apply in_app_or in Hin as [Hin | Hin].
  { revert Hin. change (js " ") with [32%N]. apply notin_join; [discriminate|].
    intros part Hpart.
    apply (withDot_chars item); [assumption | reflexivity | discriminate | discriminate
                                | assumption]. }
  apply in_app_or in Hin as [Hin | Hin].
  { vm_compute in Hin. intuition discriminate. }
  revert Hin. apply terminal_chars; [assumption | reflexivity | discriminate].
Qed.

(** Item sets of the grammar with the same signature pass the test of
    [generateDfa]. *)
Lemma signature_sameItems (gotoItems : list Item) (target : State) :
  okItems g gotoItems -> okItems g (State.items target) ->
  dotsInRange gotoItems -> dotsInRange (State.items target) ->
  gotoItems <> [] ->
  getStateSignature (State.items target) = getStateSignature gotoItems ->
  sameItems gotoItems target = true.
Proof.
  intros Hok1 Hok2 Hd1 Hd2 Hne E. rewrite !getStateSignature_itemString in E.
  change (js "|") with [124%N] in E.
  assert (Hbar : forall items, okItems g items ->
            Forall (fun s => ~ In 124%N s) (sortStrings (List.map itemString items))).
  { intros items Hok. apply List.Forall_forall. intros s Hs.
    apply (Permutation_in _ (sortStrings_sorted_Permutation _)) in Hs.
    apply in_map_iff in Hs as (item & <- & Hitem). now apply itemString_no_bar, Hok. }
  assert (Hperm : Permutation (List.map itemString (State.items target))
                    (List.map itemString gotoItems)).
  { apply join_char_inj in E as [E | [[_ E] | [_ E]]]; [| | |now apply Hbar | now apply Hbar].
    - rewrite <- (sortStrings_sorted_Permutation (List.map itemString (State.items target))).
      rewrite <- (sortStrings_sorted_Permutation (List.map itemString gotoItems)).
      now rewrite E.
    - exfalso.
      assert (Hin : In [] (sortStrings (List.map itemString gotoItems)))
        by (rewrite E; now left).
      apply (Permutation_in _ (sortStrings_sorted_Permutation _)) in Hin.
      apply in_map_iff in Hin as (x & Ex & _). now apply (itemString_nonempty x).
    - exfalso. pose proof (sortStrings_sorted_Permutation (List.map itemString gotoItems)) as P.
      rewrite E in P. apply Permutation_nil in P.
      destruct gotoItems; [contradiction | discriminate]. }
  unfold sameItems. apply andb_true_intro. split.
  - apply Nat.eqb_eq. apply Permutation_length in Hperm. now rewrite !length_map in Hperm.
  - apply forallb_forall. intros x Hx. apply existsb_exists.
    assert (Hin : In (itemString x) (List.map itemString (State.items target))).
    { apply (Permutation_in _ (Permutation_sym Hperm)). apply in_map_iff. now exists x. }
    apply in_map_iff in Hin as (y & Ey & Hy). exists y. split; [assumption|].
    destruct (Hok1 x Hx) as [Hpx (a & Ea & Ha)]. destruct (Hok2 y Hy) as [Hpy (b & Eb & Hb)].
    apply (itemsEqual_itemKey x y a b Ea Eb).
    symmetry. apply itemString_inj; auto.
Qed.

End SignatureFacts.

(** ** The automaton has an edge for every symbol after a dot *)

Lemma closure_dotsInRange (fuel : nat) (g : Grammar) (items r : list Item) :
  dotsInRange items -> closure fuel g items = Ret r -> dotsInRange r.
Proof.
  intros H E. refine (closure_invariant g dotsInRange _ fuel items r E H).
  intros result parent symbolAfterDot lookaheadSymbols production lookahead Hr _ _ _ _
         item Hitem.
  apply in_app_or in Hitem as [Hitem | [<- | []]]; [now apply Hr | simpl; lia].
Qed.

Lemma goto_dotsInRange (fuel : nat) (g : Grammar) (items r : list Item) (symbol : jsstring) :
  dotsInRange items -> goto fuel g items symbol = Ret r -> dotsInRange r.
Proof.
  intros H. unfold goto. apply closure_dotsInRange.
  intros item Hitem. apply advance_In in Hitem as (it & _ & [Hlt _] & ->). simpl. lia.
Qed.

Lemma generateClrItems_dotsInRange (fuel : nat) (g : Grammar) (states : list State)
    (state : State) :
  generateClrItems fuel g = Ret states -> In state states ->
  dotsInRange (State.items state).
Proof.
  apply (generateClrItems_invariant g dotsInRange).
  - intros fuel0 augmented rest r _. apply closure_dotsInRange.
    intros item [<- | []]. simpl. lia.
  - intros fuel0 items symbol r. apply goto_dotsInRange.
Qed.

Lemma goto_fuel_independent (fuel1 fuel2 : nat) (g : Grammar) (items r1 r2 : list Item)
    (symbol : jsstring) :
  goto fuel1 g items symbol = Ret r1 -> goto fuel2 g items symbol = Ret r2 -> r1 = r2.
Proof.
  unfold goto, closure. intros E1 E2.
  apply (closureWhile_mono g fuel1 (Nat.max fuel1 fuel2)) in E1; [|lia].
  apply (closureWhile_mono g fuel2 (Nat.max fuel1 fuel2)) in E2; [|lia].
  congruence.
Qed.

Lemma forEach_grows {A B} (body : list B -> A -> Run (list B)) (l : list A) :
  (forall s x s', body s x = Ret s' -> exists more, s' = s ++ more) ->
  forall s s', forEach body l s = Ret s' -> exists more, s' = s ++ more.
Proof.
  intros Hbody. induction l as [|x l IH]; intros s s'; simpl.
  - intros E. injection E as <-. exists []. now rewrite app_nil_r.
  - intros E. apply bindRun_Ret in E as (s1 & E1 & E2).
    destruct (Hbody _ _ _ E1) as [m1 ->]. destruct (IH _ _ E2) as [m2 ->].
    exists (m1 ++ m2). now rewrite app_assoc.
Qed.

Lemma edgeFor_grows (fuel : nat) (g : Grammar) (states : list State) (state : State)
    (edges edges' : list Edge) (symbol : jsstring) :
  edgeFor fuel g states state edges symbol = Ret edges' -> exists more, edges' = edges ++ more.
Proof.
  unfold edgeFor. intros E. apply bindRun_Ret in E as (gotoItems & _ & E).
  destruct (0 <? List.length gotoItems);
    [|injection E as <-; exists []; now rewrite app_nil_r].
  destruct (List.find _ states); injection E as <-; [now eexists|].
  exists []. now rewrite app_nil_r.
Qed.

Lemma edgeFor_edge (fuel : nat) (g : Grammar) (states : list State) (state : State)
    (edges edges' : list Edge) (symbol : jsstring) :
  (forall gotoItems, goto fuel g (State.items state) symbol = Ret gotoItems ->
     gotoItems <> [] /\ exists target, In target states /\ sameItems gotoItems target = true) ->
  edgeFor fuel g states state edges symbol = Ret edges' ->
  exists edge, In edge edges'
    /\ Edge.source edge = State.id state /\ Edge.label edge = symbol.
Proof.
  intros H. unfold edgeFor. intros E. apply bindRun_Ret in E as (gotoItems & Eg & E).
  destruct (H _ Eg) as [Hne (target & Htarget & Hsame)].
  destruct (0 <? List.length gotoItems) eqn:El.
  2:{ apply Nat.ltb_ge in El. destruct gotoItems; [contradiction | simpl in El; lia]. }
  destruct (List.find (sameItems gotoItems) states) as [found|] eqn:Ef.
  - injection E as <-. eexists. split; [apply in_or_app; right; now left|]. now split.
  - pose proof (find_none _ _ Ef target Htarget). congruence.
Qed.

Lemma generateDfa_edge (fuel : nat) (g : Grammar) (states : list State) (dfa : Dfa)
    (state : State) (symbol : jsstring) :
  (forall gotoItems, goto fuel g (State.items state) symbol = Ret gotoItems ->
     gotoItems <> [] /\ exists target, In target states /\ sameItems gotoItems target = true) ->
  generateDfa fuel states g = Ret dfa ->
  In state states -> In symbol (symbolsAfterDot (State.items state)) ->
  exists edge, In edge (Dfa.edges dfa)
    /\ Edge.source edge = State.id state /\ Edge.label edge = symbol.
Proof.
  intros H E Hstate Hsymbol. unfold generateDfa in E.
  apply bindRun_Ret in E as (edges & E & Ed). injection Ed as <-. simpl.
  assert (Hinner : forall st symbols s s',
             forEach (edgeFor fuel g states st) symbols s = Ret s' ->
             exists more, s' = s ++ more).
  { intros st symbols. apply forEach_grows. intros s x s'. apply edgeFor_grows. }
  assert (Houter : forall l s s',
             forEach (fun edges st =>
                        forEach (edgeFor fuel g states st)
                          (symbolsAfterDot (State.items st)) edges) l s = Ret s' ->
             exists more, s' = s ++ more).
  { intros l. apply forEach_grows. intros s st s'. apply Hinner. }
  apply in_split in Hstate as (s1 & s2 & Es).
  rewrite Es in E at 1. rewrite forEach_app in E.
  apply bindRun_Ret in E as (e1 & _ & E). simpl in E.
  apply bindRun_Ret in E as (e2 & E2 & E3).
  apply Houter in E3 as [m3 ->].
  apply in_split in Hsymbol as (y1 & y2 & Ey). rewrite Ey in E2.
  rewrite forEach_app in E2. apply bindRun_Ret in E2 as (f1 & _ & E2). simpl in E2.
  apply bindRun_Ret in E2 as (f2 & E4 & E5).
  apply Hinner in E5 as [m5 ->].
  destruct (edgeFor_edge _ _ _ _ _ _ _ H E4) as (edge & Hedge & Hsrc & Hlabel).
  exists edge. split; [|now split].
  apply in_or_app. left. apply in_or_app. now left.
Qed.

(** X29: the automaton is complete: for a grammar returned by
    [parseGrammar], every state of the collection has an edge on every
    symbol that follows a dot in it. *)
Theorem generateDfa_has_an_edge_for_every_symbol
    (input : jsstring) (g : Grammar) (fuel fuel' : nat) (states : list State) (dfa : Dfa)
    (state : State) (symbol : jsstring) :
  parsed input g ->
  generateClrItems fuel g = Ret states -> generateDfa fuel' states g = Ret dfa ->
  In state states -> In symbol (symbolsAfterDot (State.items state)) ->
  exists edge, In edge (Dfa.edges dfa)
    /\ Edge.source edge = State.id state /\ Edge.label edge = symbol.
Proof.
  intros Hg Hs Hd Hstate Hsymbol.
  apply (generateDfa_edge fuel' g states dfa state symbol); try assumption.
  intros gotoItems Eg.
  destruct (generateClrItems_closed g fuel states state symbol Hs Hstate Hsymbol)
    as (fuel0 & gotoItems0 & Eg0 & Hne & target & Htarget & Esig).
  pose proof (goto_fuel_independent _ _ _ _ _ _ _ Eg0 Eg) as ->.
  split; [assumption|]. exists target. split; [assumption|].
  apply (signature_sameItems input g Hg); try assumption.
  - eapply goto_ok; [|exact Eg]. now apply (state_okItems input g fuel states Hg Hs).
  - now apply (state_okItems input g fuel states Hg Hs).
  - eapply goto_dotsInRange; [|exact Eg]. eapply generateClrItems_dotsInRange; eassumption.
  - eapply generateClrItems_dotsInRange; eassumption.
Qed.

Lemma generateDfa_has_an_edge_for_every_symbol_witness :
  exists edge, In edge (Dfa.edges sampleDfa)
    /\ Edge.source edge = State.id (nth 2 sampleStates (State.mk 0 [] []))
    /\ Edge.label edge = js "A".
Proof.
  apply (generateDfa_has_an_edge_for_every_symbol
           (js "S -> A A" ++ nl ++ js "A -> a A" ++ nl ++ js "A -> b")
           sampleGrammar 50 50 sampleStates sampleDfa).
  - right. vm_compute. reflexivity.
  - vm_compute. reflexivity.
  - vm_compute. reflexivity.
  - vm_compute. do 2 right. left. reflexivity.
  - vm_compute. left. reflexivity.
Defined.

(** ** Every state is reached *)

Lemma originated_more (g : Grammar) (states more : list State) (j : nat) (state : State) :
  originated g states j state -> originated g (states ++ more) j state.
Proof.
  intros (i & source & symbol & fuel & Hi & Es & H).
  exists i, source, symbol, fuel. split; [assumption|]. split; [|assumption].
  rewrite lookup_app_l; [assumption|]. eapply lookup_lt_Some, Es.
Qed.

Section Originated.
Variable g : Grammar.

Lemma exploreSymbol_originated (fuel : nat) (i : nat) (state : State) (acc acc' : Collection)
    (symbol : jsstring) :
  fst acc !! i = Some state -> In symbol (symbolsAfterDot (State.items state)) ->
  (forall j st, fst acc !! j = Some st -> 0 < j -> originated g (fst acc) j st) ->
  exploreSymbol fuel g state acc symbol = Ret acc' ->
  (exists more, fst acc' = fst acc ++ more)
  /\ forall j st, fst acc' !! j = Some st -> 0 < j -> originated g (fst acc') j st.
Proof.
  intros Ei Hs Ha. unfold exploreSymbol. intros E.
  apply bindRun_Ret in E as (gotoItems & Eg & E).
  assert (Hsame : (exists more, fst acc = fst acc ++ more)
                  /\ forall j st, fst acc !! j = Some st -> 0 < j ->
                       originated g (fst acc) j st).
  { split; [exists []; now rewrite app_nil_r | assumption]. }
  destruct (0 <? List.length gotoItems); [|now injection E as <-].
  destruct (snd acc !! getStateSignature gotoItems); injection E as <-; [assumption|].
  cbn [fst snd]. split; [now eexists|].
  intros j st Hj Hpos.
  destruct (decide (j < List.length (fst acc))) as [Hlt | Hge].
  - rewrite lookup_app_l in Hj by assumption. now apply originated_more, Ha.
  - rewrite lookup_app_r in Hj by lia.
    destruct (j - List.length (fst acc)) as [|k] eqn:Ek; simpl in Hj; [|discriminate].
    injection Hj as <-. exists i, state, symbol, fuel. simpl.
    split; [apply lookup_lt_Some in Ei; lia|].
    split; [rewrite lookup_app_l; [assumption | eapply lookup_lt_Some, Ei]|].
    split; [assumption|]. now split.
Qed.

Lemma exploreSymbols_originated (fuel : nat) (i : nat) (state : State)
    (symbols : list jsstring) :
  forall acc acc',
    fst acc !! i = Some state ->
    (forall symbol, In symbol symbols -> In symbol (symbolsAfterDot (State.items state))) ->
    (forall j st, fst acc !! j = Some st -> 0 < j -> originated g (fst acc) j st) ->
    forEach (exploreSymbol fuel g state) symbols acc = Ret acc' ->
    (exists more, fst acc' = fst acc ++ more)
    /\ forall j st, fst acc' !! j = Some st -> 0 < j -> originated g (fst acc') j st.
Proof.
  induction symbols as [|symbol symbols IH]; intros acc acc' Ei Hs Ha; simpl.
  - intros E. injection E as <-. split; [exists []; now rewrite app_nil_r | assumption].
  - intros E. apply bindRun_Ret in E as (acc1 & E1 & E2).
    destruct (exploreSymbol_originated _ _ _ _ _ _ Ei (Hs symbol (or_introl eq_refl)) Ha E1)
      as [[m1 Em1] Ha1].
    assert (Ei1 : fst acc1 !! i = Some state).
    { rewrite Em1, lookup_app_l; [assumption | eapply lookup_lt_Some, Ei]. }
    destruct (IH _ _ Ei1 (fun s H => Hs s (or_intror H)) Ha1 E2) as [[m2 Em2] Ha2].
    split; [exists (m1 ++ m2); now rewrite Em2, Em1, app_assoc | assumption].
Qed.

Lemma exploreStates_originated (fuel : nat) :
  forall i acc states,
    (forall j st, fst acc !! j = Some st -> 0 < j -> originated g (fst acc) j st) ->
    exploreStates fuel g i acc = Ret states ->
    forall j st, states !! j = Some st -> 0 < j -> originated g states j st.
Proof.
  induction fuel as [|fuel IH]; intros i acc states Ha; simpl; [discriminate|].
  destruct (fst acc !! i) as [state|] eqn:Ei.
  - intros E. apply bindRun_Ret in E as (acc1 & E1 & E2).
    destruct (exploreSymbols_originated _ _ _ _ _ _ Ei (fun s H => H) Ha E1) as [_ Ha1].
    now apply (IH _ _ _ Ha1 E2).
  - intros E. now injection E as <-.
Qed.

End Originated.

(** X30: every state of the collection but the first is reached from an
    earlier one: the state at index [j > 0] holds the GOTO set of a state
    at a smaller index on a symbol after a dot of that state, and its
    kernel is what the kernel filter keeps of that set. *)
Theorem generateClrItems_states_are_reached
    (fuel : nat) (g : Grammar) (states : list State) (j : nat) (state : State) :
  generateClrItems fuel g = Ret states ->
  states !! j = Some state -> 0 < j -> originated g states j state.
Proof.
  unfold generateClrItems.
  destruct (Grammar.productions g) as [|augmented rest]; [discriminate|].
  intros E. apply bindRun_Ret in E as (initialClosure & _ & E).
  apply (exploreStates_originated g _ _ _ _) with (2 := E).
  intros k st Hk Hpos. destruct k as [|k]; [lia|]. simpl in Hk. discriminate.
Qed.

Lemma generateClrItems_states_are_reached_witness :
  originated sampleGrammar sampleStates 3 (nth 3 sampleStates (State.mk 0 [] [])).
Proof.
  apply (generateClrItems_states_are_reached 50 sampleGrammar sampleStates 3).
  - vm_compute. reflexivity.
  - vm_compute. reflexivity.
  - lia.
Defined.
